(** * ldoc: the markup pipeline of [src/ldoc.py]

    A shallow embedding of [parse_ldoc] and of the pieces of Python it
    relies on ([str.replace], [str.strip], [re.search], [re.findall],
    [re.sub]).  The document buffer is a Python [str]; it is modelled as a
    list of characters whose code points lie below 256, so the character
    classes below are the ones Python uses on that range. *)

From Stdlib Require Import Ascii String List Bool Arith Lia.
Import ListNotations.

Local Open Scope string_scope.
Local Open Scope nat_scope.
Local Open Scope list_scope.

(** ** Characters and strings *)

Definition str := list ascii.

Coercion list_ascii_of_string : string >-> list.

Definition nl : ascii := "010"%char.
Definition dq : ascii := "034"%char.

Definition code (c : ascii) : nat := nat_of_ascii c.

Definition in_range (lo hi : nat) (c : ascii) : bool :=
  (lo <=? code c) && (code c <=? hi).

Definition is_nl (c : ascii) : bool := Ascii.eqb c nl.

(** [.] without [re.S]: every character but the line feed. *)
Definition not_nl (c : ascii) : bool := negb (is_nl c).

(** [.] under [re.S]. *)
Definition any_char (c : ascii) : bool := true.

(** [\s] and [str.isspace]: 9-13, 28-32, 133 and 160. *)
Definition is_space (c : ascii) : bool :=
  in_range 9 13 c || in_range 28 32 c || (code c =? 133) || (code c =? 160).

(** [\w]: the alphanumeric code points and the underscore. *)
Definition is_word (c : ascii) : bool :=
  in_range 48 57 c || in_range 65 90 c || (code c =? 95) || in_range 97 122 c
  || (code c =? 170) || in_range 178 179 c || (code c =? 181)
  || in_range 185 186 c || in_range 188 190 c
  || in_range 192 214 c || in_range 216 246 c || in_range 248 255 c.

(** [str.lower] on one character. *)
Definition lower_char (c : ascii) : ascii :=
  if in_range 65 90 c || in_range 192 214 c || in_range 216 222 c
  then ascii_of_nat (code c + 32) else c.

(** [str.lower] on a text of such code points: there it maps each
    character on its own and keeps the length.  Beyond code point 255
    Python looks at the context of a character and may change the length
    of the text; such texts are outside this model. *)
Definition lower (s : str) : str := map lower_char s.

Fixpoint str_eqb (a b : str) : bool :=
  match a, b with
  | [], [] => true
  | x :: a', y :: b' => Ascii.eqb x y && str_eqb a' b'
  | _, _ => false
  end.

(** [s.startswith(p)]. *)
Fixpoint starts_with (p s : str) : bool :=
  match p, s with
  | [], _ => true
  | x :: p', y :: s' => Ascii.eqb x y && starts_with p' s'
  | _ :: _, [] => false
  end.

(** The longest prefix whose characters satisfy [f], and the rest. *)
Fixpoint span (f : ascii -> bool) (s : str) : str * str :=
  match s with
  | c :: s' =>
      if f c then let (g, r) := span f s' in (c :: g, r) else ([], s)
  | [] => ([], [])
  end.

Definition lstrip (s : str) : str := snd (span is_space s).

(** [str.strip()]: white space removed at both ends. *)
Definition strip (s : str) : str := rev (lstrip (rev (lstrip s))).

(** ** Patterns

    A pattern is written in continuation style: each piece consumes a
    prefix of the text and hands the rest to the pieces after it; when
    those fail the piece tries its next alternative, in the order of a
    backtracking matcher (longest first for a greedy repetition, shortest
    first for a lazy one).  A successful match returns what the groups
    captured and the number of characters consumed. *)

Definition cont (A : Type) := str -> option (A * nat).

Definition advance {A B} (n : nat) (f : A -> B) (r : option (A * nat))
  : option (B * nat) :=
  match r with
  | Some (a, m) => Some (f a, n + m)
  | None => None
  end.

(** End of the pattern. *)
Definition done : cont unit := fun _ => Some (tt, 0).

(** A literal. *)
Definition lit {A} (p : str) (k : cont A) : cont A := fun s =>
  if starts_with p s then advance (length p) (fun a => a) (k (skipn (length p) s))
  else None.

(** One character of a class, captured. *)
Definition one {A} (f : ascii -> bool) (k : cont A) : cont (ascii * A) :=
  fun s =>
    match s with
    | c :: s' => if f c then advance 1 (fun a => (c, a)) (k s') else None
    | [] => None
    end.

(** [$] under [re.M]: the end of the text or the position before a line
    feed. *)
Definition eol {A} (k : cont A) : cont A := fun s =>
  match s with
  | [] => k s
  | c :: _ => if is_nl c then k s else None
  end.

(** [x*], greedy. *)
Fixpoint greedy_star {A} (f : ascii -> bool) (k : cont A) (s : str)
  : option ((str * A) * nat) :=
  match s with
  | c :: s' =>
      if f c then
        match greedy_star f k s' with
        | Some ((g, a), n) => Some ((c :: g, a), S n)
        | None => advance 0 (fun a => ([], a)) (k s)
        end
      else advance 0 (fun a => ([], a)) (k s)
  | [] => advance 0 (fun a => ([], a)) (k s)
  end.

(** [x+], greedy. *)
Definition greedy_plus {A} (f : ascii -> bool) (k : cont A) : cont (str * A) :=
  fun s =>
    match s with
    | c :: s' =>
        if f c then advance 1 (fun '(g, a) => (c :: g, a)) (greedy_star f k s')
        else None
    | [] => None
    end.

(** [x{0,n}], greedy. *)
Fixpoint greedy_upto {A} (n : nat) (f : ascii -> bool) (k : cont A) (s : str)
  : option ((str * A) * nat) :=
  match n with
  | O => advance 0 (fun a => ([], a)) (k s)
  | S n' =>
      match s with
      | c :: s' =>
          if f c then
            match greedy_upto n' f k s' with
            | Some ((g, a), m) => Some ((c :: g, a), S m)
            | None => advance 0 (fun a => ([], a)) (k s)
            end
          else advance 0 (fun a => ([], a)) (k s)
      | [] => advance 0 (fun a => ([], a)) (k s)
      end
  end.

(** [x*?], lazy. *)
Fixpoint lazy_star {A} (f : ascii -> bool) (k : cont A) (s : str)
  : option ((str * A) * nat) :=
  match k s with
  | Some (a, n) => Some (([], a), n)
  | None =>
      match s with
      | c :: s' =>
          if f c then advance 1 (fun '(g, a) => (c :: g, a)) (lazy_star f k s')
          else None
      | [] => None
      end
  end.

(** [x+?], lazy. *)
Definition lazy_plus {A} (f : ascii -> bool) (k : cont A) : cont (str * A) :=
  fun s =>
    match s with
    | c :: s' =>
        if f c then advance 1 (fun '(g, a) => (c :: g, a)) (lazy_star f k s')
        else None
    | [] => None
    end.

(** A pattern tried at a position; [bol] says whether the position starts
    a line, which is what [^] asks under [re.M]. *)
Definition matcher (A : Type) := bool -> str -> option (A * nat).

Definition anywhere {A} (k : cont A) : matcher A := fun _ s => k s.
Definition at_bol {A} (k : cont A) : matcher A :=
  fun bol s => if bol then k s else None.

(** ** Scanning

    [re.search] returns the leftmost match; [re.findall], [re.finditer] and
    [re.sub] go through the leftmost matches that do not overlap.  No
    pattern of the program matches the empty string, so a match always
    consumes at least one character; [skip] counts the characters of the
    current match that are still to be passed. *)

Fixpoint search_from {A} (m : matcher A) (bol : bool) (s : str) : option A :=
  match m bol s with
  | Some (a, _) => Some a
  | None =>
      match s with
      | c :: s' => search_from m (is_nl c) s'
      | [] => None
      end
  end.

Definition re_search {A} (m : matcher A) (s : str) : option A :=
  search_from m true s.

Fixpoint findall_from {A} (m : matcher A) (skip : nat) (bol : bool) (s : str)
  : list A :=
  match s with
  | [] => []
  | c :: s' =>
      match skip with
      | S k => findall_from m k (is_nl c) s'
      | O =>
          match m bol s with
          | Some (a, n) => a :: findall_from m (pred n) (is_nl c) s'
          | None => findall_from m 0 (is_nl c) s'
          end
      end
  end.

Definition re_findall {A} (m : matcher A) (s : str) : list A :=
  findall_from m 0 true s.

Fixpoint sub_from {A} (m : matcher A) (repl : A -> str)
  (skip : nat) (bol : bool) (s : str) : str :=
  match s with
  | [] => []
  | c :: s' =>
      match skip with
      | S k => sub_from m repl k (is_nl c) s'
      | O =>
          match m bol s with
          | Some (a, n) => repl a ++ sub_from m repl (pred n) (is_nl c) s'
          | None => c :: sub_from m repl 0 (is_nl c) s'
          end
      end
  end.

Definition re_sub {A} (m : matcher A) (repl : A -> str) (s : str) : str :=
  sub_from m repl 0 true s.

(** [s.replace(old, new)]: every occurrence, leftmost first, none
    overlapping; an empty [old] matches between any two characters. *)
Definition replace (old new s : str) : str :=
  match old with
  | [] => new ++ flat_map (fun c => c :: new) s
  | _ :: _ =>
      re_sub (anywhere (lit old done)) (fun _ => new) s
  end.

(** The groups of a pattern, read off what its pieces captured. *)
Definition pmap {A B} (f : A -> B) (k : cont A) : cont B :=
  fun s => advance 0 f (k s).

(** ** The environment of a run *)

(** What [os.path.exists], [open] and [read] see: a path names a regular
    file with its content, a directory, or nothing. *)
Inductive node : Type :=
| File (content : str)
| Directory.

Definition filesystem := list (str * node).

Fixpoint fs_lookup (fs : filesystem) (p : str) : option node :=
  match fs with
  | [] => None
  | (q, n) :: fs' => if str_eqb p q then Some n else fs_lookup fs' p
  end.

Definition ends_with_sep (a : str) : bool :=
  match rev a with
  | c :: _ => Ascii.eqb c "/"
  | [] => false
  end.

(** [os.path.join(a, b)] of a POSIX system. *)
Definition path_join (a b : str) : str :=
  if starts_with "/" b then b
  else if (match a with [] => true | _ :: _ => false end) || ends_with_sep a
       then a ++ b
       else a ++ "/" ++ b.

Inductive exn : Type :=
| IsADirectoryError.

(** A run returns, raises, or is still looping when the fuel is spent. *)
Inductive outcome (A : Type) : Type :=
| Returned (a : A)
| Raised (e : exn)
| OutOfFuel.

Arguments Returned {A} a.
Arguments Raised {A} e.
Arguments OutOfFuel {A}.

(** A Python [dict] keeps its keys in insertion order; assigning to a key
    that is present keeps its place. *)
Definition dict := list (str * str).

Fixpoint dict_set (k v : str) (d : dict) : dict :=
  match d with
  | [] => [(k, v)]
  | (k', v') :: d' =>
      if str_eqb k k' then (k', v) :: d' else (k', v') :: dict_set k v d'
  end.

Fixpoint dict_get (k : str) (d : dict) : option str :=
  match d with
  | [] => None
  | (k', v') :: d' => if str_eqb k k' then Some v' else dict_get k d'
  end.

(** The dictionaries of the caller live in a store and are passed by
    reference. *)
Definition heap := list dict.

Fixpoint heap_write (h : heap) (r : nat) (d : dict) : heap :=
  match h, r with
  | [], _ => []
  | _ :: h', O => d :: h'
  | x :: h', S r' => x :: heap_write h' r' d
  end.

Definition heap_read (h : heap) (r : nat) : dict := nth r h [].

(** [vars_dict or {}]: [None] and an empty dictionary are both false, and
    a new dictionary then takes their place. *)
Definition vars_or_fresh (h : heap) (vars_dict : option nat) : nat * heap :=
  match vars_dict with
  | Some r =>
      match nth_error h r with
      | Some (_ :: _) => (r, h)
      | _ => (length h, h ++ [[]])
      end
  | None => (length h, h ++ [[]])
  end.

(** ** Stage 1: [@include] *)

(** [@include (.+)]: the whole match and group 1. *)
Definition include_pattern : matcher (str * str) :=
  anywhere (pmap (fun '(g, _) => ("@include " ++ g, g))
                 (lit "@include " (greedy_plus not_nl done))).

Definition missing_include (include_path : str) : str :=
  "<div class='error'>Missing include: " ++ include_path ++ "</div>".

Definition or_empty (base_dir : option str) : str :=
  match base_dir with
  | Some d => d
  | None => []
  end.

(** One turn of the [while] loop: the condition is false, the body runs
    to its end with a new buffer, or [open] raises. *)
Inductive turn : Type :=
| Stop
| Next (text : str)
| Throw (e : exn).

Definition include_step (fs : filesystem) (base_dir : option str) (text : str)
  : turn :=
  match re_search include_pattern text with
  | None => Stop
  | Some (group0, group1) =>
      let include_path := strip group1 in
      let full_path := path_join (or_empty base_dir) include_path in
      match fs_lookup fs full_path with
      | Some (File included_content) =>
          Next (replace group0 included_content text)
      | Some Directory => Throw IsADirectoryError
      | None => Next (replace group0 (missing_include include_path) text)
      end
  end.

Fixpoint resolve_includes (fuel : nat) (fs : filesystem)
  (base_dir : option str) (text : str) : outcome str :=
  match fuel with
  | O => OutOfFuel
  | S fuel' =>
      match include_step fs base_dir text with
      | Stop => Returned text
      | Next text' => resolve_includes fuel' fs base_dir text'
      | Throw e => Raised e
      end
  end.

(** ** Stage 2: [@title:] *)

(** [@title:\s*(.+)]: group 1 and the white space before it. *)
Definition title_pattern : matcher str :=
  anywhere (pmap (fun '(_, (g, _)) => g)
                 (lit "@title:" (greedy_star is_space (greedy_plus not_nl done)))).

Definition default_title : str := "Documentation".

Definition extract_title (text : str) : str :=
  match re_search title_pattern text with
  | Some g => g
  | None => default_title
  end.

Definition strip_titles (text : str) : str :=
  re_sub title_pattern (fun _ => []) text.

(** ** Stage 3: [@var] *)

(** [@var (\w+)=(.+)]. *)
Definition var_pattern : matcher (str * str) :=
  anywhere (pmap (fun '(name, (value, _)) => (name, value))
                 (lit "@var " (greedy_plus is_word
                    (lit "=" (greedy_plus not_nl done))))).

Definition record_vars (decls : list (str * str)) (d : dict) : dict :=
  fold_left (fun d '(name, value) => dict_set name (strip value) d) decls d.

Definition strip_vars (text : str) : str :=
  re_sub var_pattern (fun _ => []) text.

Definition substitute_vars (d : dict) (text : str) : str :=
  fold_left (fun t '(key, val) => replace ("@" ++ key) val t) d text.

(** ** Stage 4: [@if] *)

(** [@if (\w+)=(.+?)\n(.*?)@endif] under [re.S]. *)
Definition if_pattern : matcher (str * str * str) :=
  anywhere (pmap (fun '(var, (value, (block, _))) => (var, value, block))
                 (lit "@if " (greedy_plus is_word
                    (lit "=" (lazy_plus any_char
                       (lit [nl] (lazy_star any_char
                          (lit "@endif" done)))))))).

Definition truthy (s : option str) : bool :=
  match s with
  | Some (_ :: _) => true
  | _ => false
  end.

Definition opt_eqb (platform : option str) (value : str) : bool :=
  match platform with
  | Some p => str_eqb p value
  | None => false
  end.

Definition if_directive (var value block : str) : str :=
  "@if " ++ var ++ "=" ++ value ++ [nl] ++ block ++ "@endif".

Definition eval_cond (platform : option str) (text : str)
  (cond : str * str * str) : str :=
  let '(var, value, block) := cond in
  if truthy platform && str_eqb var "PLATFORM" && opt_eqb platform value
  then replace (if_directive var value block) block text
  else replace (if_directive var value block) [] text.

Definition eval_conditionals (platform : option str) (text : str) : str :=
  fold_left (eval_cond platform) (re_findall if_pattern text) text.

(** ** Stage 5: [@codeblock] and [@usecode] *)

(** [@codeblock (\w+) (\w+)\n(.*?)@endcodeblock] under [re.S]. *)
Definition block_pattern : matcher (str * str * str) :=
  anywhere (pmap (fun '(lang, (name, (code, _))) => (lang, name, code))
                 (lit "@codeblock " (greedy_plus is_word
                    (lit " " (greedy_plus is_word
                       (lit [nl] (lazy_star any_char
                          (lit "@endcodeblock" done)))))))).

Definition render_codeblock (lang code : str) : str :=
  "<pre><code class=" ++ [dq] ++ lang ++ [dq] ++ ">" ++ strip code
  ++ "</code></pre>".

Definition record_codeblocks (found : list (str * str * str)) : dict :=
  fold_left (fun d '(lang, name, code) =>
               dict_set name (render_codeblock lang code) d) found [].

Definition use_codeblocks (codeblocks : dict) (text : str) : str :=
  fold_left (fun t '(name, snippet) => replace ("@usecode " ++ name) snippet t)
            codeblocks text.

(** ** Stage 6: the table of contents *)

Definition is_hash (c : ascii) : bool := Ascii.eqb c "#".

(** [^(#{1,3}) (.+)$] under [re.M]: the level and the heading text. *)
Definition heading_pattern : matcher (nat * str) :=
  at_bol (pmap (fun '(_, (hs, (g, _))) => (S (length hs), g))
               (one is_hash (greedy_upto 2 is_hash
                  (lit " " (greedy_plus not_nl (eol done)))))).

(** [heading_text.lower().replace(" ", "-")]. *)
Definition slug (heading_text : str) : str :=
  replace " " "-" (lower heading_text).

Definition toc_entries (text : str) : list (nat * str * str) :=
  map (fun '(level, heading_text) => (level, heading_text, slug heading_text))
      (re_findall heading_pattern text).

Definition digit (n : nat) : ascii := ascii_of_nat (48 + n).

(** The decimal numeral of a level; levels are 1, 2 and 3. *)
Definition str_of_level (n : nat) : str := [digit n].

Definition toc_item (e : nat * str * str) : str :=
  let '(level, heading_text, anchor) := e in
  "<li class='level-" ++ str_of_level level ++ "'><a href='#" ++ anchor
  ++ "'>" ++ heading_text ++ "</a></li>".

Definition toc_html (entries : list (nat * str * str)) : str :=
  fold_left (fun html e => html ++ toc_item e) entries
            "<nav class='toc'><h3>Table of Contents</h3><ul>"
  ++ "</ul></nav>".

Definition insert_toc (text : str) : str :=
  replace "@toc" (toc_html (toc_entries text)) text.

(** ** Stage 7: the syntax replacements *)

Definition quoted (s : str) : str := [dq] ++ s ++ [dq].

(** [^### (.+)$], [^## (.+)$] and [^# (.+)$] under [re.M]. *)
Definition hashes_pattern (marks : str) : matcher str :=
  at_bol (pmap (fun '(g, _) => g)
               (lit (marks ++ " ") (greedy_plus not_nl (eol done)))).

Definition heading_tag (n : nat) (g : str) : str :=
  "<h" ++ str_of_level n ++ " id=" ++ quoted (slug g) ++ ">" ++ g
  ++ "</h" ++ str_of_level n ++ ">".

Definition headings (text : str) : str :=
  let text := re_sub (hashes_pattern "###") (heading_tag 3) text in
  let text := re_sub (hashes_pattern "##") (heading_tag 2) text in
  re_sub (hashes_pattern "#") (heading_tag 1) text.

(** [^@command: (.+)$] under [re.M]. *)
Definition command_pattern : matcher str :=
  at_bol (pmap (fun '(g, _) => g)
               (lit "@command: " (greedy_plus not_nl (eol done)))).

Definition command_replacer (cmd : str) : str :=
  let cmd := replace ">" "&gt;" (replace "<" "&lt;" (replace "&" "&amp;" cmd)) in
  "<pre><code class=" ++ quoted "command" ++ ">" ++ cmd ++ "</code></pre>".

Definition is_backtick (c : ascii) : bool := Ascii.eqb c "`".
Definition not_backtick (c : ascii) : bool := negb (is_backtick c).

(** Three backticks, a group [\w*], a line feed, a group [.*?] and three
    backticks, under [re.S]. *)
Definition fence_pattern : matcher (str * str) :=
  anywhere (pmap (fun '(lang, (body, _)) => (lang, body))
                 (lit "```" (greedy_star is_word
                    (lit [nl] (lazy_star any_char (lit "```" done)))))).

Definition fence_html (m : str * str) : str :=
  let '(lang, body) := m in
  "<pre><code class=" ++ quoted lang ++ ">" ++ body ++ "</code></pre>".

(** [`([^`]+)`]. *)
Definition inline_code_pattern : matcher str :=
  anywhere (pmap (fun '(g, _) => g)
                 (lit "`" (greedy_plus not_backtick (lit "`" done)))).

(** [\*\*(.+?)\*\*] and [\*(.+?)\*]. *)
Definition emphasis_pattern (mark : str) : matcher str :=
  anywhere (pmap (fun '(g, _) => g)
                 (lit mark (lazy_plus not_nl (lit mark done)))).

Definition tagged (tag : str) (g : str) : str :=
  "<" ++ tag ++ ">" ++ g ++ "</" ++ tag ++ ">".

(** [^\-\-\-$] under [re.M]. *)
Definition rule_pattern : matcher unit :=
  at_bol (lit "---" (eol done)).

Definition is_mark (c : ascii) : bool :=
  Ascii.eqb c " " || Ascii.eqb c "x" || Ascii.eqb c "X".

(** [^\- \[( |x|X)\] (.+)$] under [re.M]. *)
Definition tasklist_pattern : matcher (ascii * str) :=
  at_bol (pmap (fun '(mark, (item, _)) => (mark, item))
               (lit "- [" (one is_mark
                  (lit "] " (greedy_plus not_nl (eol done)))))).

Definition tasklist_replacer (m : ascii * str) : str :=
  let '(mark, item) := m in
  let checked := Ascii.eqb (lower_char mark) "x" in
  let checkbox :=
    "<input type=" ++ quoted "checkbox" ++ " disabled"
    ++ (if checked then " checked" else []) ++ ">" in
  "<li class=" ++ quoted "task-item" ++ ">" ++ checkbox ++ " " ++ item
  ++ "</li>".

(** [^\- (.+)$] under [re.M]. *)
Definition item_pattern : matcher str :=
  at_bol (pmap (fun '(g, _) => g)
               (lit "- " (greedy_plus not_nl (eol done)))).

(** [(<li>.*?</li>)] under [re.S]: group 1 is the whole match. *)
Definition li_pattern : matcher str :=
  anywhere (pmap (fun '(g, _) => "<li>" ++ g ++ "</li>")
                 (lit "<li>" (lazy_star any_char (lit "</li>" done)))).

Definition lists (text : str) : str :=
  let text := re_sub tasklist_pattern tasklist_replacer text in
  let text := re_sub item_pattern (tagged "li") text in
  re_sub li_pattern (tagged "ul") text.

(** [\[(.*?)\]\((.*?)\)]. *)
Definition link_pattern : matcher (str * str) :=
  anywhere (pmap (fun '(label, (url, _)) => (label, url))
                 (lit "[" (lazy_star not_nl
                    (lit "](" (lazy_star not_nl (lit ")" done)))))).

Definition link_html (m : str * str) : str :=
  let '(label, url) := m in
  "<a href=" ++ quoted url ++ ">" ++ label ++ "</a>".

(** [@image: (.+?) "(.*?)"]. *)
Definition image_pattern : matcher (str * str) :=
  anywhere (pmap (fun '(src, (alt, _)) => (src, alt))
                 (lit "@image: " (lazy_plus not_nl
                    (lit (" " ++ [dq]) (lazy_star not_nl (lit [dq] done)))))).

Definition image_html (m : str * str) : str :=
  let '(src, alt) := m in
  "<img src=" ++ quoted src ++ " alt=" ++ quoted alt ++ ">".

(** [@video: (.+)], [@note: (.+)] and the like. *)
Definition rest_of_line_pattern (keyword : str) : matcher str :=
  anywhere (pmap (fun '(g, _) => g)
                 (lit (keyword ++ " ") (greedy_plus not_nl done))).

Definition video_html (src : str) : str :=
  "<iframe src=" ++ quoted src ++ " frameborder=" ++ quoted "0"
  ++ " allowfullscreen></iframe>".

Definition callout (class prefix : str) (g : str) : str :=
  "<div class=" ++ quoted class ++ ">" ++ prefix ++ g ++ "</div>".

Definition callouts (text : str) : str :=
  let text := re_sub (rest_of_line_pattern "@note:") (callout "note" []) text in
  let text :=
    re_sub (rest_of_line_pattern "@warning:") (callout "warning" []) text in
  let text := re_sub (rest_of_line_pattern "@info:") (callout "info" []) text in
  let text := re_sub (rest_of_line_pattern "@tip:") (callout "tip" []) text in
  re_sub (rest_of_line_pattern "@todo:") (callout "todo" "TODO: ") text.

(** [@alert (\w+)\n(.*?)@endalert] under [re.S]. *)
Definition alert_pattern : matcher (str * str) :=
  anywhere (pmap (fun '(ty, (content, _)) => (ty, content))
                 (lit "@alert " (greedy_plus is_word
                    (lit [nl] (lazy_star any_char (lit "@endalert" done)))))).

Definition allowed : list str := ["info" : str; "warning" : str; "error" : str; "success" : str].

Definition alert_replacer (m : str * str) : str :=
  let '(group1, group2) := m in
  let alert_type := strip group1 in
  let content := strip group2 in
  let css_class :=
    if existsb (str_eqb alert_type) allowed then alert_type else "info" in
  "<div class=" ++ quoted ("alert " ++ css_class) ++ ">" ++ content ++ "</div>".

Definition alerts (text : str) : str :=
  re_sub alert_pattern alert_replacer text.

(** [@badge: (\w+)\|(\w+)\|(\w+)]. *)
Definition badge_pattern : matcher (str * str * str) :=
  anywhere (pmap (fun '(a, (b, (c, _))) => (a, b, c))
                 (lit "@badge: " (greedy_plus is_word
                    (lit "|" (greedy_plus is_word
                       (lit "|" (greedy_plus is_word done))))))).

Definition badge_html (m : str * str * str) : str :=
  let '(label, value, kind) := m in
  "<span class=" ++ quoted ("badge " ++ kind) ++ ">" ++ label ++ ": " ++ value
  ++ "</span>".

(** [@table:\s*(.*?)@endtable] under [re.S]. *)
Definition table_pattern : matcher str :=
  anywhere (pmap (fun '(_, (g, _)) => g)
                 (lit "@table:" (greedy_star is_space
                    (lazy_star any_char (lit "@endtable" done))))).

(** The line boundaries of [str.splitlines]. *)
Definition is_linebreak (c : ascii) : bool :=
  in_range 10 13 c || in_range 28 30 c || (code c =? 133).

Definition is_cr (c : ascii) : bool := code c =? 13.

Fixpoint splitlines_from (cur : str) (s : str) : list str :=
  match s with
  | [] => match cur with [] => [] | _ :: _ => [rev cur] end
  | c :: s' =>
      if is_linebreak c then
        rev cur ::
        match s' with
        | d :: s'' =>
            if is_cr c && is_nl d then splitlines_from [] s''
            else splitlines_from [] s'
        | [] => []
        end
      else splitlines_from (c :: cur) s'
  end.

Definition splitlines (s : str) : list str := splitlines_from [] s.

(** [row.split('|')]. *)
Fixpoint split_from (sep : ascii) (cur : str) (s : str) : list str :=
  match s with
  | [] => [rev cur]
  | c :: s' =>
      if Ascii.eqb c sep then rev cur :: split_from sep [] s'
      else split_from sep (c :: cur) s'
  end.

Definition split (sep : ascii) (s : str) : list str := split_from sep [] s.

Definition table_row (cell : str) (row : str) : str :=
  "<tr>" ++ flat_map (fun c => tagged cell (strip c)) (split "|" row) ++ "</tr>".

Definition table_replacer (group1 : str) : str :=
  match splitlines (strip group1) with
  | [] => "<table>" ++ "</table>"
  | header :: rows =>
      "<table>" ++ table_row "th" header ++ flat_map (table_row "td") rows
      ++ "</table>"
  end.

(** ** Stage 8: paragraphs *)

(** [\n{2,}]. *)
Definition blank_pattern : matcher unit :=
  anywhere (pmap (fun _ => tt) (one is_nl (greedy_plus is_nl done))).

Definition paragraphs (text : str) : str :=
  "<p>" ++ re_sub blank_pattern (fun _ => "</p><p>") text ++ "</p>".

(** ** The pipeline *)

(** Everything after the include loop and the title; [d] is the variable
    table once the declarations of the document are recorded. *)
Definition render (d : dict) (platform : option str) (text : str) : str :=
  let text := substitute_vars d text in
  let text := eval_conditionals platform text in
  let codeblocks := record_codeblocks (re_findall block_pattern text) in
  let text := re_sub block_pattern (fun _ => []) text in
  let text := use_codeblocks codeblocks text in
  let text := insert_toc text in
  let text := headings text in
  let text := re_sub command_pattern command_replacer text in
  let text := re_sub fence_pattern fence_html text in
  let text := re_sub inline_code_pattern (tagged "code") text in
  let text := re_sub (emphasis_pattern "**") (tagged "strong") text in
  let text := re_sub (emphasis_pattern "*") (tagged "em") text in
  let text := re_sub rule_pattern (fun _ => "<hr>") text in
  let text := lists text in
  let text := re_sub link_pattern link_html text in
  let text := re_sub image_pattern image_html text in
  let text := re_sub (rest_of_line_pattern "@video:") video_html text in
  let text := callouts text in
  let text := alerts text in
  let text := re_sub badge_pattern badge_html text in
  let text := re_sub table_pattern table_replacer text in
  paragraphs text.

(** [parse_ldoc(text, base_dir, vars_dict, platform)]: the fragment, the
    title, and the store as the call leaves it. *)
Definition parse_ldoc (fuel : nat) (fs : filesystem) (h : heap)
  (text : str) (base_dir : option str) (vars_dict : option nat)
  (platform : option str) : outcome (str * str * heap) :=
  let '(r, h) := vars_or_fresh h vars_dict in
  match resolve_includes fuel fs base_dir text with
  | OutOfFuel => OutOfFuel
  | Raised e => Raised e
  | Returned text =>
      let title := extract_title text in
      let text := strip_titles text in
      let d := record_vars (re_findall var_pattern text) (heap_read h r) in
      let h := heap_write h r d in
      let text := strip_vars text in
      Returned (render d platform text, title, h)
  end.

(** ** The build commands *)

Definition TEMPLATE_PATH : str := "templates/base.html".

Definition is_sep (c : ascii) : bool := Ascii.eqb c "/".
Definition not_sep (c : ascii) : bool := negb (is_sep c).

(** [head.rstrip('/')]. *)
Definition rstrip_sep (head : str) : str := rev (snd (span is_sep (rev head))).

(** [os.path.dirname(p)] of a POSIX system: the path up to its last
    separator, without the separators at its end unless it holds nothing
    else. *)
Definition dirname (p : str) : str :=
  let head := rev (snd (span not_sep (rev p))) in
  match head with
  | [] => head
  | _ :: _ => if forallb is_sep head then head else rstrip_sep head
  end.

(** The exceptions of [open]; no path is kept. *)
Inductive os_error : Type :=
| FileNotFoundError
| OpenedDirectory
| NotADirectoryError.

Definition os_error_of (e : exn) : os_error :=
  match e with
  | IsADirectoryError => OpenedDirectory
  end.

(** [open(path).read()]. *)
Definition read_file (fs : filesystem) (path : str) : str + os_error :=
  match fs_lookup fs path with
  | Some (File content) => inl content
  | Some Directory => inr OpenedDirectory
  | None => inr FileNotFoundError
  end.

(** [build_html(content, title)]. *)
Definition build_html (fs : filesystem) (content title : str) : str + os_error :=
  match read_file fs TEMPLATE_PATH with
  | inl template =>
      inl (replace "{content}" content (replace "{title}" title template))
  | inr e => inr e
  end.

(** [open(path, "w")], which creates the file or empties it.  The
    directory the path lies in must exist: it is looked up under the name
    [os.path.dirname] gives once the separators at the end of the path are
    dropped, the current directory (no name) and the root being there.  The
    path itself must not name a directory nor end with a separator.  The
    answer is the exception raised, if any. *)
Definition open_for_writing (fs : filesystem) (path : str) : option os_error :=
  match path with
  | [] => Some FileNotFoundError
  | _ :: _ =>
      let parent := dirname (rstrip_sep path) in
      match (if forallb is_sep parent then Some Directory
             else fs_lookup fs parent) with
      | None => Some FileNotFoundError
      | Some (File _) => Some NotADirectoryError
      | Some Directory =>
          if ends_with_sep path then Some OpenedDirectory
          else match fs_lookup fs path with
               | Some Directory => Some OpenedDirectory
               | _ => None
               end
      end
  end.

(** A build ends with the page it writes and the path it opens for that,
    raises, or is still in the include loop when the fuel is spent. *)
Inductive build : Type :=
| Writes (output_path html : str)
| Fails (e : os_error)
| Loops.

(** [build_file(input_path, output_path)]: the input is read and parsed
    and the template filled before the output is opened; the message
    printed after [f.write] is left out. *)
Definition build_file (fuel : nat) (fs : filesystem) (input_path output_path : str)
  : build :=
  let base_dir := dirname input_path in
  match read_file fs input_path with
  | inr e => Fails e
  | inl text =>
      match parse_ldoc fuel fs [] text (Some base_dir) None None with
      | OutOfFuel => Loops
      | Raised e => Fails (os_error_of e)
      | Returned (parsed, title, _) =>
          match build_html fs parsed title with
          | inl html =>
              match open_for_writing fs output_path with
              | None => Writes output_path html
              | Some e => Fails e
              end
          | inr e => Fails e
          end
      end
  end.

(** ** Vocabulary of the statements *)

(** [p] occurs in [s] at index [i]. *)
Definition occurs_at (p s : str) (i : nat) : bool := starts_with p (skipn i s).

Definition absent (p s : str) : Prop := forall i, occurs_at p s i = false.

(** [r] is empty or starts with a character outside the class [f]. *)
Definition stops (f : ascii -> bool) (r : str) : Prop :=
  match r with
  | c :: _ => f c = false
  | [] => True
  end.

(** The continuation fails on every proper suffix of [g] followed by [r]. *)
Definition fails_inside {A} (k : cont A) (g r : str) : Prop :=
  forall i, i < length g -> k (skipn i g ++ r) = None.

(** Whether the position after [u] starts a line. *)
Fixpoint bol_after (bol : bool) (u : str) : bool :=
  match u with
  | [] => bol
  | c :: u' => bol_after (is_nl c) u'
  end.

(** No match starts inside [pre]. *)
Definition no_match_in {A} (m : matcher A) (bol : bool) (pre rest : str) : Prop :=
  forall i, i < length pre ->
    m (bol_after bol (firstn i pre)) (skipn i pre ++ rest) = None.

Definition not_at (c : ascii) : bool := negb (Ascii.eqb c "@").

(** The block [@alert ty], a line feed, the content and [@endalert]. *)
Definition alert_block (ty content : str) : str :=
  "@alert " ++ ty ++ [nl] ++ content ++ "@endalert".

(** The patterns of the include loop and of the title, before [anywhere]. *)
Definition include_cont : cont (str * str) :=
  pmap (fun '(g, _) => ("@include " ++ g, g))
       (lit "@include " (greedy_plus not_nl done)).

Definition title_cont : cont str :=
  pmap (fun '(_, (g, _)) => g)
       (lit "@title:" (greedy_star is_space (greedy_plus not_nl done))).

Definition strip_all (s : str) : str :=
  re_sub (anywhere title_cont) (fun _ => []) s.

(** [re.sub] and [re.findall] are two readings of one scan. *)
Fixpoint gather_from {A X} (m : matcher A) (h : A -> list X) (g : ascii -> list X)
  (skip : nat) (bol : bool) (s : str) : list X :=
  match s with
  | [] => []
  | c :: s' =>
      match skip with
      | S k => gather_from m h g k (is_nl c) s'
      | O =>
          match m bol s with
          | Some (a, n) => h a ++ gather_from m h g (pred n) (is_nl c) s'
          | None => g c ++ gather_from m h g 0 (is_nl c) s'
          end
      end
  end.

(** A pattern that never looks beyond the end of the line. *)
Definition line_local {A} (m : matcher A) : Prop :=
  forall b l r, forallb not_nl l = true ->
    m b (l ++ nl :: r) = m b l
    /\ forall a n, m b l = Some (a, n) -> 1 <= n <= length l.

Definition cont_local {A} (k : cont A) : Prop :=
  forall l r, forallb not_nl l = true ->
    k (l ++ nl :: r) = k l /\ forall a n, k l = Some (a, n) -> n <= length l.

Definition positive {A} (k : cont A) : Prop :=
  forall s a n, k s = Some (a, n) -> 1 <= n.

(** Empty, or closed by a line feed. *)
Definition ends_line (p : str) : Prop := p = [] \/ exists p', p = p' ++ [nl].

(** The lines of a text, as [text.split] gives them at line feeds. *)
Fixpoint lines_of (s : str) : list str :=
  match s with
  | [] => [[]]
  | c :: s' =>
      if is_nl c then [] :: lines_of s'
      else match lines_of s' with
           | l :: ls => (c :: l) :: ls
           | [] => [[c]]
           end
  end.

Fixpoint join_lines (ls : list str) : str :=
  match ls with
  | [] => []
  | [l] => l
  | l :: ls' => l ++ nl :: join_lines ls'
  end.

(** *** The include graph *)

Definition inc : str := "@include ".

(** The paths the directives of a text resolve to. *)
Definition includes (base_dir : option str) (text : str) : list str :=
  map (fun '(_, group1) => path_join (or_empty base_dir) (strip group1))
      (re_findall include_pattern text).

(** [@include ] occurs in the line at its start only. *)
Definition tidy_line (l : str) : bool :=
  forallb (fun i => negb (occurs_at inc l (S i))) (seq 0 (length l)).

Definition plain_line (l : str) : bool :=
  negb (occurs_at inc l 0) && tidy_line l.

(** A line that is a directive: [@include ] and one character at least. *)
Definition is_directive (l : str) : bool :=
  starts_with inc l && negb (length l <=? 9).

Definition contents (fs : filesystem) : list str :=
  flat_map (fun '(_, n) => match n with File c => [c] | Directory => [] end) fs.

(** The lines of the text and of every file. *)
Definition known_lines (fs : filesystem) (text : str) : list str :=
  flat_map lines_of (text :: contents fs).

(** No directive is a proper prefix of a line. *)
Definition prefix_free (ls : list str) : bool :=
  forallb (fun d => negb (is_directive d)
                    || forallb (fun l => negb (starts_with d l) || str_eqb l d) ls)
          ls.

Definition no_directory (fs : filesystem) : bool :=
  forallb (fun '(_, n) => match n with File _ => true | Directory => false end) fs.

(** Directives stand alone on their lines, in the text and in every file,
    none is a proper prefix of another line, and no path is a directory. *)
Definition tidy_world (fs : filesystem) (text : str) : bool :=
  forallb tidy_line (known_lines fs text)
  && prefix_free (known_lines fs text)
  && no_directory fs.

(** The include graph is acyclic: every file includes files of lower rank
    only. *)
Definition ranked (fs : filesystem) (base_dir : option str) (rank : str -> nat)
  : bool :=
  forallb (fun '(p, n) =>
             match n with
             | File c => forallb (fun q => rank q <? rank p) (includes base_dir c)
             | Directory => true
             end) fs.

Definition mem (q : str) (paths : list str) : bool := existsb (str_eqb q) paths.

(** Every file of the set includes a file of the set: a file that includes
    itself, a cycle, or files that lead to one. *)
Definition trapped (fs : filesystem) (base_dir : option str) (paths : list str)
  : bool :=
  forallb (fun p =>
             match fs_lookup fs p with
             | Some (File c) => existsb (fun q => mem q paths) (includes base_dir c)
             | _ => false
             end) paths.

Definition line_ok (known : list str) (l : str) : Prop :=
  In l known \/ absent inc l.

Definition inv (known : list str) (t : str) : Prop :=
  Forall (line_ok known) (lines_of t).

Definition swap (d new x : str) : str := if str_eqb x d then new else x.

(** The path a directive line resolves to. *)
Definition target (base_dir : option str) (d : str) : str :=
  path_join (or_empty base_dir) (strip (skipn 9 d)).

Definition caught (base_dir : option str) (paths : list str) (t : str) : Prop :=
  exists q, In q (includes base_dir t) /\ mem q paths = true.

(** The directives of a text, each with the weight of its file. *)
Definition cost (base_dir : option str) (w : str -> nat) (t : str) : nat :=
  list_sum (map (fun q => S (w q)) (includes base_dir t)).

(** The number of directives a file expands to, down to depth [n]. *)
Fixpoint weight (fs : filesystem) (base_dir : option str) (n : nat) (p : str)
  : nat :=
  match n with
  | O => 0
  | S n' =>
      match fs_lookup fs p with
      | Some (File c) => cost base_dir (weight fs base_dir n') c
      | _ => 0
      end
  end.

Definition full_weight (fs : filesystem) (base_dir : option str)
  (rank : str -> nat) (p : str) : nat :=
  weight fs base_dir (S (rank p)) p.

(** Checks of the side conditions on a given text. *)
Definition absent_below (p s : str) (n : nat) : bool :=
  forallb (fun i => negb (occurs_at p s i)) (seq 0 n).

Definition only_at (p s : str) (n : nat) : bool :=
  forallb (fun i => (i =? n) || negb (occurs_at p s i)) (seq 0 (length s)).

(** The names that enter a table holding the keys [seen], in the order of
    their first declaration. *)
Fixpoint first_seen (names seen : list str) : list str :=
  match names with
  | [] => []
  | n :: names' =>
      if mem n seen then first_seen names' seen
      else n :: first_seen names' (seen ++ [n])
  end.

(** *** A part of the file system *)

Definition same_node (x y : option node) : bool :=
  match x, y with
  | None, None => true
  | Some Directory, Some Directory => true
  | Some (File c), Some (File c') => str_eqb c c'
  | _, _ => false
  end.

(** The paths that the text and the files of [part] include. *)
Definition reached (part : filesystem) (base_dir : option str) (text : str)
  : list str :=
  flat_map (includes base_dir) (text :: contents part).

(** The file system answers as [part] does on every path that the text or
    a file of [part] includes: [part] holds the files that can be reached
    from the text, and what else the file system holds plays no part. *)
Definition agrees (fs part : filesystem) (base_dir : option str) (text : str)
  : bool :=
  forallb (fun q => same_node (fs_lookup fs q) (fs_lookup part q))
          (reached part base_dir text).

(** What the loop leaves of a line when no included path exists. *)
Definition marked (l : str) : str :=
  if is_directive l
  then "<div class='error'>Missing include: " ++ strip (skipn 9 l) ++ "</div>"
  else l.

(** *** Documents of several conditional blocks *)

(** Empty, or closed by a line feed. *)
Definition closed_line (p : str) : bool :=
  match rev p with
  | [] => true
  | c :: _ => is_nl c
  end.

(** A block [(VAR, VALUE, body)] with the text that stands before it. *)
Definition cond_block : Type := str * (str * str * str).

(** The text, a directive for each block, and the text after the last. *)
Definition document (blocks : list cond_block) (last : str) : str :=
  fold_right (fun '(s, (var, value, body)) rest =>
                s ++ if_directive var value body ++ rest) last blocks.

(** The platform is given, VAR is [PLATFORM] and the platform is VALUE. *)
Definition chosen (platform : option str) (var value : str) : bool :=
  match platform with
  | Some p => str_eqb p value && str_eqb var "PLATFORM"
  | None => false
  end.

(** The same text with each directive replaced by its body or by nothing. *)
Definition evaluated (platform : option str) (blocks : list cond_block)
  (last : str) : str :=
  fold_right (fun '(s, (var, value, body)) rest =>
                s ++ (if chosen platform var value then body else []) ++ rest)
             last blocks.

(** The directive starts a line, VAR is a word, VALUE is the rest of the
    open line, the body is made of whole lines and holds no [@endif], and
    [@if ] occurs at the start of the directive only. *)
Definition well_formed (b : cond_block) : bool :=
  let '(s, (var, value, body)) := b in
  absent_below "@if " s (length s) && closed_line s
  && negb (str_eqb var []) && forallb is_word var
  && negb (str_eqb value []) && forallb not_nl value
  && absent_below "@endif" (body ++ "@endif") (length body)
  && closed_line body
  && only_at "@if " (if_directive var value body) 0.

(** What the loop makes of a line: a directive becomes the expansion of
    its file or, when its path does not exist, the marker of the path;
    any other line is kept. *)
Definition expanded_line (deep : str -> str) (fs : filesystem)
  (base_dir : option str) (l : str) : str :=
  if is_directive l then
    match fs_lookup fs (target base_dir l) with
    | Some (File c) => deep c
    | Some Directory => l
    | None =>
        "<div class='error'>Missing include: " ++ strip (skipn 9 l) ++ "</div>"
    end
  else l.

(** The text with its directives expanded, files in files down to depth
    [n]. *)
Fixpoint expanded (n : nat) (fs : filesystem) (base_dir : option str)
  (text : str) : str :=
  match n with
  | O => text
  | S n' =>
      join_lines (map (expanded_line (expanded n' fs base_dir) fs base_dir)
                      (lines_of text))
  end.

(** *** Documents without markup *)

Definition differs (c x : ascii) : bool := negb (Ascii.eqb c x).

(** A character that opens no directive, code span, emphasis or link. *)
Definition inert_char (c : ascii) : bool :=
  differs "@" c && differs "`" c && differs "*" c && differs "[" c.

(** A line that starts with neither [#] nor [-]. *)
Definition inert_line (l : str) : bool :=
  negb (starts_with "#" l) && negb (starts_with "-" l).

(** No markup: no character that opens an inline construct, no line that
    opens a heading, a rule or a list item, no [<li>] tag and no blank
    line. *)
Definition plain_text (text : str) : Prop :=
  forallb inert_char text = true
  /\ forallb inert_line (lines_of text) = true
  /\ absent "<li>" text
  /\ absent [nl; nl] text.

(** No two line feeds in a row. *)
Fixpoint no_blank (s : str) : bool :=
  match s with
  | c :: s' =>
      match s' with
      | d :: _ => negb (is_nl c && is_nl d) && no_blank s'
      | [] => true
      end
  | [] => true
  end.

(** [\n{2,}] before [anywhere]. *)
Definition blank_cont : cont unit :=
  pmap (fun _ => tt) (one is_nl (greedy_plus is_nl done)).

(** One character of a command, escaped for HTML. *)
Definition escape_char (c : ascii) : str :=
  if Ascii.eqb c "&" then "&amp;"
  else if Ascii.eqb c "<" then "&lt;"
  else if Ascii.eqb c ">" then "&gt;"
  else [c].

(** One character of an anchor. *)
Definition slug_char (c : ascii) : ascii :=
  if Ascii.eqb c " " then "-"%char else lower_char c.

(** The number of positions at which [@include ] occurs. *)
Fixpoint count_inc (s : str) : nat :=
  match s with
  | [] => 0
  | c :: s' => (if starts_with inc s then 1 else 0) + count_inc s'
  end.

(** [@var (\w+)=(.+)] before [anywhere]. *)
Definition var_cont : cont (str * str) :=
  pmap (fun '(name, (value, _)) => (name, value))
       (lit "@var " (greedy_plus is_word (lit "=" (greedy_plus not_nl done)))).

(** The block [@codeblock lang name], a line feed, the code and
    [@endcodeblock]. *)
Definition codeblock_decl (lang name code : str) : str :=
  "@codeblock " ++ lang ++ " " ++ name ++ [nl] ++ code ++ "@endcodeblock".

Definition block_cont : cont (str * str * str) :=
  pmap (fun '(lang, (name, (code, _))) => (lang, name, code))
       (lit "@codeblock " (greedy_plus is_word
          (lit " " (greedy_plus is_word
             (lit [nl] (lazy_star any_char (lit "@endcodeblock" done))))))).

(** The cells of a row, written with [|] between them. *)
Fixpoint join_cells (cells : list str) : str :=
  match cells with
  | [] => []
  | [c] => c
  | c :: cells' => c ++ "|" ++ join_cells cells'
  end.

(** A cell holds no [|] and no line boundary. *)
Definition cell_char (c : ascii) : bool := differs "|" c && negb (is_linebreak c).

Definition row_ok (cells : list str) : bool :=
  negb (match cells with [] => true | _ :: _ => false end)
  && forallb (forallb cell_char) cells.

(** A table row of the page: each cell trimmed, in an element [tag]. *)
Definition cells_row (tag : str) (cells : list str) : str :=
  "<tr>" ++ flat_map (fun c => tagged tag (strip c)) cells ++ "</tr>".

(** [@table:\s*(.*?)@endtable] before [anywhere]. *)
Definition table_cont : cont str :=
  pmap (fun '(_, (g, _)) => g)
       (lit "@table:" (greedy_star is_space
          (lazy_star any_char (lit "@endtable" done)))).

(** The block [@table:], white space, the rows and [@endtable]. *)
Definition table_block (ws g : str) : str :=
  "@table:" ++ ws ++ g ++ "@endtable".

(** The pattern of [@video:], [@note:] and the like, before [anywhere]. *)
Definition rest_of_line_cont (keyword : str) : cont str :=
  pmap (fun '(g, _) => g) (lit (keyword ++ " ") (greedy_plus not_nl done)).

Definition empty_toc : str :=
  "<nav class='toc'><h3>Table of Contents</h3><ul></ul></nav>".

(** A page template with one place for the title and one for the
    content. *)
Definition template_of (a b c : str) : str :=
  a ++ "{title}" ++ b ++ "{content}" ++ c.

(** The callouts: the class of each and the text put before its body. *)
Definition callout_kinds : list (str * str) :=
  [("note" : str, [] : str); ("warning" : str, [] : str); ("info" : str, [] : str);
   ("tip" : str, [] : str); ("todo" : str, "TODO: " : str)].

(** An entry of a list: an item, or a task with its mark. *)
Inductive entry : Type :=
| Item (item : str)
| Task (mark : ascii) (item : str).

(** The line that writes an entry. *)
Definition written (e : entry) : str :=
  match e with
  | Item item => "- " ++ item
  | Task mark item => "- [" ++ [mark] ++ "] " ++ item
  end.

(** What the page holds for it. *)
Definition rendered (e : entry) : str :=
  match e with
  | Item item => "<ul><li>" ++ item ++ "</li></ul>"
  | Task mark item =>
      "<li class=" ++ quoted "task-item" ++ "><input type=" ++ quoted "checkbox"
      ++ " disabled" ++ (if Ascii.eqb mark " " then [] else " checked") ++ "> "
      ++ item ++ "</li>"
  end.

Definition looks_like_task (item : str) : bool :=
  starts_with "[ ] " item || starts_with "[x] " item || starts_with "[X] " item.

Definition item_char (c : ascii) : bool := not_nl c && differs "<" c.

(** The text of an entry is not empty and holds no line feed and no [<];
    an item does not start like a task, and the mark of a task is a
    blank, [x] or [X]. *)
Definition entry_ok (e : entry) : bool :=
  match e with
  | Item item =>
      negb (match item with [] => true | _ :: _ => false end)
      && forallb item_char item && negb (looks_like_task item)
  | Task mark item =>
      is_mark mark && negb (match item with [] => true | _ :: _ => false end)
      && forallb item_char item
  end.

(** The patterns of the list rules, before [at_bol] and [anywhere]. *)
Definition task_cont : cont (ascii * str) :=
  pmap (fun '(mark, (item, _)) => (mark, item))
       (lit "- [" (one is_mark (lit "] " (greedy_plus not_nl (eol done))))).

Definition item_cont : cont str :=
  pmap (fun '(g, _) => g) (lit "- " (greedy_plus not_nl (eol done))).

Definition li_cont : cont str :=
  pmap (fun '(g, _) => "<li>" ++ g ++ "</li>")
       (lit "<li>" (lazy_star any_char (lit "</li>" done))).

(** An entry after the first pass and after the second one. *)
Definition after_tasks (e : entry) : str :=
  match e with
  | Item item => "- " ++ item
  | Task _ _ => rendered e
  end.

Definition after_items (e : entry) : str :=
  match e with
  | Item item => "<li>" ++ item ++ "</li>"
  | Task _ _ => rendered e
  end.

(** A rule for the lines that start with [p] and go on: what follows [p]
    is rewritten by [r]; any other line is kept. *)
Definition line_rule (p : str) (r : str -> str) (l : str) : str :=
  if starts_with p l then
    match skipn (length p) l with
    | [] => l
    | _ :: _ => r (skipn (length p) l)
    end
  else l.

(** The three heading rules on one line, in the order of the passes. *)
Definition heading_line (l : str) : str :=
  line_rule "# " (heading_tag 1)
    (line_rule "## " (heading_tag 2) (line_rule "### " (heading_tag 3) l)).

Definition rule_line (l : str) : str :=
  if str_eqb l "---" then "<hr>" else l.

(** The two emphasis rules, in the order of the passes. *)
Definition emphasis (text : str) : str :=
  re_sub (emphasis_pattern "*") (tagged "em")
    (re_sub (emphasis_pattern "**") (tagged "strong") text).

(** A link [[label](url)] and a fenced block, as they are written. *)
Definition link_text (label url : str) : str :=
  "[" ++ label ++ "](" ++ url ++ ")".

Definition fence_text (lang body : str) : str :=
  "```" ++ lang ++ [nl] ++ body ++ "```".

Definition link_cont : cont (str * str) :=
  pmap (fun '(label, (url, _)) => (label, url))
       (lit "[" (lazy_star not_nl (lit "](" (lazy_star not_nl (lit ")" done))))).

Definition fence_cont : cont (str * str) :=
  pmap (fun '(lang, (body, _)) => (lang, body))
       (lit "```" (greedy_star is_word
          (lit [nl] (lazy_star any_char (lit "```" done))))).

(** The path can be opened for writing: it names no directory, and the
    directory it lies in is the current one, the root, or a directory of
    the file system. *)
Definition can_open (fs : filesystem) (path : str) : Prop :=
  path <> [] /\ ends_with_sep path = false
  /\ fs_lookup fs path <> Some Directory
  /\ (forallb is_sep (dirname path) = true
      \/ fs_lookup fs (dirname path) = Some Directory).

(** * Proofs *)

(** ** Strings *)

Lemma ascii_eqb_eq (a b : ascii) : Ascii.eqb a b = true <-> a = b.
Proof. apply Ascii.eqb_eq. Qed.

Lemma str_eqb_eq (a b : str) : str_eqb a b = true <-> a = b.
Proof.
  revert b; induction a as [|x a IH]; intros [|y b]; simpl; split; intro H;
    try reflexivity; try discriminate.
  - apply andb_true_iff in H as [H1 H2].
    apply Ascii.eqb_eq in H1. apply IH in H2. congruence.
  - injection H as -> ->. rewrite Ascii.eqb_refl. simpl. now apply IH.
Qed.

Lemma str_eqb_refl (a : str) : str_eqb a a = true.
Proof. now apply str_eqb_eq. Qed.

Lemma str_eqb_neq (a b : str) : a <> b -> str_eqb a b = false.
Proof.
  intro H. destruct (str_eqb a b) eqn:E; [|reflexivity].
  apply str_eqb_eq in E. contradiction.
Qed.

Lemma starts_with_app (p r : str) : starts_with p (p ++ r) = true.
Proof. induction p as [|x p IH]; simpl; [reflexivity|]. now rewrite Ascii.eqb_refl. Qed.

Lemma starts_with_split (p s : str) :
  starts_with p s = true -> s = p ++ skipn (length p) s.
Proof.
  revert s; induction p as [|x p IH]; intros s H; simpl in *; [reflexivity|].
  destruct s as [|y s]; [discriminate|].
  apply andb_true_iff in H as [H1 H2]. apply Ascii.eqb_eq in H1. subst y.
  simpl. f_equal. now apply IH.
Qed.

Lemma starts_with_iff (p s : str) :
  starts_with p s = true <-> exists r, s = p ++ r.
Proof.
  split.
  - intro H. eexists. now apply starts_with_split.
  - intros [r ->]. apply starts_with_app.
Qed.

Lemma skipn_app_length {A} (u v : list A) : skipn (length u) (u ++ v) = v.
Proof. induction u; simpl; auto. Qed.

(** A prefix test only looks at as many characters as the prefix has. *)
Lemma starts_with_within (p u v : str) :
  length p <= length u -> starts_with p (u ++ v) = starts_with p u.
Proof.
  revert u; induction p as [|x p IH]; intros u H; simpl; [reflexivity|].
  destruct u as [|y u]; simpl in *; [lia|].
  rewrite IH by lia. reflexivity.
Qed.

Lemma occurs_at_within (p u v : str) (i : nat) :
  i + length p <= length u -> occurs_at p (u ++ v) i = occurs_at p u i.
Proof.
  intro H. unfold occurs_at. rewrite skipn_app.
  replace (i - length u) with 0 by lia. simpl.
  apply starts_with_within. rewrite length_skipn. lia.
Qed.

Lemma occurs_at_shift (p u v : str) (i : nat) :
  occurs_at p (u ++ v) (length u + i) = occurs_at p v i.
Proof.
  unfold occurs_at. rewrite skipn_app.
  rewrite skipn_all2 by lia. simpl. f_equal. f_equal. lia.
Qed.

(** ** Pieces of patterns *)

Lemma lit_app {A} (p : str) (k : cont A) (r : str) :
  lit p k (p ++ r) = advance (length p) (fun a => a) (k r).
Proof. unfold lit. now rewrite starts_with_app, skipn_app_length. Qed.

Lemma lit_none {A} (p : str) (k : cont A) (s : str) :
  starts_with p s = false -> lit p k s = None.
Proof. unfold lit. now intros ->. Qed.

Lemma greedy_star_run {A} (f : ascii -> bool) (k : cont A) (g r : str) a n :
  forallb f g = true -> stops f r -> k r = Some (a, n) ->
  greedy_star f k (g ++ r) = Some ((g, a), length g + n).
Proof.
  intros Hg Hr Hk. induction g as [|c g IH]; simpl in *.
  - destruct r as [|c r]; simpl in *; [now rewrite Hk|].
    now rewrite Hr, Hk.
  - apply andb_true_iff in Hg as [Hc Hg]. rewrite Hc, IH by assumption.
    reflexivity.
Qed.

Lemma greedy_plus_run {A} (f : ascii -> bool) (k : cont A) (g r : str) a n :
  g <> [] -> forallb f g = true -> stops f r -> k r = Some (a, n) ->
  greedy_plus f k (g ++ r) = Some ((g, a), length g + n).
Proof.
  intros Hne Hg Hr Hk. destruct g as [|c g]; [contradiction|].
  simpl in *. apply andb_true_iff in Hg as [Hc Hg]. rewrite Hc.
  now rewrite (greedy_star_run f k g r a n).
Qed.

Lemma fails_inside_tail {A} (k : cont A) c (g r : str) :
  fails_inside k (c :: g) r -> fails_inside k g r.
Proof. intros H i Hi. apply (H (S i)). simpl. lia. Qed.

Lemma lazy_star_first {A} (f : ascii -> bool) (k : cont A) (g r : str) a n :
  forallb f g = true -> fails_inside k g r -> k r = Some (a, n) ->
  lazy_star f k (g ++ r) = Some ((g, a), length g + n).
Proof.
  intros Hg Hin Hk. induction g as [|c g IH]; simpl in *.
  - destruct r; simpl; now rewrite Hk.
  - apply andb_true_iff in Hg as [Hc Hg].
    pose proof (Hin 0 ltac:(simpl; lia)) as H0. simpl in H0. rewrite H0, Hc.
    rewrite IH; auto. eapply fails_inside_tail; eauto.
Qed.

Lemma lazy_plus_first {A} (f : ascii -> bool) (k : cont A) (g r : str) a n :
  g <> [] -> forallb f g = true ->
  (forall i, 0 < i -> i < length g -> k (skipn i g ++ r) = None) ->
  k r = Some (a, n) ->
  lazy_plus f k (g ++ r) = Some ((g, a), length g + n).
Proof.
  intros Hne Hg Hin Hk. destruct g as [|c g]; [contradiction|].
  simpl in *. apply andb_true_iff in Hg as [Hc Hg]. rewrite Hc.
  rewrite (lazy_star_first f k g r a n); auto.
  intros i Hi. apply (Hin (S i)); lia.
Qed.

(** ** Scanning *)

Lemma bol_after_app bol u v : bol_after bol (u ++ v) = bol_after (bol_after bol u) v.
Proof. revert bol; induction u; simpl; auto. Qed.

Lemma firstn_skipn_cons {A} (l : list A) i c r :
  skipn i l = c :: r -> firstn (S i) l = firstn i l ++ [c] /\ skipn (S i) l = r.
Proof.
  revert l; induction i; intros l H; simpl in *.
  - subst. auto.
  - destruct l; [discriminate|]. simpl. destruct (IHi _ H) as [H1 H2].
    simpl in H1. rewrite H1. auto.
Qed.

Section Scan.
Context {A : Type} (m : matcher A).

Lemma sub_from_skip (f : A -> str) u bol rest :
  sub_from m f (length u) bol (u ++ rest) = sub_from m f 0 (bol_after bol u) rest.
Proof.
  revert bol; induction u as [|c u IH]; intros bol; simpl.
  - destruct rest; reflexivity.
  - apply IH.
Qed.

Lemma findall_from_skip u bol rest :
  findall_from m (length u) bol (u ++ rest) = findall_from m 0 (bol_after bol u) rest.
Proof.
  revert bol; induction u as [|c u IH]; intros bol; simpl.
  - destruct rest; reflexivity.
  - apply IH.
Qed.

Lemma sub_from_match (f : A -> str) u bol rest a :
  u <> [] -> m bol (u ++ rest) = Some (a, length u) ->
  sub_from m f 0 bol (u ++ rest) = f a ++ sub_from m f 0 (bol_after bol u) rest.
Proof.
  intros Hu Hm. destruct u as [|c u]; [contradiction|].
  change (sub_from m f 0 bol ((c :: u) ++ rest))
    with (match m bol ((c :: u) ++ rest) with
          | Some (a, n) => f a ++ sub_from m f (pred n) (is_nl c) (u ++ rest)
          | None => c :: sub_from m f 0 (is_nl c) (u ++ rest)
          end).
  rewrite Hm. simpl pred. now rewrite sub_from_skip.
Qed.

Lemma findall_from_match u bol rest a :
  u <> [] -> m bol (u ++ rest) = Some (a, length u) ->
  findall_from m 0 bol (u ++ rest) = a :: findall_from m 0 (bol_after bol u) rest.
Proof.
  intros Hu Hm. destruct u as [|c u]; [contradiction|].
  change (findall_from m 0 bol ((c :: u) ++ rest))
    with (match m bol ((c :: u) ++ rest) with
          | Some (a, n) => a :: findall_from m (pred n) (is_nl c) (u ++ rest)
          | None => findall_from m 0 (is_nl c) (u ++ rest)
          end).
  rewrite Hm. simpl pred. now rewrite findall_from_skip.
Qed.

Lemma no_match_in_tail bol c pre rest :
  no_match_in m bol (c :: pre) rest -> no_match_in m (is_nl c) pre rest.
Proof. intros H i Hi. apply (H (S i)). simpl. lia. Qed.

Lemma sub_from_pass (f : A -> str) pre bol rest :
  no_match_in m bol pre rest ->
  sub_from m f 0 bol (pre ++ rest) = pre ++ sub_from m f 0 (bol_after bol pre) rest.
Proof.
  revert bol; induction pre as [|c pre IH]; intros bol H; [reflexivity|].
  pose proof (H 0 ltac:(simpl; lia)) as H0. simpl in H0.
  simpl. rewrite H0. f_equal. apply IH. eapply no_match_in_tail; eauto.
Qed.

Lemma findall_from_pass pre bol rest :
  no_match_in m bol pre rest ->
  findall_from m 0 bol (pre ++ rest) = findall_from m 0 (bol_after bol pre) rest.
Proof.
  revert bol; induction pre as [|c pre IH]; intros bol H; [reflexivity|].
  pose proof (H 0 ltac:(simpl; lia)) as H0. simpl in H0.
  simpl. rewrite H0. apply IH. eapply no_match_in_tail; eauto.
Qed.

Lemma search_from_pass pre bol rest :
  no_match_in m bol pre rest ->
  search_from m bol (pre ++ rest) = search_from m (bol_after bol pre) rest.
Proof.
  revert bol; induction pre as [|c pre IH]; intros bol H; [reflexivity|].
  pose proof (H 0 ltac:(simpl; lia)) as H0. simpl in H0.
  simpl. rewrite H0. apply IH. eapply no_match_in_tail; eauto.
Qed.

Lemma search_from_here bol s a n :
  m bol s = Some (a, n) -> search_from m bol s = Some a.
Proof. intro H. destruct s; simpl; now rewrite H. Qed.

Lemma search_from_none bol s :
  search_from m bol s = None -> m bol s = None.
Proof. destruct s; simpl; destruct (m bol _) as [[? ?]|]; auto; discriminate. Qed.
End Scan.

(** A pattern without [^] does not look at the line structure. *)
Section Anywhere.
Context {A : Type} (k : cont A).

Lemma sub_from_anywhere (f : A -> str) skip b b' s :
  sub_from (anywhere k) f skip b s = sub_from (anywhere k) f skip b' s.
Proof.
  revert skip b b'; induction s as [|c s IH]; intros skip b b'; [reflexivity|].
  simpl. destruct skip; [|apply IH]. change (anywhere k b (c :: s)) with (k (c :: s)); change (anywhere k b' (c :: s)) with (k (c :: s)).
  destruct (k (c :: s)) as [[? ?]|]; reflexivity.
Qed.

Lemma findall_from_anywhere skip b b' s :
  findall_from (anywhere k) skip b s = findall_from (anywhere k) skip b' s.
Proof.
  revert skip b b'; induction s as [|c s IH]; intros skip b b'; [reflexivity|].
  simpl. destruct skip; [|apply IH]. change (anywhere k b (c :: s)) with (k (c :: s)); change (anywhere k b' (c :: s)) with (k (c :: s)).
  destruct (k (c :: s)) as [[? ?]|]; reflexivity.
Qed.

Lemma search_from_anywhere b b' s :
  search_from (anywhere k) b s = search_from (anywhere k) b' s.
Proof.
  revert b b'; induction s as [|c s IH]; intros b b'; [reflexivity|].
  simpl. change (anywhere k b (c :: s)) with (k (c :: s)); change (anywhere k b' (c :: s)) with (k (c :: s)).
  destruct (k (c :: s)) as [[? ?]|]; [reflexivity|apply IH].
Qed.

Lemma no_match_anywhere b pre rest :
  (forall i, i < length pre -> k (skipn i (pre ++ rest)) = None) ->
  no_match_in (anywhere k) b pre rest.
Proof.
  intros H i Hi. unfold anywhere. specialize (H i Hi).
  rewrite skipn_app in H. replace (i - length pre) with 0 in H by lia.
  exact H.
Qed.

Lemma re_sub_match (f : A -> str) u rest a :
  u <> [] -> k (u ++ rest) = Some (a, length u) ->
  re_sub (anywhere k) f (u ++ rest) = f a ++ re_sub (anywhere k) f rest.
Proof.
  intros Hu Hk. unfold re_sub. rewrite (sub_from_match _ f u true rest a); auto.
  f_equal. apply sub_from_anywhere.
Qed.

Lemma re_sub_pass (f : A -> str) pre rest :
  (forall i, i < length pre -> k (skipn i (pre ++ rest)) = None) ->
  re_sub (anywhere k) f (pre ++ rest) = pre ++ re_sub (anywhere k) f rest.
Proof.
  intro H. unfold re_sub. rewrite sub_from_pass by now apply no_match_anywhere.
  f_equal. apply sub_from_anywhere.
Qed.

Lemma re_findall_match u rest a :
  u <> [] -> k (u ++ rest) = Some (a, length u) ->
  re_findall (anywhere k) (u ++ rest) = a :: re_findall (anywhere k) rest.
Proof.
  intros Hu Hk. unfold re_findall. rewrite (findall_from_match _ u true rest a); auto.
  f_equal. apply findall_from_anywhere.
Qed.

Lemma re_findall_pass pre rest :
  (forall i, i < length pre -> k (skipn i (pre ++ rest)) = None) ->
  re_findall (anywhere k) (pre ++ rest) = re_findall (anywhere k) rest.
Proof.
  intro H. unfold re_findall. rewrite findall_from_pass by now apply no_match_anywhere.
  apply findall_from_anywhere.
Qed.

Lemma re_search_pass pre rest :
  (forall i, i < length pre -> k (skipn i (pre ++ rest)) = None) ->
  re_search (anywhere k) (pre ++ rest) = re_search (anywhere k) rest.
Proof.
  intro H. unfold re_search. rewrite search_from_pass by now apply no_match_anywhere.
  apply search_from_anywhere.
Qed.

Lemma re_sub_absent (f : A -> str) s :
  (forall i, k (skipn i s) = None) -> re_sub (anywhere k) f s = s.
Proof.
  intro H. rewrite <- (app_nil_r s) at 1. rewrite re_sub_pass.
  - unfold re_sub. simpl. apply app_nil_r.
  - intros i _. rewrite app_nil_r. apply H.
Qed.

Lemma re_findall_absent s :
  (forall i, k (skipn i s) = None) -> re_findall (anywhere k) s = [].
Proof.
  intro H. rewrite <- (app_nil_r s). rewrite re_findall_pass.
  - reflexivity.
  - intros i _. rewrite app_nil_r. apply H.
Qed.

Lemma re_search_absent s :
  (forall i, k (skipn i s) = None) -> re_search (anywhere k) s = None.
Proof.
  intro H. rewrite <- (app_nil_r s). rewrite re_search_pass.
  - unfold re_search. simpl. unfold anywhere.
    specialize (H (length s)). rewrite skipn_all2 in H by lia. now rewrite H.
  - intros i _. rewrite app_nil_r. apply H.
Qed.
End Anywhere.

(** ** [str.replace] *)

Lemma lit_done_occurs (old s : str) :
  lit old done s = if starts_with old s then Some (tt, length old + 0) else None.
Proof. unfold lit, done. destruct (starts_with old s); reflexivity. Qed.

Lemma replace_unfold old new s :
  old <> [] ->
  replace old new s = re_sub (anywhere (lit old done)) (fun _ => new) s.
Proof. destruct old; [contradiction|reflexivity]. Qed.

Lemma replace_here old new r :
  old <> [] -> replace old new (old ++ r) = new ++ replace old new r.
Proof.
  intro H. rewrite !replace_unfold by assumption.
  rewrite (re_sub_match _ _ old r tt); auto.
  rewrite lit_app. unfold done. simpl. f_equal. f_equal. lia.
Qed.

Lemma replace_pass old new pre rest :
  (forall i, i < length pre -> occurs_at old (pre ++ rest) i = false) ->
  replace old new (pre ++ rest) = pre ++ replace old new rest.
Proof.
  intro H. destruct pre as [|c pre]; [reflexivity|].
  assert (Hold : old <> []).
  { intros ->. specialize (H 0 ltac:(simpl; lia)). discriminate. }
  rewrite !replace_unfold by assumption. apply re_sub_pass.
  intros i Hi. apply lit_none. apply (H i Hi).
Qed.

Lemma replace_absent old new s :
  old <> [] ->
  (forall i, i < length s -> occurs_at old s i = false) -> replace old new s = s.
Proof.
  intros Hold H. rewrite <- (app_nil_r s) at 1. rewrite replace_pass.
  - rewrite replace_unfold by assumption. unfold re_sub. simpl. apply app_nil_r.
  - intros i Hi. rewrite app_nil_r. auto.
Qed.

Lemma forallb_any_char (s : str) : forallb any_char s = true.
Proof. induction s; simpl; auto. Qed.

Lemma occurs_at_prefix (p q s : str) (i : nat) :
  occurs_at (p ++ q) s i = true -> occurs_at p s i = true.
Proof.
  unfold occurs_at. intro H. apply starts_with_iff in H as [r Hr].
  rewrite Hr, <- app_assoc. apply starts_with_app.
Qed.

Lemma occurs_at_prefix_false (p q s : str) (i : nat) :
  occurs_at p s i = false -> occurs_at (p ++ q) s i = false.
Proof.
  intro H. destruct (occurs_at (p ++ q) s i) eqn:E; [|reflexivity].
  apply occurs_at_prefix in E. congruence.
Qed.

Lemma skipn_app_lt {A} (u v : list A) i :
  i <= length u -> skipn i (u ++ v) = skipn i u ++ v.
Proof. intro H. rewrite skipn_app. replace (i - length u) with 0 by lia. reflexivity. Qed.

Lemma skipn_nonempty {A} (u : list A) i :
  i < length u -> exists c r, skipn i u = c :: r.
Proof.
  intro H. destruct (skipn i u) as [|c r] eqn:E; eauto.
  apply (f_equal (@length A)) in E. rewrite length_skipn in E. simpl in E. lia.
Qed.

Lemma forallb_skipn {A} (f : A -> bool) (u : list A) i :
  forallb f u = true -> forallb f (skipn i u) = true.
Proof.
  revert u; induction i; intros u H; simpl; auto.
  destruct u; auto. simpl in H. apply andb_true_iff in H as [_ H]. auto.
Qed.

Section Conditional.
Variables (pre var value body post : str).

Let directive := if_directive var value body.
Let text := pre ++ directive ++ post.

Hypothesis var_word : var <> [] /\ forallb is_word var = true.
Hypothesis value_line : value <> [] /\ forallb not_nl value = true.
Hypothesis body_open :
  forall i, i < length body -> occurs_at "@endif" (body ++ "@endif") i = false.
Hypothesis only_block :
  forall i, i <> length pre -> occurs_at "@if " text i = false.

Let K : cont (str * str * str) :=
  pmap (fun '(var, (value, (block, _))) => (var, value, block))
       (lit "@if " (greedy_plus is_word
          (lit "=" (lazy_plus any_char
             (lit [nl] (lazy_star any_char (lit "@endif" done))))))).

Lemma if_pattern_K : if_pattern = anywhere K.
Proof. reflexivity. Qed.

Lemma directive_nonempty : directive <> [].
Proof. discriminate. Qed.

Lemma K_directive : K (directive ++ post) = Some ((var, value, body), length directive).
Proof.
  destruct var_word as [Hv1 Hv2]. destruct value_line as [Hl1 Hl2].
  unfold K, pmap, directive, if_directive.
  repeat rewrite <- app_assoc.
  rewrite lit_app.
  rewrite (greedy_plus_run is_word _ var _ (value, (body, tt))
             (1 + (length value + (1 + (length body + (6 + 0)))))); auto.
  - simpl. repeat (rewrite length_app; simpl). do 2 f_equal; lia.
  - reflexivity.
  - change ("=" ++ value ++ [nl] ++ body ++ "@endif" ++ post)
      with (list_ascii_of_string "=" ++ (value ++ [nl] ++ body ++ "@endif" ++ post)).
    rewrite (lit_app "=").
    rewrite (lazy_plus_first any_char _ value _ (body, tt)
               (1 + (length body + (6 + 0)))); auto.
    + apply forallb_any_char.
    + intros i Hi0 Hi. apply lit_none.
      set (directive_tail := [nl] ++ body ++ "@endif" ++ post).
      destruct (skipn_nonempty value i Hi) as (c & r & E). rewrite E.
      pose proof (forallb_skipn not_nl value i Hl2) as F. rewrite E in F.
      simpl in F. apply andb_true_iff in F as [F _].
      unfold not_nl, is_nl in F.
      change (starts_with [nl] ((c :: r) ++ directive_tail))
        with (Ascii.eqb nl c && true).
      rewrite Ascii.eqb_sym. destruct (Ascii.eqb c nl); [discriminate|reflexivity].
    + rewrite (lit_app [nl]).
      rewrite (lazy_star_first any_char _ body _ tt (6 + 0)); auto.
      * apply forallb_any_char.
      * intros i Hi. apply lit_none.
        specialize (body_open i Hi). unfold occurs_at in body_open.
        rewrite skipn_app_lt in body_open by lia.
        rewrite app_assoc. rewrite starts_with_within; auto.
        rewrite length_app, length_skipn. simpl. lia.
Qed.

Lemma K_pre i : i < length pre -> K (skipn i text) = None.
Proof.
  intro Hi. unfold K, pmap. rewrite lit_none; [reflexivity|].
  apply only_block. lia.
Qed.

Lemma directive_length : 0 < length directive.
Proof. unfold directive, if_directive. rewrite length_app. simpl. lia. Qed.

Lemma if_absent_post i : occurs_at "@if " post i = false.
Proof.
  pose proof directive_length.
  rewrite <- (occurs_at_shift "@if " directive post i).
  rewrite <- (occurs_at_shift "@if " pre (directive ++ post)).
  apply only_block. lia.
Qed.

Lemma K_post i : K (skipn i post) = None.
Proof. unfold K, pmap. rewrite lit_none; [reflexivity|]. apply if_absent_post. Qed.

Lemma findall_block : re_findall if_pattern text = [(var, value, body)].
Proof.
  rewrite if_pattern_K. unfold text.
  rewrite re_findall_pass by apply K_pre.
  rewrite (re_findall_match K directive post (var, value, body)).
  - f_equal. apply re_findall_absent. apply K_post.
  - apply directive_nonempty.
  - apply K_directive.
Qed.

Lemma directive_starts : exists q, directive = "@if " ++ q.
Proof. eexists. reflexivity. Qed.

Lemma replace_block (new : str) : replace directive new text = pre ++ new ++ post.
Proof.
  destruct directive_starts as [q Hq].
  unfold text. rewrite replace_pass.
  - rewrite replace_here by apply directive_nonempty.
    rewrite replace_absent; auto using directive_nonempty.
    intros i _. rewrite Hq. apply occurs_at_prefix_false. apply if_absent_post.
  - intros i Hi. rewrite Hq at 1. apply occurs_at_prefix_false.
    apply only_block. lia.
Qed.

Lemma eval_block platform :
  eval_conditionals platform text =
  pre ++ (if truthy platform && str_eqb var "PLATFORM" && opt_eqb platform value
          then body else []) ++ post.
Proof.
  unfold eval_conditionals. rewrite findall_block.
  cbn [fold_left]. unfold eval_cond. fold directive.
  destruct (truthy platform && str_eqb var "PLATFORM" && opt_eqb platform value);
    apply replace_block.
Qed.
End Conditional.

Lemma word_not_space (c : ascii) : is_word c = true -> is_space c = false.
Proof.
  destruct c as [[] [] [] [] [] [] [] []]; vm_compute; intro H;
    first [reflexivity | discriminate H].
Qed.

Lemma lstrip_id (s : str) : stops is_space s -> lstrip s = s.
Proof.
  unfold lstrip. destruct s as [|c s]; simpl; [reflexivity|].
  now intros ->.
Qed.

Lemma forallb_rev {A} (f : A -> bool) (l : list A) :
  forallb f l = true -> forallb f (rev l) = true.
Proof.
  rewrite !forallb_forall. intros H x Hx. apply H. now apply in_rev.
Qed.

Lemma strip_word (s : str) : forallb is_word s = true -> strip s = s.
Proof.
  intro H. unfold strip.
  assert (W : forall t, forallb is_word t = true -> stops is_space t).
  { intros [|c t] Ht; simpl in *; [exact I|].
    apply andb_true_iff in Ht as [Hc _]. now apply word_not_space. }
  rewrite (lstrip_id s) by auto.
  rewrite lstrip_id by (apply W; now apply forallb_rev).
  apply rev_involutive.
Qed.

Section Alert.
Variables (pre ty content post : str).

Let block := alert_block ty content.
Let text := pre ++ block ++ post.

Hypothesis ty_word : ty <> [] /\ forallb is_word ty = true.
Hypothesis content_open :
  forall i, i < length content ->
    occurs_at "@endalert" (content ++ "@endalert") i = false.
Hypothesis first_block :
  forall i, i < length pre -> occurs_at "@alert " text i = false.

Let K : cont (str * str) :=
  pmap (fun '(ty, (content, _)) => (ty, content))
       (lit "@alert " (greedy_plus is_word
          (lit [nl] (lazy_star any_char (lit "@endalert" done))))).

Lemma K_alert : K (block ++ post) = Some ((ty, content), length block).
Proof.
  destruct ty_word as [Hv1 Hv2].
  unfold K, pmap, block, alert_block.
  repeat rewrite <- app_assoc.
  rewrite lit_app.
  rewrite (greedy_plus_run is_word _ ty _ (content, tt)
             (1 + (length content + (9 + 0)))); auto.
  - simpl. repeat (rewrite length_app; simpl). do 2 f_equal; lia.
  - reflexivity.
  - rewrite (lit_app [nl]).
    rewrite (lazy_star_first any_char _ content _ tt (9 + 0)); auto.
    + apply forallb_any_char.
    + intros i Hi. apply lit_none.
      specialize (content_open i Hi). unfold occurs_at in content_open.
      rewrite skipn_app_lt in content_open by lia.
      rewrite app_assoc. rewrite starts_with_within; auto.
      rewrite length_app, length_skipn. simpl. lia.
Qed.

Lemma alerts_block :
  alerts text = pre ++ alert_replacer (ty, content) ++ alerts post.
Proof.
  unfold alerts, text. change alert_pattern with (anywhere K).
  rewrite re_sub_pass.
  - rewrite (re_sub_match K _ block post (ty, content)); auto.
    + discriminate.
    + apply K_alert.
  - intros i Hi. unfold K, pmap. rewrite lit_none; [reflexivity|].
    now apply first_block.
Qed.
End Alert.

Lemma allowed_spec (ty : str) : existsb (str_eqb ty) allowed = true <-> In ty allowed.
Proof.
  rewrite existsb_exists. split.
  - intros (x & Hx & E). apply str_eqb_eq in E. now subst.
  - intro H. exists ty. split; auto. apply str_eqb_refl.
Qed.

Section Include.
Variables (fs : filesystem) (base_dir : option str) (pre g post : str).

Let directive : str := "@include " ++ g.
Let text := pre ++ directive ++ post.

Hypothesis g_line : g <> [] /\ forallb not_nl g = true.
Hypothesis post_line : stops not_nl post.
Hypothesis first_directive :
  forall i, i < length pre -> occurs_at "@include " text i = false.

Let K : cont (str * str) :=
  pmap (fun '(g, _) => ("@include " ++ g, g))
       (lit "@include " (greedy_plus not_nl done)).

Lemma K_include : K (directive ++ post) = Some ((directive, g), length directive).
Proof.
  destruct g_line as [H1 H2]. unfold K, pmap, directive.
  rewrite <- app_assoc, lit_app.
  rewrite (greedy_plus_run not_nl _ g post tt 0); auto.
  simpl. do 2 f_equal; lia.
Qed.

Lemma search_include : re_search include_pattern text = Some (directive, g).
Proof.
  change include_pattern with (anywhere K). unfold text.
  rewrite re_search_pass.
  - unfold re_search. eapply search_from_here. unfold anywhere. apply K_include.
  - intros i Hi. unfold K, pmap. rewrite lit_none; [reflexivity|].
    now apply first_directive.
Qed.

Lemma replace_directive (new : str) :
  replace directive new text = pre ++ new ++ replace directive new post.
Proof.
  unfold text. rewrite replace_pass.
  - rewrite replace_here by discriminate. reflexivity.
  - intros i Hi. unfold directive at 1. apply occurs_at_prefix_false.
    now apply first_directive.
Qed.
End Include.

(** ** What a match consumes *)

Lemma span_app (f : ascii -> bool) (s : str) : s = fst (span f s) ++ snd (span f s).
Proof.
  induction s as [|c s IH]; simpl; [reflexivity|].
  destruct (f c); [|reflexivity]. destruct (span f s) as [g r]. simpl in *. now f_equal.
Qed.

Lemma span_all (f : ascii -> bool) (s : str) : forallb f (fst (span f s)) = true.
Proof.
  induction s as [|c s IH]; simpl; [reflexivity|].
  destruct (f c) eqn:E; [|reflexivity]. destruct (span f s) as [g r]. simpl in *.
  now rewrite E.
Qed.

Lemma span_stops (f : ascii -> bool) (s : str) : stops f (snd (span f s)).
Proof.
  induction s as [|c s IH]; simpl; [exact I|].
  destruct (f c) eqn:E; [|exact E]. destruct (span f s) as [g r]. exact IH.
Qed.

Lemma greedy_star_done (f : ascii -> bool) (s : str) :
  greedy_star f done s = Some ((fst (span f s), tt), length (fst (span f s))).
Proof.
  induction s as [|c s IH]; simpl; [reflexivity|].
  destruct (f c); [|reflexivity]. rewrite IH. destruct (span f s) as [g r]. reflexivity.
Qed.

Lemma greedy_plus_done_inv (f : ascii -> bool) (s g : str) u n :
  greedy_plus f done s = Some ((g, u), n) ->
  g <> [] /\ forallb f g = true /\ n = length g /\
  exists r, s = g ++ r /\ stops f r.
Proof.
  unfold greedy_plus. destruct s as [|c s]; [discriminate|].
  destruct (f c) eqn:E; [|discriminate].
  rewrite greedy_star_done. simpl. intro H. injection H as <- _ <-.
  repeat split.
  - discriminate.
  - simpl. rewrite E. apply span_all.
  - exists (snd (span f s)). split; [|apply span_stops].
    simpl. f_equal. apply span_app.
Qed.

Lemma greedy_star_inv {A} (f : ascii -> bool) (k : cont A) (s g : str) a n :
  greedy_star f k s = Some ((g, a), n) ->
  exists r m, s = g ++ r /\ k r = Some (a, m) /\ n = length g + m.
Proof.
  revert g n; induction s as [|c s IH]; intros g n; simpl.
  - destruct (k []) as [[a' m]|] eqn:E; [|discriminate]. simpl.
    intro H. injection H as <- <- <-. exists [], m. auto.
  - assert (Stop : advance 0 (fun a0 : A => ([] : str, a0)) (k (c :: s)) = Some ((g, a), n) ->
                   exists r m, c :: s = g ++ r /\ k r = Some (a, m) /\ n = length g + m).
    { destruct (k (c :: s)) as [[a' m]|] eqn:E; [|discriminate]. simpl.
      intro H. injection H as <- <- <-. exists (c :: s), m. auto. }
    destruct (f c); [|exact Stop].
    destruct (greedy_star f k s) as [[[g' a'] n']|] eqn:E; [|exact Stop].
    intro H. injection H as <- <- <-.
    destruct (IH _ _ eq_refl) as (r & m & -> & Hk & ->).
    exists r, m. auto.
Qed.

Lemma lit_inv {A} (p : str) (k : cont A) (s : str) a n :
  lit p k s = Some (a, n) ->
  exists r m, s = p ++ r /\ k r = Some (a, m) /\ n = length p + m.
Proof.
  unfold lit. destruct (starts_with p s) eqn:E; [|discriminate].
  apply starts_with_split in E.
  destruct (k (skipn (length p) s)) as [[a' m]|] eqn:Ek; [|discriminate].
  simpl. intro H. injection H as <- <-. eauto.
Qed.

(** ** The title *)

Lemma title_pattern_cont : title_pattern = anywhere title_cont.
Proof. reflexivity. Qed.

Lemma title_cont_inv (s t : str) n :
  title_cont s = Some (t, n) ->
  exists w r, s = "@title:" ++ w ++ t ++ r /\ n = 7 + length w + length t
              /\ t <> [] /\ forallb not_nl t = true /\ stops not_nl r.
Proof.
  unfold title_cont, pmap.
  destruct (lit _ _ s) as [[[w [g u]] m]|] eqn:E; [|discriminate].
  simpl. intro H. injection H as -> ->.
  apply lit_inv in E as (r1 & m1 & -> & E & ->).
  apply greedy_star_inv in E as (r2 & m2 & -> & E & ->).
  apply greedy_plus_done_inv in E as (Hne & Hall & -> & r & -> & Hr).
  exists w, r. repeat split; auto.
Qed.

Lemma title_cont_here (w t r : str) :
  forallb is_space w = true -> t <> [] -> forallb not_nl t = true ->
  stops is_space t -> stops not_nl r ->
  title_cont ("@title:" ++ w ++ t ++ r) = Some (t, 7 + length w + length t).
Proof.
  intros Hw Hne Ht Hs Hr. unfold title_cont, pmap. rewrite lit_app.
  rewrite (greedy_star_run is_space _ w (t ++ r) (t, tt) (length t + 0)); auto.
  - simpl. do 2 f_equal. lia.
  - destruct t; [contradiction|exact Hs].
  - now apply greedy_plus_run.
Qed.

(** The pattern fails after [@title:] only when line feeds alone follow. *)
Lemma title_rest_none (r : str) :
  greedy_star is_space (greedy_plus not_nl done) r = None -> forallb is_nl r = true.
Proof.
  induction r as [|c r IH]; simpl; [reflexivity|].
  assert (Here : advance 0 (fun a => ([] : str, a)) (greedy_plus not_nl done (c :: r)) = None ->
                 is_nl c = true).
  { unfold greedy_plus. unfold not_nl at 1. destruct (is_nl c); [reflexivity|].
    simpl. rewrite greedy_star_done. discriminate. }
  destruct (is_space c) eqn:Es.
  - destruct (greedy_star is_space (greedy_plus not_nl done) r) as [[[g a] n]|];
      [discriminate|].
    intro H. rewrite (Here H). simpl. now apply IH.
  - intro H. pose proof (Here H) as N. unfold is_nl in N.
    apply Ascii.eqb_eq in N. subst c. discriminate.
Qed.

Lemma strip_all_nil : strip_all [] = [].
Proof. reflexivity. Qed.

Lemma strip_all_pass c s :
  title_cont (c :: s) = None -> strip_all (c :: s) = c :: strip_all s.
Proof.
  intro H. unfold strip_all.
  apply (re_sub_pass title_cont (fun _ => []) [c] s).
  intros i Hi. simpl in Hi. assert (i = 0) as -> by lia. exact H.
Qed.

Lemma strip_all_match s t n :
  title_cont s = Some (t, n) ->
  0 < n <= length s /\ strip_all s = strip_all (skipn n s) /\ stops not_nl (skipn n s).
Proof.
  intro H. pose proof H as H'.
  apply title_cont_inv in H' as (w & r & -> & -> & Hne & Ht & Hr).
  assert (L : 7 + length w + length t = length ("@title:" ++ w ++ t)).
  { rewrite !length_app. simpl. lia. }
  assert (E : "@title:" ++ w ++ t ++ r = ("@title:" ++ w ++ t) ++ r).
  { rewrite <- !app_assoc. reflexivity. }
  rewrite E in *. rewrite L in *. rewrite skipn_app_length.
  repeat split; auto.
  - rewrite !length_app. simpl. lia.
  - rewrite !length_app. simpl. lia.
  - unfold strip_all. rewrite (re_sub_match title_cont _ _ r t); auto.
    discriminate.
Qed.

Lemma title_cont_nl (s : str) : stops not_nl s -> title_cont s = None.
Proof.
  destruct s as [|c s]; [reflexivity|]. simpl. unfold not_nl. intro H.
  apply negb_false_iff in H. unfold is_nl in H. apply Ascii.eqb_eq in H. now subst.
Qed.

(** What is left agrees with the text up to the next line feed. *)
Lemma strip_all_agree (q : str) :
  forallb not_nl q = true ->
  forall s, starts_with q (strip_all s) = true -> starts_with q s = true.
Proof.
  revert q.
  assert (Nl : forall q r, forallb not_nl q = true -> stops not_nl r ->
                 starts_with q (strip_all r) = true -> q = []).
  { intros q r Hq Hr. destruct q as [|x q]; [reflexivity|].
    destruct r as [|c r]; [discriminate|].
    rewrite strip_all_pass by now apply title_cont_nl.
    simpl in *. unfold not_nl in *. apply negb_false_iff in Hr.
    unfold is_nl in Hr. apply Ascii.eqb_eq in Hr. subst c.
    apply andb_true_iff in Hq as [Hx _]. apply negb_true_iff in Hx.
    unfold is_nl in Hx. rewrite Hx. discriminate. }
  intros q Hq s. revert q Hq. induction s as [|c s IH]; intros q Hq.
  - rewrite strip_all_nil. auto.
  - destruct (title_cont (c :: s)) as [[t n]|] eqn:E.
    + apply strip_all_match in E as (_ & -> & Hr).
      intro H. apply Nl in H; auto. now subst.
    + rewrite strip_all_pass by assumption.
      destruct q as [|x q]; [reflexivity|]. simpl.
      intro H. apply andb_true_iff in H as [H1 H2]. rewrite H1. simpl.
      simpl in Hq. apply andb_true_iff in Hq as [_ Hq]. now apply IH.
Qed.

Lemma no_at_no_title (s : str) :
  forallb not_at s = true -> forall i, title_cont (skipn i s) = None.
Proof.
  intros H i. pose proof (forallb_skipn not_at s i H) as F.
  destruct (skipn i s) as [|c r]; [reflexivity|].
  simpl in F. apply andb_true_iff in F as [F _].
  unfold title_cont, pmap. rewrite lit_none; [reflexivity|].
  change (starts_with "@title:" (c :: r))
    with (Ascii.eqb "@" c && starts_with "title:" r).
  unfold not_at in F. apply negb_true_iff in F.
  rewrite Ascii.eqb_sym, F. reflexivity.
Qed.

Lemma nl_not_at (r : str) : forallb is_nl r = true -> forallb not_at r = true.
Proof.
  induction r as [|c r IH]; simpl; [reflexivity|]. intro H.
  apply andb_true_iff in H as [H1 H2]. rewrite IH by assumption.
  unfold is_nl in H1. apply Ascii.eqb_eq in H1. now subst.
Qed.

Lemma title_cont_stays c s :
  title_cont (c :: s) = None -> title_cont (c :: strip_all s) = None.
Proof.
  intro H. destruct (starts_with "@title:" (c :: s)) eqn:E.
  - apply starts_with_split in E.
    set (r := skipn (length (list_ascii_of_string "@title:")) (c :: s)) in E.
    clearbody r.
    assert (N : forallb is_nl r = true).
    { apply title_rest_none. unfold title_cont, pmap in H.
      rewrite E, lit_app in H.
      destruct (greedy_star is_space (greedy_plus not_nl done) r)
        as [[[w [g u]] n]|]; [discriminate|reflexivity]. }
    assert (Z : strip_all s = s).
    { unfold strip_all. apply re_sub_absent. apply no_at_no_title.
      injection E as _ ->. simpl. now apply nl_not_at. }
    now rewrite Z.
  - unfold title_cont, pmap. rewrite lit_none; [reflexivity|].
    destruct (starts_with "@title:" (c :: strip_all s)) eqn:E'; [|reflexivity].
    change (starts_with "@title:" (c :: strip_all s))
      with (Ascii.eqb "@" c && starts_with "title:" (strip_all s)) in E'.
    change (starts_with "@title:" (c :: s))
      with (Ascii.eqb "@" c && starts_with "title:" s) in E.
    apply andb_true_iff in E' as [E1 E2].
    apply (strip_all_agree "title:") in E2; [|reflexivity].
    rewrite E1, E2 in E. discriminate.
Qed.

Lemma search_title_cons c s :
  title_cont (c :: s) = None ->
  re_search (anywhere title_cont) (c :: s) = re_search (anywhere title_cont) s.
Proof.
  intro H. apply (re_search_pass title_cont [c] s).
  intros i Hi. simpl in Hi. assert (i = 0) as -> by lia. exact H.
Qed.

Lemma no_title_left (s : str) :
  re_search title_pattern (strip_titles s) = None.
Proof.
  unfold strip_titles. rewrite title_pattern_cont. fold (strip_all s).
  induction s as [s IH] using (induction_ltof1 _ (@length ascii)).
  unfold ltof in IH.
  destruct s as [|c s]; [reflexivity|].
  destruct (title_cont (c :: s)) as [[t n]|] eqn:E.
  - apply strip_all_match in E as (Hn & -> & _). apply IH.
    rewrite length_skipn. lia.
  - rewrite strip_all_pass by assumption.
    rewrite search_title_cons by now apply title_cont_stays.
    apply IH. simpl. lia.
Qed.

Lemma search_none_everywhere {A} (k : cont A) (s : str) :
  re_search (anywhere k) s = None -> forall i, k (skipn i s) = None.
Proof.
  unfold re_search. generalize true. induction s as [|c s IH]; intros b H i.
  - rewrite skipn_nil. simpl in H. unfold anywhere in H.
    destruct (k []) as [[? ?]|]; [discriminate|reflexivity].
  - simpl in H. unfold anywhere at 1 in H.
    destruct (k (c :: s)) as [[? ?]|] eqn:E; [discriminate|].
    destruct i; [exact E|]. simpl. eapply IH; eauto.
Qed.

Section Title.
Variables (pre ws t post : str).
Let text := pre ++ "@title:" ++ ws ++ t ++ post.

Hypothesis ws_space : forallb is_space ws = true.
Hypothesis t_text : t <> [] /\ forallb not_nl t = true /\ stops is_space t.
Hypothesis post_line : stops not_nl post.
Hypothesis first_title :
  forall i, i < length pre -> occurs_at "@title:" text i = false.

Lemma extract_title_first : extract_title text = t.
Proof.
  destruct t_text as (H1 & H2 & H3).
  unfold extract_title, text. rewrite title_pattern_cont.
  rewrite re_search_pass.
  - unfold re_search. erewrite search_from_here; [reflexivity|].
    unfold anywhere. now apply title_cont_here.
  - intros i Hi. unfold title_cont, pmap. rewrite lit_none; [reflexivity|].
    now apply first_title.
Qed.
End Title.

(** ** The loop on a text without directive *)

Lemma include_absent fs base_dir (text : str) :
  (forall i, occurs_at "@include " text i = false) ->
  include_step fs base_dir text = Stop.
Proof.
  intro H. unfold include_step.
  change include_pattern
    with (anywhere (pmap (fun '(g, _) => ("@include " ++ g, g))
                         (lit "@include " (greedy_plus not_nl done)))).
  rewrite re_search_absent; [reflexivity|].
  intro i. unfold pmap. rewrite lit_none; [reflexivity|]. apply H.
Qed.

Lemma resolve_absent fuel fs base_dir (text : str) :
  (forall i, occurs_at "@include " text i = false) ->
  resolve_includes (S fuel) fs base_dir text = Returned text.
Proof.
  intro H. cbn [resolve_includes]. now rewrite include_absent.
Qed.

Lemma parse_ldoc_returned fuel fs h text base_dir vars_dict platform fragment title h' :
  parse_ldoc fuel fs h text base_dir vars_dict platform = Returned (fragment, title, h') ->
  exists resolved,
    resolve_includes fuel fs base_dir text = Returned resolved
    /\ title = extract_title resolved
    /\ h' = heap_write (snd (vars_or_fresh h vars_dict)) (fst (vars_or_fresh h vars_dict))
              (record_vars (re_findall var_pattern (strip_titles resolved))
                 (heap_read (snd (vars_or_fresh h vars_dict))
                            (fst (vars_or_fresh h vars_dict)))).
Proof.
  unfold parse_ldoc. destruct (vars_or_fresh h vars_dict) as [r h0]. simpl.
  destruct (resolve_includes fuel fs base_dir text) as [resolved|e|]; try discriminate.
  intro H. injection H as _ <- <-. exists resolved. auto.
Qed.

(** C10: the title that [parse_ldoc] returns is the capture of the first
    [@title:] line of the buffer the include loop leaves; the variable
    table, the platform and the syntax replacements have no part in it.  On
    a document without [@include] it is the text of the title line as
    written, whatever references, emphasis marks or HTML it holds. *)
Theorem title_is_the_raw_capture :
  (forall fuel fs h text base_dir vars_dict platform fragment title h',
     parse_ldoc fuel fs h text base_dir vars_dict platform
     = Returned (fragment, title, h') ->
     exists resolved,
       resolve_includes fuel fs base_dir text = Returned resolved
       /\ title = extract_title resolved)
  /\ (forall fuel fs h base_dir vars_dict platform (pre ws t post : str),
        (forall i, occurs_at "@include " (pre ++ "@title:" ++ ws ++ t ++ post) i
                   = false) ->
        forallb is_space ws = true ->
        t <> [] /\ forallb not_nl t = true /\ stops is_space t ->
        stops not_nl post ->
        (forall i, i < length pre ->
           occurs_at "@title:" (pre ++ "@title:" ++ ws ++ t ++ post) i = false) ->
        exists fragment h',
          parse_ldoc (S fuel) fs h (pre ++ "@title:" ++ ws ++ t ++ post)
                     base_dir vars_dict platform
          = Returned (fragment, t, h')).
Proof.
  split.
  - intros * H. apply parse_ldoc_returned in H as (resolved & H1 & H2 & _).
    eauto.
  - intros * Hinc Hws Ht Hpost Hpre.
    unfold parse_ldoc. destruct (vars_or_fresh h vars_dict) as [r h0].
    rewrite resolve_absent by assumption.
    rewrite extract_title_first by assumption.
    eexists. eexists. reflexivity.
Qed.

(** ** The store *)

Lemma heap_read_write_same (h : heap) r d :
  r < length h -> heap_read (heap_write h r d) r = d.
Proof.
  revert r; induction h as [|x h IH]; intros r H; simpl in *; [lia|].
  destruct r; [reflexivity|]. apply IH. lia.
Qed.

Lemma heap_read_write_other (h : heap) r r' d :
  r <> r' -> heap_read (heap_write h r d) r' = heap_read h r'.
Proof.
  revert r r'; induction h as [|x h IH]; intros r r' H; simpl; [reflexivity|].
  destruct r, r'; try reflexivity; try lia. apply IH. lia.
Qed.

Lemma heap_write_length (h : heap) r d : length (heap_write h r d) = length h.
Proof. revert r; induction h as [|x h IH]; intros [|r]; simpl; auto. Qed.

Lemma heap_read_app (h : heap) x r :
  r < length h -> heap_read (h ++ x) r = heap_read h r.
Proof. intro H. unfold heap_read. now apply app_nth1. Qed.

Lemma heap_read_fresh (h : heap) d : heap_read (h ++ [d]) (length h) = d.
Proof. unfold heap_read. rewrite app_nth2 by lia. now rewrite Nat.sub_diag. Qed.

Lemma dict_get_set_same k v d : dict_get k (dict_set k v d) = Some v.
Proof.
  induction d as [|[k' v'] d IH]; simpl.
  - now rewrite str_eqb_refl.
  - destruct (str_eqb k k') eqn:E; simpl; rewrite E; auto.
Qed.

Lemma dict_get_set_other k k' v d :
  k <> k' -> dict_get k (dict_set k' v d) = dict_get k d.
Proof.
  intro H. induction d as [|[k2 v2] d IH]; simpl.
  - now rewrite str_eqb_neq.
  - destruct (str_eqb k' k2) eqn:E; simpl.
    + apply str_eqb_eq in E. subst k2. now rewrite str_eqb_neq.
    + now rewrite IH.
Qed.

Lemma record_vars_app l1 l2 d :
  record_vars (l1 ++ l2) d = record_vars l2 (record_vars l1 d).
Proof. apply fold_left_app. Qed.

Lemma record_vars_other name rest d :
  (forall value, ~ In (name, value) rest) ->
  dict_get name (record_vars rest d) = dict_get name d.
Proof.
  revert d; induction rest as [|[n v] rest IH]; intros d H; [reflexivity|].
  change (record_vars ((n, v) :: rest) d)
    with (record_vars rest (dict_set n (strip v) d)).
  rewrite IH.
  - apply dict_get_set_other. intros ->. apply (H v). now left.
  - intros value Hin. apply (H value). now right.
Qed.

Lemma record_vars_last before name value rest d :
  (forall value', ~ In (name, value') rest) ->
  dict_get name (record_vars (before ++ (name, value) :: rest) d) = Some (strip value).
Proof.
  intro H. rewrite record_vars_app.
  change (record_vars ((name, value) :: rest) ?x)
    with (record_vars rest (dict_set name (strip value) x)).
  rewrite record_vars_other by assumption. apply dict_get_set_same.
Qed.

(** C9: when the caller passes a reference to a table of the store and
    [parse_ldoc] returns, a non-empty table holds, at the same reference and
    with no table added to the store, its former entries and every
    declaration of the document (a name declared several times keeps its
    last value); an empty table is left empty, the declarations going to a
    fresh table. *)
Theorem caller_table_is_mutated_in_place
  fuel fs (h : heap) text base_dir (r : nat) platform fragment title (h' : heap)
  (d0 : dict) :
  nth_error h r = Some d0 ->
  parse_ldoc fuel fs h text base_dir (Some r) platform
  = Returned (fragment, title, h') ->
  exists resolved,
    resolve_includes fuel fs base_dir text = Returned resolved /\
    let decls := re_findall var_pattern (strip_titles resolved) in
    (d0 <> [] ->
       heap_read h' r = record_vars decls d0
       /\ length h' = length h
       /\ forall before name value rest,
            decls = before ++ (name, value) :: rest ->
            (forall value', ~ In (name, value') rest) ->
            dict_get name (heap_read h' r) = Some (strip value))
    /\ (d0 = [] ->
          heap_read h' r = []
          /\ heap_read h' (length h) = record_vars decls []).
Proof.
  intros Hr H.
  assert (Hlt : r < length h) by (apply nth_error_Some; congruence).
  assert (Hread : heap_read h r = d0).
  { unfold heap_read. now apply nth_error_nth. }
  apply parse_ldoc_returned in H as (resolved & H1 & _ & H3).
  exists resolved. split; [exact H1|]. intro decls. fold decls in H3.
  simpl in H3. rewrite Hr in H3. split.
  - intro Hne. destruct d0 as [|e d0]; [contradiction|].
    simpl in H3. subst h'. rewrite heap_read_write_same, Hread by assumption.
    split; [reflexivity|]. split; [apply heap_write_length|].
    intros before name value rest -> Hlast. now apply record_vars_last.
  - intros ->. simpl in H3. subst h'.
    rewrite heap_read_fresh.
    rewrite heap_read_write_other by lia.
    rewrite heap_read_write_same by (rewrite length_app; simpl; lia).
    rewrite heap_read_app by assumption. auto.
Qed.

(** ** Variables *)

Lemma forallb_not_at_absent (p s : str) :
  forallb not_at s = true -> forall i, occurs_at ("@" ++ p) s i = false.
Proof.
  intros H i. unfold occurs_at. pose proof (forallb_skipn not_at s i H) as F.
  destruct (skipn i s) as [|c r]; [reflexivity|].
  simpl in F. apply andb_true_iff in F as [F _].
  change (starts_with ("@" ++ p) (c :: r)) with (Ascii.eqb "@" c && starts_with p r).
  unfold not_at in F. apply negb_true_iff in F.
  rewrite Ascii.eqb_sym, F. reflexivity.
Qed.

Lemma word_not_at (s : str) : forallb is_word s = true -> forallb not_at s = true.
Proof.
  induction s as [|c s IH]; simpl; [reflexivity|]. intro H.
  apply andb_true_iff in H as [H1 H2]. rewrite IH by assumption.
  rewrite andb_true_r. unfold not_at. destruct (Ascii.eqb c "@") eqn:E; [|reflexivity].
  apply Ascii.eqb_eq in E. subst c. discriminate.
Qed.

(** A word that starts [a ++ post] where [post] starts with no word
    character starts [a]. *)
Lemma word_prefix (b a post : str) :
  forallb is_word b = true -> stops is_word post ->
  starts_with b (a ++ post) = true -> starts_with b a = true.
Proof.
  revert a; induction b as [|x b IH]; intros a Hb Hp H; [reflexivity|].
  simpl in Hb. apply andb_true_iff in Hb as [Hx Hb].
  destruct a as [|y a].
  - destruct post as [|c post]; [discriminate|]. simpl in *.
    apply andb_true_iff in H as [H _]. apply Ascii.eqb_eq in H. subst c. congruence.
  - simpl in *. apply andb_true_iff in H as [H1 H2]. rewrite H1. simpl. eauto.
Qed.

Lemma record_two (k1 v1 k2 v2 : str) :
  str_eqb k2 k1 = false ->
  record_vars [(k1, v1); (k2, v2)] [] = [(k1, strip v1); (k2, strip v2)].
Proof. intro H. unfold record_vars. cbn [fold_left dict_set]. now rewrite H. Qed.

Lemma substitute_two (k1 v1 k2 v2 t : str) :
  substitute_vars [(k1, v1); (k2, v2)] t
  = replace ("@" ++ k2) v2 (replace ("@" ++ k1) v1 t).
Proof. reflexivity. Qed.

Section Substitution.
Variables (a b va vb pre post : str).

Hypothesis a_word : forallb is_word a = true.
Hypothesis b_word : forallb is_word b = true.
Hypothesis not_prefix : starts_with b a = false.
Hypothesis pre_plain : forallb not_at pre = true.
Hypothesis post_plain : forallb not_at post = true /\ stops is_word post.

Let text := pre ++ ("@" ++ a) ++ post.

Lemma b_absent : forall i, occurs_at ("@" ++ b) text i = false.
Proof.
  intro i. unfold text.
  destruct (Nat.lt_ge_cases i (length pre)) as [Hlt|Hge].
  - unfold occurs_at. rewrite skipn_app_lt by lia.
    destruct (skipn_nonempty pre i Hlt) as (c & r & E). rewrite E.
    pose proof (forallb_skipn not_at pre i pre_plain) as F. rewrite E in F.
    simpl in F. apply andb_true_iff in F as [F _].
    change (starts_with ("@" ++ b) ((c :: r) ++ ("@" ++ a) ++ post))
      with (Ascii.eqb "@" c && starts_with b (r ++ ("@" ++ a) ++ post)).
    unfold not_at in F. apply negb_true_iff in F.
    rewrite Ascii.eqb_sym, F. reflexivity.
  - replace i with (length pre + (i - length pre)) by lia.
    rewrite occurs_at_shift. destruct (i - length pre) as [|j].
    + unfold occurs_at. simpl skipn.
      change (starts_with ("@" ++ b) (("@" ++ a) ++ post))
        with (starts_with b (a ++ post)).
      destruct (starts_with b (a ++ post)) eqn:E; [|exact E].
      apply word_prefix in E; try tauto. congruence.
    + change (occurs_at ("@" ++ b) (("@" ++ a) ++ post) (S j))
        with (occurs_at ("@" ++ b) (a ++ post) j).
      apply forallb_not_at_absent. rewrite forallb_app.
      rewrite word_not_at by assumption. tauto.
Qed.

Lemma replace_reference v : replace ("@" ++ a) v text = pre ++ v ++ post.
Proof.
  unfold text. rewrite replace_pass.
  - rewrite replace_here by discriminate.
    rewrite replace_absent; auto; [discriminate|].
    intros i _. apply forallb_not_at_absent. tauto.
  - intros i Hi. unfold occurs_at. rewrite skipn_app_lt by lia.
    destruct (skipn_nonempty pre i Hi) as (c & r & E). rewrite E.
    pose proof (forallb_skipn not_at pre i pre_plain) as F. rewrite E in F.
    simpl in F. apply andb_true_iff in F as [F _].
    change (starts_with ("@" ++ a) ((c :: r) ++ ("@" ++ a) ++ post))
      with (Ascii.eqb "@" c && starts_with a (r ++ ("@" ++ a) ++ post)).
    unfold not_at in F. apply negb_true_iff in F.
    rewrite Ascii.eqb_sym, F. reflexivity.
Qed.

Lemma names_differ : str_eqb a b = false.
Proof.
  apply str_eqb_neq. intros ->. rewrite <- (app_nil_r b) in not_prefix at 2.
  rewrite starts_with_app in not_prefix. discriminate.
Qed.

Lemma b_declared_first :
  substitute_vars (record_vars [(b, vb); (a, va)] []) text
  = pre ++ strip va ++ post.
Proof.
  rewrite record_two by apply names_differ.
  rewrite substitute_two.
  rewrite (replace_absent ("@" ++ b)).
  - apply replace_reference.
  - discriminate.
  - intros i _. apply b_absent.
Qed.

Lemma a_declared_first :
  substitute_vars (record_vars [(a, va); (b, vb)] []) text
  = replace ("@" ++ b) (strip vb) (pre ++ strip va ++ post).
Proof.
  rewrite record_two.
  - rewrite substitute_two. f_equal. apply replace_reference.
  - apply str_eqb_neq. intros E. pose proof names_differ as N.
    rewrite E, str_eqb_refl in N. discriminate.
Qed.
End Substitution.

(** ** Scanning line by line *)

Lemma sub_from_gather {A} (m : matcher A) f skip bol s :
  sub_from m f skip bol s = gather_from m f (fun c => [c]) skip bol s.
Proof.
  revert skip bol; induction s as [|c s IH]; intros skip bol; [reflexivity|].
  simpl. destruct skip; [|apply IH].
  destruct (m bol (c :: s)) as [[a n]|]; now rewrite IH.
Qed.

Lemma findall_from_gather {A} (m : matcher A) skip bol s :
  findall_from m skip bol s = gather_from m (fun a => [a]) (fun _ => []) skip bol s.
Proof.
  revert skip bol; induction s as [|c s IH]; intros skip bol; [reflexivity|].
  simpl. destruct skip; [|apply IH].
  destruct (m bol (c :: s)) as [[a n]|]; now rewrite IH.
Qed.

Section Lines.
Context {A X : Type} (m : matcher A) (h : A -> list X) (g : ascii -> list X).
Hypothesis local : line_local m.

Lemma gather_line l r skip b :
  forallb not_nl l = true -> skip <= length l ->
  gather_from m h g skip b (l ++ nl :: r)
  = gather_from m h g skip b l ++ g nl ++ gather_from m h g 0 true r.
Proof.
  revert skip b; induction l as [|c l IH]; intros skip b Hl Hs.
  - simpl in Hs. assert (skip = 0) as -> by lia.
    destruct (local b [] r eq_refl) as [E N]. simpl in E.
    cbn [gather_from app]. rewrite E.
    destruct (m b []) as [[a n]|] eqn:E0.
    + specialize (N a n eq_refl). simpl in N. lia.
    + reflexivity.
  - simpl in Hl. apply andb_true_iff in Hl as [Hc Hl].
    destruct (local b (c :: l) r) as [E N]; [simpl; now rewrite Hc|].
    change ((c :: l) ++ nl :: r) with (c :: (l ++ nl :: r)) in *.
    cbn [gather_from]. destruct skip.
    + rewrite E. destruct (m b (c :: l)) as [[a n]|] eqn:E0.
      * specialize (N a n eq_refl). simpl in N.
        rewrite IH by (auto; lia). now rewrite app_assoc.
      * rewrite IH by (auto; lia). now rewrite app_assoc.
    + rewrite IH; auto. simpl in Hs. lia.
Qed.

Lemma first_line (p : str) :
  ends_line p -> p <> [] ->
  exists l p', p = l ++ nl :: p' /\ forallb not_nl l = true /\ ends_line p'.
Proof.
  intros [->|[q ->]] Hne; [contradiction|].
  pose proof (span_app not_nl (q ++ [nl])) as E.
  pose proof (span_all not_nl (q ++ [nl])) as F.
  pose proof (span_stops not_nl (q ++ [nl])) as S.
  destruct (span not_nl (q ++ [nl])) as [l rest]. simpl in *.
  destruct rest as [|c p'].
  - rewrite app_nil_r in E. subst l. rewrite forallb_app in F.
    apply andb_true_iff in F as [_ F]. discriminate.
  - simpl in S. unfold not_nl in S. apply negb_false_iff in S.
    unfold is_nl in S. apply Ascii.eqb_eq in S. subst c.
    exists l, p'. split; [exact E|]. split; [exact F|].
    destruct p' as [|c p'] using rev_ind; [now left|].
    right. exists p'. f_equal.
    change (l ++ nl :: p' ++ [c]) with (l ++ (nl :: p') ++ [c]) in E.
    rewrite app_assoc in E. apply app_inj_tail in E as [_ E]. now subst.
Qed.

Lemma gather_lines_app (p x : str) :
  ends_line p ->
  gather_from m h g 0 true (p ++ x)
  = gather_from m h g 0 true p ++ gather_from m h g 0 true x.
Proof.
  induction p as [p IH] using (induction_ltof1 _ (@length ascii)).
  unfold ltof in IH. intro Hp.
  destruct p as [|c0 p0] eqn:Ep; [reflexivity|]. rewrite <- Ep in *.
  destruct (first_line p Hp) as (l & p' & E & Hl & Hp'); [congruence|].
  rewrite E, <- app_assoc. cbn [app].
  rewrite !gather_line by auto using Nat.le_0_l.
  rewrite IH; auto.
  - now rewrite <- !app_assoc.
  - rewrite E, length_app. simpl. lia.
Qed.

Lemma gather_line_rest (l q : str) :
  forallb not_nl l = true -> stops not_nl q ->
  gather_from m h g 0 true (l ++ q)
  = gather_from m h g 0 true l ++ gather_from m h g 0 true q.
Proof.
  intros Hl Hq. destruct q as [|c q].
  - now rewrite !app_nil_r.
  - simpl in Hq. unfold not_nl in Hq. apply negb_false_iff in Hq.
    unfold is_nl in Hq. apply Ascii.eqb_eq in Hq. subst c.
    rewrite gather_line by auto using Nat.le_0_l.
    f_equal. symmetry. apply (gather_line [] q 0 true eq_refl (Nat.le_0_l _)).
Qed.

Lemma gather_three (p l q : str) :
  ends_line p -> forallb not_nl l = true -> stops not_nl q ->
  gather_from m h g 0 true (p ++ l ++ q)
  = gather_from m h g 0 true p ++ gather_from m h g 0 true l
    ++ gather_from m h g 0 true q.
Proof.
  intros. rewrite gather_lines_app by assumption. now rewrite gather_line_rest.
Qed.
End Lines.

Section SubLines.
Context {A : Type} (m : matcher A) (f : A -> str).
Hypothesis local : line_local m.

Lemma re_sub_three (p l q : str) :
  ends_line p -> forallb not_nl l = true -> stops not_nl q ->
  re_sub m f (p ++ l ++ q) = re_sub m f p ++ re_sub m f l ++ re_sub m f q.
Proof.
  intros. unfold re_sub. rewrite !sub_from_gather. now apply gather_three.
Qed.

Lemma re_sub_ends_line (p : str) : ends_line p -> ends_line (re_sub m f p).
Proof.
  induction p as [p IH] using (induction_ltof1 _ (@length ascii)).
  unfold ltof in IH. intro Hp.
  destruct p as [|c0 p0] eqn:Ep; [now left|]. rewrite <- Ep in *.
  destruct (first_line p Hp) as (l & p' & E & Hl & Hp'); [congruence|].
  unfold re_sub. rewrite sub_from_gather, E.
  rewrite gather_line by auto using Nat.le_0_l.
  rewrite <- !sub_from_gather. fold (re_sub m f p').
  destruct (IH p') as [Z|[y Z]]; auto.
  - rewrite E, length_app. simpl. lia.
  - rewrite Z. right. eexists. reflexivity.
  - rewrite Z. right. exists (sub_from m f 0 true l ++ [nl] ++ y).
    now rewrite <- !app_assoc.
Qed.

Lemma re_sub_stops (q : str) : stops not_nl q -> stops not_nl (re_sub m f q).
Proof.
  destruct q as [|c q]; [trivial|]. intro H. pose proof H as H'.
  simpl in H. unfold not_nl in H. apply negb_false_iff in H.
  unfold is_nl in H. apply Ascii.eqb_eq in H. subst c.
  unfold re_sub. rewrite sub_from_gather.
  change (nl :: q) with ([] ++ nl :: q).
  rewrite (gather_line m f (fun c => [c]) local [] q 0 true eq_refl (Nat.le_0_l _)).
  exact H'.
Qed.
End SubLines.

Lemma re_findall_three {A} (m : matcher A) (p l q : str) :
  line_local m ->
  ends_line p -> forallb not_nl l = true -> stops not_nl q ->
  re_findall m (p ++ l ++ q) = re_findall m p ++ re_findall m l ++ re_findall m q.
Proof.
  intros. unfold re_findall. rewrite !findall_from_gather. now apply gather_three.
Qed.

(** ** Patterns that stay on their line *)

Lemma starts_with_line (p l r : str) :
  forallb not_nl p = true ->
  starts_with p (l ++ nl :: r) = starts_with p l.
Proof.
  revert l; induction p as [|x p IH]; intros l Hp; [reflexivity|].
  simpl in Hp. apply andb_true_iff in Hp as [Hx Hp].
  destruct l as [|y l]; simpl.
  - unfold not_nl, is_nl in Hx. apply negb_true_iff in Hx. now rewrite Hx.
  - now rewrite IH.
Qed.

Lemma rest_of_line_local : cont_local (greedy_plus not_nl (eol done)).
Proof.
  intros l r Hl.
  assert (G : forall l', forallb not_nl l' = true ->
                greedy_star not_nl (eol done) (l' ++ nl :: r) = Some ((l', tt), length l' + 0)
                /\ greedy_star not_nl (eol done) l' = Some ((l', tt), length l' + 0)).
  { intros l' Hl'. split.
    - apply greedy_star_run; auto; reflexivity.
    - rewrite <- (app_nil_r l') at 1. apply greedy_star_run; auto; reflexivity. }
  destruct l as [|c l]; [split; [reflexivity|discriminate]|].
  simpl in Hl. apply andb_true_iff in Hl as [Hc Hl].
  destruct (G l Hl) as [G1 G2].
  unfold greedy_plus. cbn [app]. rewrite Hc, G1, G2. split; [reflexivity|].
  simpl. intros a n H. injection H as _ <-. lia.
Qed.

Lemma lit_local {A} (p : str) (k : cont A) :
  forallb not_nl p = true -> cont_local k -> cont_local (lit p k).
Proof.
  intros Hp Hk l r Hl. unfold lit. rewrite starts_with_line by assumption.
  destruct (starts_with p l) eqn:E; [|split; [reflexivity|discriminate]].
  apply starts_with_split in E. set (l2 := skipn (length p) l) in *.
  assert (Hl2 : forallb not_nl l2 = true) by now apply forallb_skipn.
  rewrite E at 1. rewrite <- app_assoc, skipn_app_length.
  destruct (Hk l2 r Hl2) as [E2 N]. rewrite E2. split; [reflexivity|].
  intros a n H. destruct (k l2) as [[a' n']|]; [|discriminate].
  simpl in H. injection H as _ <-. specialize (N _ _ eq_refl).
  rewrite E, length_app. lia.
Qed.

Lemma one_local {A} (f : ascii -> bool) (k : cont A) :
  f nl = false -> cont_local k -> cont_local (one f k).
Proof.
  intros Hf Hk l r Hl. destruct l as [|c l].
  - simpl. rewrite Hf. split; [reflexivity|discriminate].
  - simpl in Hl. apply andb_true_iff in Hl as [_ Hl].
    destruct (Hk l r Hl) as [E N]. cbn [one app]. rewrite E.
    split; [reflexivity|]. intros a n H.
    destruct (f c); [|discriminate]. destruct (k l) as [[a' n']|]; [|discriminate].
    simpl in H. injection H as _ <-. specialize (N _ _ eq_refl). simpl. lia.
Qed.

Lemma advance0_local {A B} (f : A -> B) (k : cont A) :
  cont_local k -> cont_local (fun s => advance 0 f (k s)).
Proof.
  intros Hk l r Hl. destruct (Hk l r Hl) as [E N]. rewrite E.
  split; [reflexivity|]. intros a n H.
  destruct (k l) as [[a' n']|]; [|discriminate]. simpl in H.
  injection H as _ <-. now apply (N a').
Qed.

Lemma pmap_local {A B} (f : A -> B) (k : cont A) :
  cont_local k -> cont_local (pmap f k).
Proof. apply advance0_local. Qed.

Lemma greedy_upto_local {A} (n : nat) (f : ascii -> bool) (k : cont A) :
  f nl = false -> cont_local k -> cont_local (greedy_upto n f k).
Proof.
  intros Hf Hk. induction n as [|n IH].
  - apply (advance0_local (fun a => ([], a)) k Hk).
  - intros l r Hl.
    destruct (Hk l r Hl) as [Ek Nk].
    assert (N0 : forall a m, advance 0 (fun a => ([] : str, a)) (k l) = Some (a, m) ->
                             m <= length l).
    { intros a m H. destruct (k l) as [[a' n']|]; [|discriminate]. simpl in H.
      injection H as _ <-. now apply (Nk a'). }
    destruct l as [|c l].
    + cbn [greedy_upto app] in *. rewrite Hf, Ek. split; [reflexivity|exact N0].
    + simpl in Hl. apply andb_true_iff in Hl as [Hc Hl].
      destruct (IH l r Hl) as [E N].
      cbn [greedy_upto app] in *. rewrite E, Ek.
      split; [reflexivity|]. intros a m H.
      destruct (f c); [|now apply (N0 a)].
      destruct (greedy_upto n f k l) as [[[g' a'] n']|]; [|now apply (N0 a)].
      injection H as _ <-. specialize (N _ _ eq_refl). simpl. lia.
Qed.

Lemma lit_positive {A} (p : str) (k : cont A) : p <> [] -> positive (lit p k).
Proof.
  intros Hp s a n H. apply lit_inv in H as (r & m & _ & _ & ->).
  destruct p; [contradiction|]. simpl. lia.
Qed.

Lemma one_positive {A} (f : ascii -> bool) (k : cont A) : positive (one f k).
Proof.
  intros s a n H. destruct s as [|c s]; [discriminate|]. simpl in H.
  destruct (f c); [|discriminate]. destruct (k s) as [[a' n']|]; [|discriminate].
  simpl in H. injection H as _ <-. lia.
Qed.

Lemma pmap_positive {A B} (f : A -> B) (k : cont A) : positive k -> positive (pmap f k).
Proof.
  intros Hk s a n H. unfold pmap in H. destruct (k s) as [[a' n']|] eqn:E; [|discriminate].
  simpl in H. injection H as _ <-. eauto.
Qed.

Lemma at_bol_local {A} (k : cont A) :
  cont_local k -> positive k -> line_local (at_bol k).
Proof.
  intros Hk Hp b l r Hl. unfold at_bol. destruct b.
  - destruct (Hk l r Hl) as [E N]. split; [exact E|].
    intros a n H. split; eauto.
  - split; [reflexivity|discriminate].
Qed.

Lemma anywhere_local {A} (k : cont A) :
  cont_local k -> positive k -> line_local (anywhere k).
Proof.
  intros Hk Hp b l r Hl. unfold anywhere.
  destruct (Hk l r Hl) as [E N]. split; [exact E|].
  intros a n H. split; eauto.
Qed.

Lemma done_local : cont_local done.
Proof. intros l r _. split; [reflexivity|]. intros a n H. injection H as _ <-. lia. Qed.

Lemma hashes_pattern_local (marks : str) :
  forallb not_nl marks = true -> line_local (hashes_pattern marks).
Proof.
  intro H. apply at_bol_local.
  - apply pmap_local. apply lit_local.
    + rewrite forallb_app, H. reflexivity.
    + apply rest_of_line_local.
  - apply pmap_positive. apply lit_positive. destruct marks; discriminate.
Qed.

Lemma heading_pattern_local : line_local heading_pattern.
Proof.
  apply at_bol_local.
  - apply pmap_local. apply one_local; [reflexivity|].
    apply greedy_upto_local; [reflexivity|].
    apply lit_local; [reflexivity|]. apply rest_of_line_local.
  - apply pmap_positive. apply one_positive.
Qed.

Lemma literal_local (old : str) :
  old <> [] -> forallb not_nl old = true -> line_local (anywhere (lit old done)).
Proof.
  intros Hne H. apply anywhere_local.
  - apply lit_local; [assumption|apply done_local].
  - now apply lit_positive.
Qed.

(** ** One line *)

Lemma sub_from_mid_line {A} (k : cont A) (f : A -> str) (l : str) :
  forallb not_nl l = true -> sub_from (at_bol k) f 0 false l = l.
Proof.
  induction l as [|c l IH]; [reflexivity|]. simpl. intro H.
  apply andb_true_iff in H as [Hc H]. unfold not_nl in Hc.
  apply negb_true_iff in Hc. rewrite Hc. f_equal. auto.
Qed.

Lemma findall_from_mid_line {A} (k : cont A) (l : str) :
  forallb not_nl l = true -> findall_from (at_bol k) 0 false l = [].
Proof.
  induction l as [|c l IH]; [reflexivity|]. simpl. intro H.
  apply andb_true_iff in H as [Hc H]. unfold not_nl in Hc.
  apply negb_true_iff in Hc. rewrite Hc. auto.
Qed.

Lemma re_sub_line_none {A} (k : cont A) (f : A -> str) (l : str) :
  forallb not_nl l = true -> k l = None -> re_sub (at_bol k) f l = l.
Proof.
  intros Hl Hk. destruct l as [|c l]; [reflexivity|].
  unfold re_sub. cbn [sub_from at_bol]. rewrite Hk.
  simpl in Hl. apply andb_true_iff in Hl as [Hc Hl]. unfold not_nl in Hc.
  apply negb_true_iff in Hc. rewrite Hc. f_equal. now apply sub_from_mid_line.
Qed.

Lemma re_sub_line_all {A} (k : cont A) (f : A -> str) (l : str) a :
  l <> [] -> k l = Some (a, length l) -> re_sub (at_bol k) f l = f a.
Proof.
  intros Hne Hk.
  pose proof (sub_from_match (at_bol k) f l true [] a Hne) as E.
  rewrite app_nil_r in E. unfold re_sub. rewrite E by exact Hk.
  destruct (bol_after true l); simpl; apply app_nil_r.
Qed.

Lemma re_findall_line_all {A} (k : cont A) (l : str) a :
  l <> [] -> k l = Some (a, length l) -> re_findall (at_bol k) l = [a].
Proof.
  intros Hne Hk.
  pose proof (findall_from_match (at_bol k) l true [] a Hne) as E.
  rewrite app_nil_r in E. unfold re_findall. rewrite E by exact Hk.
  destruct (bol_after true l); reflexivity.
Qed.

(** ** Characters kept on a line *)

Lemma sub_from_forallb {A} (m : matcher A) (f : A -> str) (P : ascii -> bool) :
  (forall a, forallb P (f a) = true) ->
  forall s skip b, forallb P s = true -> forallb P (sub_from m f skip b s) = true.
Proof.
  intros Hf s. induction s as [|c s IH]; intros skip b H; [reflexivity|].
  simpl in H. apply andb_true_iff in H as [Hc H]. cbn [sub_from].
  destruct skip; [|now apply IH].
  destruct (m b (c :: s)) as [[a n]|].
  - rewrite forallb_app, Hf. simpl. now apply IH.
  - simpl. rewrite Hc. now apply IH.
Qed.

Lemma lower_char_not_nl (c : ascii) : not_nl c = true -> not_nl (lower_char c) = true.
Proof.
  destruct c as [[] [] [] [] [] [] [] []]; vm_compute; intro H;
    first [reflexivity | discriminate H].
Qed.

Lemma slug_not_nl (g : str) : forallb not_nl g = true -> forallb not_nl (slug g) = true.
Proof.
  intro H. unfold slug. rewrite replace_unfold by discriminate.
  apply sub_from_forallb; [reflexivity|].
  unfold lower. rewrite forallb_forall in *. intros x Hx.
  apply in_map_iff in Hx as (c & <- & Hc). apply lower_char_not_nl. auto.
Qed.

Lemma heading_tag_not_nl (n : nat) (g : str) :
  n <= 3 -> forallb not_nl g = true -> forallb not_nl (heading_tag n g) = true.
Proof.
  intros Hn Hg. unfold heading_tag, quoted, str_of_level.
  repeat rewrite forallb_app. rewrite slug_not_nl, Hg by assumption.
  assert (not_nl (digit n) = true) as D.
  { assert (n = 0 \/ n = 1 \/ n = 2 \/ n = 3) as [->|[->|[->| ->]]] by lia;
      reflexivity. }
  cbn [forallb]. rewrite D. reflexivity.
Qed.

(** ** A heading line *)

Section HeadingLine.
Variables (marks g : str).
Hypothesis marks_level : In marks ["#" : str; "##" : str; "###" : str].
Hypothesis g_text : g <> [] /\ forallb not_nl g = true.
Hypothesis toc_absent : forall i, occurs_at "@toc" g i = false.

Let line := marks ++ " " ++ g.

Lemma line_not_nl : forallb not_nl line = true.
Proof.
  unfold line. destruct g_text as [_ Hg].
  destruct marks_level as [<-|[<-|[<-|[]]]]; simpl; exact Hg.
Qed.

Lemma rest_of_line_here :
  greedy_plus not_nl (eol done) g = Some ((g, tt), length g + 0).
Proof.
  destruct g_text as [Hne Hg]. rewrite <- (app_nil_r g) at 1.
  apply greedy_plus_run; auto; reflexivity.
Qed.

Lemma heading_pattern_line :
  re_findall heading_pattern line = [(length marks, g)].
Proof.
  pose proof rest_of_line_here as R.
  apply re_findall_line_all.
  - unfold line. destruct marks; discriminate.
  - unfold line, pmap.
    destruct marks_level as [<-|[<-|[<-|[]]]]; cbn -[greedy_plus eol];
      rewrite R; cbn; do 2 f_equal; lia.
Qed.

Lemma hashes_pattern_same :
  re_sub (hashes_pattern marks) (heading_tag (length marks)) line
  = heading_tag (length marks) g.
Proof.
  pose proof rest_of_line_here as R.
  apply (re_sub_line_all _ _ line g).
  - unfold line. destruct marks; discriminate.
  - unfold line, pmap. rewrite app_assoc, lit_app, R. simpl.
    rewrite !length_app. simpl. do 2 f_equal. lia.
Qed.

Lemma hashes_pattern_other (other : str) (f : str -> str) :
  In other ["#" : str; "##" : str; "###" : str] -> other <> marks ->
  re_sub (hashes_pattern other) f line = line.
Proof.
  intros Ho Hd. apply re_sub_line_none; [apply line_not_nl|].
  unfold line, pmap. rewrite lit_none; [reflexivity|].
  destruct marks_level as [<-|[<-|[<-|[]]]];
    destruct Ho as [<-|[<-|[<-|[]]]]; try contradiction; reflexivity.
Qed.

Lemma toc_absent_line (toc : str) : replace "@toc" toc line = line.
Proof.
  apply replace_absent; [discriminate|]. intros i _. unfold line.
  destruct marks_level as [<-|[<-|[<-|[]]]].
  - destruct i as [|[|i]]; try reflexivity. apply toc_absent.
  - destruct i as [|[|[|i]]]; try reflexivity. apply toc_absent.
  - destruct i as [|[|[|[|i]]]]; try reflexivity. apply toc_absent.
Qed.

End HeadingLine.

Lemma hashes_pattern_tag (g other : str) (f : str -> str) (n : nat) :
  n <= 3 -> forallb not_nl g = true ->
  re_sub (hashes_pattern (("#" : str) ++ other)) f (heading_tag n g)
  = heading_tag n g.
Proof.
  intros Hn Hg. apply re_sub_line_none; [now apply heading_tag_not_nl|reflexivity].
Qed.

Lemma marks_length (marks : str) :
  In marks ["#" : str; "##" : str; "###" : str] -> length marks <= 3.
Proof. intros [<-|[<-|[<-|[]]]]; simpl; lia. Qed.

Lemma headings_line (p l q l3 l2 l1 : str) :
  ends_line p -> stops not_nl q -> forallb not_nl l = true ->
  re_sub (hashes_pattern "###") (heading_tag 3) l = l3 -> forallb not_nl l3 = true ->
  re_sub (hashes_pattern "##") (heading_tag 2) l3 = l2 -> forallb not_nl l2 = true ->
  re_sub (hashes_pattern "#") (heading_tag 1) l2 = l1 ->
  headings (p ++ l ++ q) = headings p ++ l1 ++ headings q.
Proof.
  intros Hp Hq Hl E3 H3 E2 H2 E1. unfold headings.
  rewrite (re_sub_three (hashes_pattern "###")) by
    (auto; now apply hashes_pattern_local).
  rewrite E3.
  rewrite (re_sub_three (hashes_pattern "##")); auto.
  - rewrite E2.
    rewrite (re_sub_three (hashes_pattern "#")); auto.
    + now rewrite E1.
    + now apply hashes_pattern_local.
    + apply re_sub_ends_line; [now apply hashes_pattern_local|].
      apply re_sub_ends_line; [now apply hashes_pattern_local|assumption].
    + apply re_sub_stops; [now apply hashes_pattern_local|].
      apply re_sub_stops; [now apply hashes_pattern_local|assumption].
  - now apply hashes_pattern_local.
  - apply re_sub_ends_line; [now apply hashes_pattern_local|assumption].
  - apply re_sub_stops; [now apply hashes_pattern_local|assumption].
Qed.


(** ** Lines *)

Lemma is_nl_true (c : ascii) : is_nl c = true -> c = nl.
Proof. unfold is_nl. apply Ascii.eqb_eq. Qed.

Lemma lines_of_nonempty (s : str) : lines_of s <> [].
Proof.
  induction s as [|c s IH]; simpl; [discriminate|].
  destruct (is_nl c); [discriminate|]. destruct (lines_of s); discriminate.
Qed.

Lemma lines_of_line (l : str) : forallb not_nl l = true -> lines_of l = [l].
Proof.
  induction l as [|c l IH]; simpl; [reflexivity|]. intro H.
  apply andb_true_iff in H as [Hc H]. unfold not_nl in Hc.
  apply negb_true_iff in Hc. rewrite Hc, IH by assumption. reflexivity.
Qed.

Lemma lines_of_app (x y : str) :
  lines_of (x ++ nl :: y) = lines_of x ++ lines_of y.
Proof.
  induction x as [|c x IH]; [reflexivity|]. cbn [app lines_of].
  destruct (is_nl c); rewrite IH; [reflexivity|].
  pose proof (lines_of_nonempty x). destruct (lines_of x); [contradiction|reflexivity].
Qed.

Lemma lines_of_cons (l r : str) :
  forallb not_nl l = true -> lines_of (l ++ nl :: r) = l :: lines_of r.
Proof. intro H. now rewrite lines_of_app, lines_of_line. Qed.

Lemma join_lines_cons (l : str) (ls : list str) :
  ls <> [] -> join_lines (l :: ls) = l ++ nl :: join_lines ls.
Proof. destruct ls; [contradiction|reflexivity]. Qed.

Lemma join_lines_of (s : str) : join_lines (lines_of s) = s.
Proof.
  induction s as [|c s IH]; [reflexivity|]. cbn [lines_of].
  pose proof (lines_of_nonempty s) as N.
  destruct (is_nl c) eqn:E.
  - apply is_nl_true in E. subst c. rewrite join_lines_cons by assumption.
    now rewrite IH.
  - destruct (lines_of s) as [|l ls]; [contradiction|].
    rewrite <- IH. destruct ls; reflexivity.
Qed.

Lemma lines_of_not_nl (s : str) : Forall (fun l => forallb not_nl l = true) (lines_of s).
Proof.
  induction s as [|c s IH]; simpl; [repeat constructor|].
  destruct (is_nl c) eqn:E; [constructor; auto|].
  destruct (lines_of s) as [|l ls]; [repeat constructor; simpl; unfold not_nl; now rewrite E|].
  inversion IH; subst. constructor; auto. simpl. unfold not_nl at 1. now rewrite E.
Qed.

(** The lines of lines joined, each of which may hold several lines. *)
Lemma lines_of_join (xs : list str) :
  xs <> [] -> lines_of (join_lines xs) = flat_map lines_of xs.
Proof.
  induction xs as [|x xs IH]; [contradiction|]. intros _.
  destruct xs as [|y xs].
  - simpl. now rewrite app_nil_r.
  - rewrite join_lines_cons by discriminate. rewrite lines_of_app, IH by discriminate.
    reflexivity.
Qed.

(** Induction on a text, line by line. *)
Lemma line_induction (P : str -> Prop) :
  (forall l, forallb not_nl l = true -> P l) ->
  (forall l r, forallb not_nl l = true -> P r -> P (l ++ nl :: r)) ->
  forall s, P s.
Proof.
  intros Hone Hmore s.
  induction s as [s IH] using (induction_ltof1 _ (@length ascii)). unfold ltof in IH.
  pose proof (span_app not_nl s) as E.
  pose proof (span_all not_nl s) as F.
  pose proof (span_stops not_nl s) as S.
  destruct (span not_nl s) as [l rest]. simpl in *.
  destruct rest as [|c r].
  - rewrite app_nil_r in E. subst. now apply Hone.
  - simpl in S. unfold not_nl in S. apply negb_false_iff in S.
    apply is_nl_true in S. subst c. rewrite E. apply Hmore; auto.
    apply IH. rewrite E, length_app. simpl. lia.
Qed.

(** ** Scans, line by line *)

Section ByLine.
Context {A : Type} (m : matcher A).
Hypothesis local : line_local m.

Lemma re_findall_cons (l r : str) :
  forallb not_nl l = true ->
  re_findall m (l ++ nl :: r) = re_findall m l ++ re_findall m r.
Proof.
  intro Hl. unfold re_findall. rewrite !findall_from_gather.
  rewrite gather_line by auto using Nat.le_0_l. reflexivity.
Qed.

Lemma re_findall_lines (s : str) :
  re_findall m s = flat_map (re_findall m) (lines_of s).
Proof.
  induction s as [l Hl|l r Hl IH] using line_induction.
  - rewrite lines_of_line by assumption. simpl. now rewrite app_nil_r.
  - rewrite re_findall_cons, lines_of_cons by assumption. simpl. now rewrite IH.
Qed.

Lemma re_sub_cons (f : A -> str) (l r : str) :
  forallb not_nl l = true ->
  re_sub m f (l ++ nl :: r) = re_sub m f l ++ nl :: re_sub m f r.
Proof.
  intro Hl. unfold re_sub. rewrite !sub_from_gather.
  rewrite gather_line by auto using Nat.le_0_l. reflexivity.
Qed.

Lemma re_sub_lines (f : A -> str) (s : str) :
  re_sub m f s = join_lines (map (re_sub m f) (lines_of s)).
Proof.
  induction s as [l Hl|l r Hl IH] using line_induction.
  - rewrite lines_of_line by assumption. reflexivity.
  - rewrite re_sub_cons, lines_of_cons by assumption.
    cbn [map]. rewrite join_lines_cons.
    + now rewrite IH.
    + pose proof (lines_of_nonempty r). destruct (lines_of r); [contradiction|discriminate].
Qed.
End ByLine.

(** The leftmost match is the first of all matches. *)
Lemma search_is_first {A} (m : matcher A) (s : str) (b : bool) :
  (forall b, m b [] = None) ->
  search_from m b s = hd_error (findall_from m 0 b s).
Proof.
  intro Hnil. revert b. induction s as [|c s IH]; intro b; simpl.
  - now rewrite Hnil.
  - destruct (m b (c :: s)) as [[a n]|]; [reflexivity|apply IH].
Qed.

Lemma re_search_first {A} (m : matcher A) (s : str) :
  (forall b, m b [] = None) -> re_search m s = hd_error (re_findall m s).
Proof. apply search_is_first. Qed.

(** ** The pattern on one line *)

Lemma occurs_at_beyond (p s : str) (i : nat) :
  p <> [] -> length s <= i -> occurs_at p s i = false.
Proof.
  intros Hp Hi. unfold occurs_at. rewrite skipn_all2 by assumption.
  destruct p; [contradiction|reflexivity].
Qed.

Lemma tidy_line_spec (l : str) :
  tidy_line l = true <-> forall i, occurs_at inc l (S i) = false.
Proof.
  unfold tidy_line. rewrite forallb_forall. split.
  - intros H i. destruct (Nat.lt_ge_cases i (length l)) as [Hi|Hi].
    + apply negb_true_iff. apply H. apply in_seq. lia.
    + apply occurs_at_beyond; [discriminate|lia].
  - intros H i _. now rewrite H.
Qed.

Lemma plain_line_spec (l : str) : plain_line l = true <-> absent inc l.
Proof.
  unfold plain_line. rewrite andb_true_iff, negb_true_iff, tidy_line_spec. split.
  - intros [H0 H] [|i]; auto.
  - intro H. split; intros; apply H.
Qed.

Lemma include_pattern_cont : include_pattern = anywhere include_cont.
Proof. reflexivity. Qed.

Lemma include_cont_nil : include_cont [] = None.
Proof. reflexivity. Qed.

Lemma include_cont_absent (s : str) (i : nat) :
  occurs_at inc s i = false -> include_cont (skipn i s) = None.
Proof. intro H. unfold include_cont, pmap. now rewrite lit_none. Qed.

Lemma greedy_plus_done_local : cont_local (greedy_plus not_nl done).
Proof.
  intros l r Hl. destruct l as [|c l]; [split; [reflexivity|discriminate]|].
  simpl in Hl. apply andb_true_iff in Hl as [Hc Hl].
  unfold greedy_plus. cbn [app]. rewrite Hc.
  rewrite (greedy_star_run not_nl done l (nl :: r) tt 0); auto; try reflexivity.
  rewrite greedy_star_done.
  assert (E : fst (span not_nl l) = l).
  { clear -Hl. induction l as [|x l IH]; simpl in *; [reflexivity|].
    apply andb_true_iff in Hl as [Hx Hl]. rewrite Hx.
    destruct (span not_nl l) as [g r]. simpl in *. now rewrite IH. }
  rewrite E. split; [simpl; do 3 f_equal; lia|].
  simpl. intros a n H. injection H as _ <-. lia.
Qed.

Lemma include_pattern_local : line_local include_pattern.
Proof.
  rewrite include_pattern_cont. apply anywhere_local.
  - apply pmap_local. apply lit_local; [reflexivity|apply greedy_plus_done_local].
  - apply pmap_positive. apply lit_positive. discriminate.
Qed.

Lemma is_directive_spec (l : str) :
  is_directive l = true <-> exists g, l = inc ++ g /\ g <> [].
Proof.
  unfold is_directive. rewrite andb_true_iff, negb_true_iff, Nat.leb_gt. split.
  - intros [H1 H2]. apply starts_with_split in H1.
    exists (skipn (length inc) l). split; [exact H1|].
    intro E. rewrite E, app_nil_r in H1. rewrite H1 in H2. simpl in H2. lia.
  - intros (g & -> & Hg). split; [apply starts_with_app|].
    rewrite length_app. destruct g; [contradiction|]. simpl. lia.
Qed.

Lemma findall_directive_line (l : str) :
  forallb not_nl l = true -> tidy_line l = true ->
  re_findall include_pattern l
  = if is_directive l then [(l, skipn 9 l)] else [].
Proof.
  intros Hl Ht. rewrite tidy_line_spec in Ht. rewrite include_pattern_cont.
  destruct (is_directive l) eqn:D.
  - apply is_directive_spec in D as (g & -> & Hg).
    change (skipn 9 (inc ++ g)) with g.
    pose proof (re_findall_match include_cont (inc ++ g) [] (inc ++ g, g)) as E.
    rewrite app_nil_r in E. rewrite E; [reflexivity|discriminate|].
    unfold include_cont, pmap, inc. rewrite lit_app.
    rewrite <- (app_nil_r g) at 1.
    rewrite (greedy_plus_run not_nl done g [] tt 0); auto; try reflexivity.
    simpl. do 2 f_equal. lia.
  - apply re_findall_absent. intros [|i]; [|now apply include_cont_absent].
    simpl. destruct (starts_with inc l) eqn:E; [|now apply (include_cont_absent l 0)].
    apply starts_with_split in E.
    destruct (skipn (length inc) l) as [|c g] eqn:G.
    + rewrite E, app_nil_r. reflexivity.
    + assert (is_directive l = true); [|congruence].
      apply is_directive_spec. exists (c :: g). split; [exact E|discriminate].
Qed.

Lemma findall_plain_line (l : str) :
  absent inc l -> re_findall include_pattern l = [].
Proof.
  intro H. rewrite include_pattern_cont. apply re_findall_absent.
  intro i. now apply include_cont_absent.
Qed.

Lemma re_search_include (t : str) :
  re_search include_pattern t = hd_error (re_findall include_pattern t).
Proof. apply re_search_first. reflexivity. Qed.

Lemma flat_map_flat_map {A B C} (f : B -> list C) (g : A -> list B) (l : list A) :
  flat_map f (flat_map g l) = flat_map (fun x => flat_map f (g x)) l.
Proof.
  induction l as [|x l IH]; [reflexivity|]. simpl.
  now rewrite flat_map_app, IH.
Qed.

Lemma map_flat_map {A B C} (f : B -> C) (g : A -> list B) (l : list A) :
  map f (flat_map g l) = flat_map (fun x => map f (g x)) l.
Proof.
  induction l as [|x l IH]; [reflexivity|]. simpl. now rewrite map_app, IH.
Qed.

Lemma flat_map_map {A B C} (f : B -> list C) (g : A -> B) (l : list A) :
  flat_map f (map g l) = flat_map (fun x => f (g x)) l.
Proof. induction l as [|x l IH]; [reflexivity|]. simpl. now rewrite IH. Qed.

Lemma includes_lines base_dir (t : str) :
  includes base_dir t = flat_map (includes base_dir) (lines_of t).
Proof.
  unfold includes. rewrite (re_findall_lines _ include_pattern_local).
  apply map_flat_map.
Qed.

Lemma includes_join base_dir (xs : list str) :
  xs <> [] -> includes base_dir (join_lines xs) = flat_map (includes base_dir) xs.
Proof.
  intro H. rewrite includes_lines, lines_of_join by assumption.
  rewrite flat_map_flat_map. apply flat_map_ext. intro x.
  symmetry. apply includes_lines.
Qed.

Lemma hd_error_flat_map {A B} (f : A -> list B) (l : list A) b :
  hd_error (flat_map f l) = Some b -> exists x, In x l /\ hd_error (f x) = Some b.
Proof.
  induction l as [|x l IH]; [discriminate|]. simpl.
  destruct (f x) as [|y ys] eqn:E.
  - intro H. destruct (IH H) as (x' & Hin & Hx). eauto.
  - simpl. intro H. exists x. rewrite E. auto.
Qed.

(** ** Substrings *)

Lemma absent_sub (p a s b : str) : absent p (a ++ s ++ b) -> absent p s.
Proof.
  intros H i. specialize (H (length a + i)). rewrite occurs_at_shift in H.
  destruct (occurs_at p s i) eqn:E; [|reflexivity].
  unfold occurs_at in *. apply starts_with_iff in E as [r E].
  destruct (Nat.le_gt_cases i (length s)) as [Hi|Hi].
  - rewrite skipn_app_lt, E, <- app_assoc, starts_with_app in H by assumption.
    discriminate.
  - rewrite skipn_all2 in E by lia. destruct p; [|discriminate].
    destruct (skipn i (s ++ b)); discriminate.
Qed.

Lemma lstrip_sub (s : str) : exists a, s = a ++ lstrip s.
Proof. exists (fst (span is_space s)). unfold lstrip. apply span_app. Qed.

Lemma strip_sub (s : str) : exists a b, s = a ++ strip s ++ b.
Proof.
  unfold strip. destruct (lstrip_sub s) as [a Ha].
  destruct (lstrip_sub (rev (lstrip s))) as [b Hb].
  exists a, (rev b). rewrite <- rev_app_distr, <- Hb, rev_involutive. exact Ha.
Qed.

Lemma forallb_sub {A} (f : A -> bool) (a s b : list A) :
  forallb f (a ++ s ++ b) = true -> forallb f s = true.
Proof.
  rewrite !forallb_app. intro H. apply andb_true_iff in H as [_ H].
  apply andb_true_iff in H. tauto.
Qed.

Lemma starts_with_In (p w rest : str) (c : ascii) :
  starts_with p (w ++ c :: rest) = true -> length w < length p -> In c p.
Proof.
  revert w; induction p as [|x p IH]; intros w H Hw; simpl in Hw; [lia|].
  destruct w as [|y w]; simpl in H; apply andb_true_iff in H as [H1 H2].
  - apply Ascii.eqb_eq in H1. now left.
  - right. apply (IH w); auto. simpl in Hw. lia.
Qed.

Lemma missing_include_plain (u : str) :
  absent inc u -> absent inc (missing_include u).
Proof.
  intros H i. unfold missing_include.
  set (m1 := list_ascii_of_string "<div class='error'>Missing include: ").
  set (m2 := list_ascii_of_string "</div>").
  destruct (occurs_at inc (m1 ++ u ++ m2) i) eqn:E; [|reflexivity]. exfalso.
  destruct (Nat.lt_ge_cases i (length m1)) as [Hi|Hi].
  - unfold occurs_at in E. rewrite skipn_app_lt in E by lia.
    destruct (skipn_nonempty m1 i Hi) as (c & r & Ec). rewrite Ec in E.
    assert (F : forallb not_at (skipn i m1) = true) by (apply forallb_skipn; reflexivity).
    rewrite Ec in F. simpl in F. apply andb_true_iff in F as [F _].
    change (starts_with inc ((c :: r) ++ u ++ m2))
      with (Ascii.eqb "@" c && starts_with "include " (r ++ u ++ m2)) in E.
    unfold not_at in F. apply negb_true_iff in F.
    rewrite Ascii.eqb_sym, F in E. discriminate.
  - replace i with (length m1 + (i - length m1)) in E by lia.
    rewrite occurs_at_shift in E. set (j := i - length m1) in *.
    destruct (Nat.lt_ge_cases j (length u)) as [Hj|Hj].
    + destruct (Nat.le_gt_cases (j + length inc) (length u)) as [Hfit|Hout].
      * rewrite occurs_at_within in E by assumption. rewrite H in E. discriminate.
      * unfold occurs_at in E. rewrite skipn_app_lt in E by lia.
        apply (starts_with_In inc (skipn j u) "/div>" "<") in E.
        -- unfold inc in E. simpl in E. intuition discriminate.
        -- rewrite length_skipn. lia.
    + replace j with (length u + (j - length u)) in E by lia.
      rewrite occurs_at_shift in E.
      change inc with (list_ascii_of_string "@" ++ list_ascii_of_string "include ") in E.
      rewrite forallb_not_at_absent in E by reflexivity. discriminate.
Qed.

Lemma missing_include_line (u : str) :
  forallb not_nl u = true -> forallb not_nl (missing_include u) = true.
Proof.
  intro H. unfold missing_include. rewrite !forallb_app, H. reflexivity.
Qed.

Lemma flat_map_ext_in {A B} (f g : A -> list B) (l : list A) :
  (forall x, In x l -> f x = g x) -> flat_map f l = flat_map g l.
Proof.
  induction l as [|x l IH]; [reflexivity|]. intro H. simpl.
  rewrite H by now left. rewrite IH; [reflexivity|]. intros. apply H. now right.
Qed.

(** ** The loop in a tidy world *)

Section World.
Variables (fs : filesystem) (base_dir : option str) (text0 : str).
Hypothesis tidy : tidy_world fs text0 = true.

Let known := known_lines fs text0.

Lemma known_tidy l : In l known -> tidy_line l = true.
Proof.
  unfold tidy_world in tidy. apply andb_true_iff in tidy as [H _].
  apply andb_true_iff in H as [H _]. rewrite forallb_forall in H. apply H.
Qed.

Lemma known_prefix_free d l :
  In d known -> In l known -> is_directive d = true ->
  starts_with d l = true -> l = d.
Proof.
  intros Hd Hl Hdir Hp.
  unfold tidy_world in tidy. apply andb_true_iff in tidy as [H _].
  apply andb_true_iff in H as [_ H]. unfold prefix_free in H.
  rewrite forallb_forall in H. specialize (H d Hd). rewrite Hdir in H.
  simpl in H. rewrite forallb_forall in H. specialize (H l Hl).
  rewrite Hp in H. simpl in H. now apply str_eqb_eq.
Qed.

Lemma lookup_in p n : fs_lookup fs p = Some n -> In (p, n) fs.
Proof.
  clear tidy known. induction fs as [|[q n'] fs' IH]; [discriminate|]. simpl.
  destruct (str_eqb p q) eqn:E.
  - intro H. injection H as ->. apply str_eqb_eq in E. subst. now left.
  - intro H. right. auto.
Qed.

Lemma no_directory_here p : fs_lookup fs p <> Some Directory.
Proof.
  intro H. apply lookup_in in H.
  unfold tidy_world in tidy. apply andb_true_iff in tidy as [_ N].
  unfold no_directory in N. rewrite forallb_forall in N.
  specialize (N _ H). discriminate.
Qed.

Lemma file_known p c l :
  fs_lookup fs p = Some (File c) -> In l (lines_of c) -> In l known.
Proof.
  intros H Hl. apply lookup_in in H. unfold known, known_lines.
  apply in_flat_map. exists c. split; [|exact Hl]. right.
  unfold contents. apply in_flat_map. exists (p, File c). split; [exact H|now left].
Qed.

Lemma inv_start : inv known text0.
Proof.
  apply Forall_forall. intros l Hl. left. unfold known, known_lines.
  apply in_flat_map. exists text0. split; [now left|exact Hl].
Qed.

Lemma line_ok_tidy l : (line_ok known) l -> tidy_line l = true.
Proof.
  intros [H|H]; [now apply known_tidy|].
  apply plain_line_spec in H. unfold plain_line in H.
  apply andb_true_iff in H. tauto.
Qed.

Lemma line_of_text t l : In l (lines_of t) -> forallb not_nl l = true.
Proof.
  intro H. pose proof (lines_of_not_nl t) as F. rewrite Forall_forall in F. auto.
Qed.

(** The directive the loop finds is a line of the text. *)
Lemma first_directive t d g :
  inv known t -> re_search include_pattern t = Some (d, g) ->
  In d (lines_of t) /\ is_directive d = true /\ g = skipn 9 d /\ In d known.
Proof.
  intros Hinv H. rewrite re_search_include in H.
  rewrite (re_findall_lines _ include_pattern_local) in H.
  apply hd_error_flat_map in H as (x & Hx & H).
  unfold inv in Hinv. rewrite Forall_forall in Hinv. specialize (Hinv x Hx).
  rewrite findall_directive_line in H
    by (eauto using line_of_text, line_ok_tidy).
  destruct (is_directive x) eqn:D; [|discriminate].
  simpl in H. injection H as <- <-. repeat split; auto.
  destruct Hinv as [K|P]; [exact K|].
  apply is_directive_spec in D as (g & -> & _).
  specialize (P 0).
  change (occurs_at inc (inc ++ g) 0) with (starts_with inc (inc ++ g)) in P.
  rewrite starts_with_app in P. discriminate.
Qed.

Lemma directive_elsewhere d x :
  In d known -> is_directive d = true -> (line_ok known) x -> x <> d -> absent d x.
Proof.
  intros Hd Hdir Hx Hne i.
  destruct (occurs_at d x i) eqn:E; [|reflexivity]. exfalso.
  pose proof Hdir as Hg. apply is_directive_spec in Hg as (g & Eg & _).
  assert (Einc : occurs_at inc x i = true).
  { rewrite Eg in E. now apply occurs_at_prefix in E. }
  destruct i as [|i].
  - destruct Hx as [K|P].
    + apply Hne. now apply (known_prefix_free d x).
    + rewrite P in Einc. discriminate.
  - pose proof (line_ok_tidy x Hx) as T. rewrite tidy_line_spec in T.
    rewrite T in Einc. discriminate.
Qed.

Lemma replace_lines t d new :
  inv known t -> In d known -> is_directive d = true ->
  replace d new t = join_lines (map (swap d new) (lines_of t)).
Proof.
  intros Hinv Hd Hdir.
  assert (Hne : d <> []).
  { apply is_directive_spec in Hdir as (g & -> & _). discriminate. }
  assert (Hl : forallb not_nl d = true).
  { unfold known, known_lines in Hd. apply in_flat_map in Hd as (s & _ & Hs).
    eauto using line_of_text. }
  rewrite replace_unfold by assumption.
  rewrite (re_sub_lines _ (literal_local d Hne Hl)).
  f_equal. apply map_ext_in. intros x Hx.
  rewrite <- replace_unfold by assumption. unfold swap.
  destruct (str_eqb x d) eqn:E.
  - apply str_eqb_eq in E. subst x.
    rewrite <- (app_nil_r d) at 2. rewrite replace_here by assumption.
    rewrite replace_unfold by assumption. apply app_nil_r.
  - apply replace_absent; [assumption|]. intros i _.
    apply directive_elsewhere; auto.
    + unfold inv in Hinv. rewrite Forall_forall in Hinv. auto.
    + intros ->. rewrite str_eqb_refl in E. discriminate.
Qed.

Lemma lines_after t d new :
  inv known t -> In d known -> is_directive d = true ->
  lines_of (replace d new t)
  = flat_map (fun x => if str_eqb x d then lines_of new else [x]) (lines_of t).
Proof.
  intros Hinv Hd Hdir. rewrite replace_lines by assumption.
  rewrite lines_of_join.
  - rewrite flat_map_map. apply flat_map_ext_in. intros x Hx. unfold swap.
    destruct (str_eqb x d); [reflexivity|].
    apply lines_of_line. eauto using line_of_text.
  - pose proof (lines_of_nonempty t). destruct (lines_of t); [contradiction|discriminate].
Qed.

Lemma inv_after t d new :
  inv known t -> In d known -> is_directive d = true ->
  Forall (line_ok known) (lines_of new) -> inv known (replace d new t).
Proof.
  intros Hinv Hd Hdir Hnew. unfold inv. rewrite lines_after by assumption.
  apply Forall_forall. intros l Hl. apply in_flat_map in Hl as (x & Hx & Hl).
  unfold inv in Hinv. rewrite Forall_forall in Hinv, Hnew.
  destruct (str_eqb x d); [auto|].
  destruct Hl as [<-|[]]. auto.
Qed.

Lemma includes_after t d new :
  inv known t -> In d known -> is_directive d = true ->
  includes base_dir (replace d new t)
  = flat_map (fun x => if str_eqb x d then includes base_dir new
                       else includes base_dir x) (lines_of t).
Proof.
  intros Hinv Hd Hdir. rewrite replace_lines by assumption.
  rewrite includes_join.
  - rewrite flat_map_map. apply flat_map_ext. intro x. unfold swap.
    now destruct (str_eqb x d).
  - pose proof (lines_of_nonempty t). destruct (lines_of t); [contradiction|discriminate].
Qed.

Lemma includes_directive d :
  In d known -> is_directive d = true -> includes base_dir d = [target base_dir d].
Proof.
  intros Hd Hdir. unfold includes.
  rewrite findall_directive_line, Hdir; [reflexivity| |now apply known_tidy].
  unfold known, known_lines in Hd. apply in_flat_map in Hd as (s & _ & Hs).
  eauto using line_of_text.
Qed.

Lemma marker_ok d :
  In d known -> is_directive d = true ->
  Forall (line_ok known) (lines_of (missing_include (strip (skipn 9 d))))
  /\ includes base_dir (missing_include (strip (skipn 9 d))) = [].
Proof.
  intros Hd Hdir. pose proof (known_tidy d Hd) as T. rewrite tidy_line_spec in T.
  assert (Hl : forallb not_nl d = true).
  { unfold known, known_lines in Hd. apply in_flat_map in Hd as (s & _ & Hs).
    eauto using line_of_text. }
  apply is_directive_spec in Hdir as (g & -> & Hg).
  change (skipn 9 (inc ++ g)) with g.
  assert (Ag : absent inc g).
  { intro i. specialize (T (8 + i)).
    change (S (8 + i)) with (length inc + i) in T.
    now rewrite occurs_at_shift in T. }
  destruct (strip_sub g) as (a & b & Eg).
  assert (As : absent inc (strip g)).
  { rewrite Eg in Ag. now apply absent_sub in Ag. }
  assert (Ls : forallb not_nl (strip g) = true).
  { unfold inc in Hl. rewrite forallb_app in Hl. apply andb_true_iff in Hl as [_ Hl].
    rewrite Eg in Hl. now apply forallb_sub in Hl. }
  pose proof (missing_include_plain _ As) as P.
  pose proof (missing_include_line _ Ls) as L.
  split.
  - rewrite lines_of_line by assumption. constructor; [now right|constructor].
  - unfold includes. now rewrite findall_plain_line.
Qed.

(** One turn of the loop, on the lines of the text. *)
Lemma step_spec t :
  inv known t ->
  (include_step fs base_dir t = Stop /\ re_search include_pattern t = None)
  \/ exists d new,
       include_step fs base_dir t = Next (replace d new t)
       /\ In d (lines_of t) /\ In d known /\ is_directive d = true
       /\ Forall (line_ok known) (lines_of new)
       /\ ((fs_lookup fs (target base_dir d) = Some (File new))
           \/ (fs_lookup fs (target base_dir d) = None /\ includes base_dir new = [])).
Proof.
  intro Hinv. unfold include_step.
  destruct (re_search include_pattern t) as [[d g]|] eqn:E; [|now left].
  right. destruct (first_directive t d g Hinv E) as (Hin & Hdir & -> & Hk).
  fold (target base_dir d).
  destruct (fs_lookup fs (target base_dir d)) as [[c|]|] eqn:L.
  - exists d, c. repeat split; auto.
    apply Forall_forall. intros l Hl. left. eapply file_known; eauto.
  - now apply no_directory_here in L.
  - destruct (marker_ok d Hk Hdir) as [M1 M2].
    exists d, (missing_include (strip (skipn 9 d))). repeat split; auto.
Qed.
End World.

(** ** What is left to expand *)

Lemma cost_ext base_dir (w w' : str -> nat) (t : str) :
  (forall q, In q (includes base_dir t) -> w q = w' q) ->
  cost base_dir w t = cost base_dir w' t.
Proof.
  intro H. unfold cost. f_equal. apply map_ext_in. intros q Hq. f_equal. auto.
Qed.

Lemma list_sum_flat_map {A} (f : A -> list nat) (l : list A) :
  list_sum (flat_map f l) = list_sum (map (fun x => list_sum (f x)) l).
Proof.
  induction l as [|x l IH]; [reflexivity|]. simpl. now rewrite list_sum_app, IH.
Qed.

Lemma sum_swap_lt {A} (same : A -> bool) (f : A -> nat) (a : nat) (l : list A) :
  (forall x, In x l -> same x = true -> a < f x) ->
  (exists x, In x l /\ same x = true) ->
  list_sum (map (fun x => if same x then a else f x) l) < list_sum (map f l).
Proof.
  intros Hlt Hex.
  assert (Hle : forall l', (forall x, In x l' -> same x = true -> a < f x) ->
                list_sum (map (fun x => if same x then a else f x) l')
                <= list_sum (map f l')).
  { induction l' as [|y l' IH]; intro H; simpl; [lia|].
    specialize (IH (fun x Hx => H x (or_intror Hx))).
    destruct (same y) eqn:E; [|lia]. specialize (H y (or_introl eq_refl) E). lia. }
  induction l as [|y l IH]; [destruct Hex as (x & [] & _)|]. simpl.
  destruct Hex as (x & [->|Hin] & Hx).
  - rewrite Hx. specialize (Hle l (fun z Hz => Hlt z (or_intror Hz))).
    specialize (Hlt x (or_introl eq_refl) Hx). lia.
  - assert (IH' : list_sum (map (fun x => if same x then a else f x) l)
                  < list_sum (map f l)).
    { apply IH; eauto. intros z Hz. apply Hlt. now right. }
    destruct (same y) eqn:E; [|lia]. specialize (Hlt y (or_introl eq_refl) E). lia.
Qed.

Section Weights.
Variables (fs : filesystem) (base_dir : option str) (rank : str -> nat).
Hypothesis acyclic : ranked fs base_dir rank = true.

Lemma lower_rank p c q :
  fs_lookup fs p = Some (File c) -> In q (includes base_dir c) -> rank q < rank p.
Proof.
  intros H Hq. apply lookup_in in H. unfold ranked in acyclic.
  rewrite forallb_forall in acyclic. specialize (acyclic _ H). simpl in acyclic.
  rewrite forallb_forall in acyclic. specialize (acyclic q Hq).
  now apply Nat.ltb_lt.
Qed.

Lemma weight_stable n m q :
  rank q < n -> rank q < m -> weight fs base_dir n q = weight fs base_dir m q.
Proof.
  revert m q. induction n as [|n IH]; intros m q Hn Hm; [lia|].
  destruct m as [|m]; [lia|]. simpl.
  destruct (fs_lookup fs q) as [[c|]|] eqn:L; try reflexivity.
  apply cost_ext. intros q' Hq'. pose proof (lower_rank q c q' L Hq').
  apply IH; lia.
Qed.

Lemma full_weight_file p c :
  fs_lookup fs p = Some (File c) ->
  cost base_dir (full_weight fs base_dir rank) c = full_weight fs base_dir rank p.
Proof.
  intro L. unfold full_weight at 2. simpl. rewrite L.
  apply cost_ext. intros q Hq. pose proof (lower_rank p c q L Hq).
  unfold full_weight. apply weight_stable; lia.
Qed.
End Weights.

Lemma resolve_returned_clean fuel fs base_dir t t' :
  resolve_includes fuel fs base_dir t = Returned t' ->
  re_search include_pattern t' = None.
Proof.
  revert t. induction fuel as [|fuel IH]; intro t; [discriminate|]. simpl.
  unfold include_step at 1.
  destruct (re_search include_pattern t) as [[d g]|] eqn:E.
  - destruct (fs_lookup fs _) as [[c|]|]; try discriminate; apply IH.
  - intro H. injection H as <-. exact E.
Qed.

Section Loop.
Variables (fs : filesystem) (base_dir : option str) (text0 : str).
Hypothesis tidy : tidy_world fs text0 = true.

Lemma cost_lines w t :
  cost base_dir w t = list_sum (map (cost base_dir w) (lines_of t)).
Proof.
  unfold cost at 1. rewrite includes_lines, map_flat_map, list_sum_flat_map.
  reflexivity.
Qed.

Lemma cost_after w t d new :
  inv (known_lines fs text0) t -> In d (known_lines fs text0) -> is_directive d = true ->
  cost base_dir w (replace d new t)
  = list_sum (map (fun x => if str_eqb x d then cost base_dir w new
                            else cost base_dir w x) (lines_of t)).
Proof.
  intros Hinv Hd Hdir. unfold cost at 1.
  rewrite (includes_after fs base_dir text0 tidy) by assumption.
  rewrite map_flat_map, list_sum_flat_map. f_equal. apply map_ext. intro x.
  now destruct (str_eqb x d).
Qed.

Lemma cost_drops w t d new :
  inv (known_lines fs text0) t -> In d (lines_of t) -> In d (known_lines fs text0) ->
  is_directive d = true ->
  cost base_dir w new <= w (target base_dir d) ->
  cost base_dir w (replace d new t) < cost base_dir w t.
Proof.
  intros Hinv Hin Hd Hdir Hle.
  rewrite cost_after, (cost_lines w t) by assumption.
  apply (sum_swap_lt (fun x => str_eqb x d)).
  - intros x _ E. apply str_eqb_eq in E. subst x.
    unfold cost at 2. rewrite (includes_directive fs base_dir text0 tidy) by assumption.
    simpl. lia.
  - exists d. split; [assumption|apply str_eqb_refl].
Qed.

Section Acyclic.
Variable rank : str -> nat.
Hypothesis acyclic : ranked fs base_dir rank = true.

Let w := full_weight fs base_dir rank.

Lemma loop_terminates n t :
  inv (known_lines fs text0) t -> cost base_dir w t <= n ->
  exists fuel t',
    resolve_includes fuel fs base_dir t = Returned t'
    /\ re_search include_pattern t' = None.
Proof.
  revert t. induction n as [|n IH]; intros t Hinv Hn.
  - destruct (step_spec fs base_dir text0 tidy t Hinv)
      as [[Hs Hnone]|(d & new & Hs & Hin & Hd & Hdir & Hnew & Hcase)].
    + exists 1, t. simpl. rewrite Hs. auto.
    + exfalso.
      assert (cost base_dir w (replace d new t) < cost base_dir w t).
      { apply cost_drops; auto.
        destruct Hcase as [L|[_ E]].
        - unfold w. rewrite (full_weight_file fs base_dir rank acyclic _ _ L).
          apply Nat.le_refl.
        - unfold cost. rewrite E. simpl. lia. }
      lia.
  - destruct (step_spec fs base_dir text0 tidy t Hinv)
      as [[Hs Hnone]|(d & new & Hs & Hin & Hd & Hdir & Hnew & Hcase)].
    + exists 1, t. simpl. rewrite Hs. auto.
    + assert (cost base_dir w (replace d new t) < cost base_dir w t).
      { apply cost_drops; auto.
        destruct Hcase as [L|[_ E]].
        - unfold w. rewrite (full_weight_file fs base_dir rank acyclic _ _ L).
          apply Nat.le_refl.
        - unfold cost. rewrite E. simpl. lia. }
      destruct (IH (replace d new t)) as (fuel & t' & Hr & Hc).
      * now apply (inv_after fs text0 tidy).
      * lia.
      * exists (S fuel), t'. simpl. rewrite Hs. auto.
Qed.
End Acyclic.

Section Cycle.
Variable paths : list str.
Hypothesis closed : trapped fs base_dir paths = true.

Lemma caught_after t d new :
  inv (known_lines fs text0) t -> caught base_dir paths t ->
  In d (known_lines fs text0) -> is_directive d = true ->
  (fs_lookup fs (target base_dir d) = Some (File new)
   \/ fs_lookup fs (target base_dir d) = None) ->
  caught base_dir paths (replace d new t).
Proof.
  intros Hinv (q & Hq & Hm) Hd Hdir Hcase. unfold caught.
  rewrite (includes_after fs base_dir text0 tidy) by assumption.
  rewrite includes_lines in Hq. apply in_flat_map in Hq as (x & Hx & Hq).
  destruct (str_eqb x d) eqn:E.
  - apply str_eqb_eq in E. subst x.
    rewrite (includes_directive fs base_dir text0 tidy) in Hq by assumption.
    destruct Hq as [<-|[]].
    unfold trapped in closed. rewrite forallb_forall in closed.
    unfold mem in Hm. apply existsb_exists in Hm as (p & Hp & Ep).
    apply str_eqb_eq in Ep. subst p. specialize (closed _ Hp).
    destruct Hcase as [L|L]; rewrite L in closed; [|discriminate].
    apply existsb_exists in closed as (q' & Hq' & Hm').
    exists q'. split; [|exact Hm'].
    apply in_flat_map. exists d. split; [assumption|].
    now rewrite str_eqb_refl.
  - exists q. split; [|exact Hm].
    apply in_flat_map. exists x. split; [assumption|]. now rewrite E.
Qed.

Lemma loop_never_ends fuel t :
  inv (known_lines fs text0) t -> caught base_dir paths t ->
  resolve_includes fuel fs base_dir t = OutOfFuel.
Proof.
  revert t. induction fuel as [|fuel IH]; intros t Hinv Hc; [reflexivity|].
  simpl.
  destruct (step_spec fs base_dir text0 tidy t Hinv)
    as [[Hs Hnone]|(d & new & Hs & Hin & Hd & Hdir & Hnew & Hcase)].
  - exfalso. destruct Hc as (q & Hq & _). unfold includes in Hq.
    rewrite re_search_include in Hnone.
    destruct (re_findall include_pattern t); [destruct Hq|discriminate].
  - rewrite Hs. apply IH.
    + now apply (inv_after fs text0 tidy).
    + apply caught_after; auto. tauto.
Qed.
End Cycle.
End Loop.

(** ** Checks of the side conditions *)

Lemma absent_below_spec (p s : str) (n : nat) :
  absent_below p s n = true -> forall i, i < n -> occurs_at p s i = false.
Proof.
  unfold absent_below. rewrite forallb_forall. intros H i Hi.
  apply negb_true_iff. apply H. apply in_seq. lia.
Qed.

Lemma absent_check (p s : str) :
  p <> [] -> absent_below p s (length s) = true ->
  forall i, occurs_at p s i = false.
Proof.
  intros Hp H i. destruct (Nat.lt_ge_cases i (length s)) as [Hi|Hi].
  - now apply (absent_below_spec p s (length s)).
  - now apply occurs_at_beyond.
Qed.

Lemma only_at_spec (p s : str) (n : nat) :
  p <> [] -> only_at p s n = true ->
  forall i, i <> n -> occurs_at p s i = false.
Proof.
  intros Hp H i Hi. destruct (Nat.lt_ge_cases i (length s)) as [Hlt|Hge].
  - unfold only_at in H. rewrite forallb_forall in H.
    specialize (H i). rewrite in_seq in H. specialize (H ltac:(lia)).
    apply orb_true_iff in H as [H|H].
    + apply Nat.eqb_eq in H. contradiction.
    + now apply negb_true_iff.
  - now apply occurs_at_beyond.
Qed.

(** ** Documents of several conditional blocks *)

Lemma closed_line_spec (s : str) :
  closed_line s = true -> s = [] \/ exists s', s = s' ++ [nl].
Proof.
  unfold closed_line. destruct (rev s) as [|c r] eqn:E.
  - intros _. left. apply (f_equal (@rev ascii)) in E.
    now rewrite rev_involutive in E.
  - intro H. right. exists (rev r). apply is_nl_true in H. subst c.
    apply (f_equal (@rev ascii)) in E. now rewrite rev_involutive in E.
Qed.

Lemma closed_line_app (s r : str) :
  closed_line s = true -> closed_line r = true -> closed_line (s ++ r) = true.
Proof.
  unfold closed_line. rewrite rev_app_distr.
  destruct (rev r) as [|c r']; simpl; auto.
Qed.

Lemma absent_below_all (p s : str) :
  p <> [] -> absent_below p s (length s) = true -> absent p s.
Proof.
  intros Hp H i. destruct (Nat.lt_ge_cases i (length s)) as [Hi|Hi].
  - unfold absent_below in H. rewrite forallb_forall in H.
    apply negb_true_iff. apply H. apply in_seq. lia.
  - now apply occurs_at_beyond.
Qed.

(** A pattern without line feed that does not occur in a closed line does
    not start in it either. *)
Lemma line_pattern_before (p s rest : str) (i : nat) :
  forallb not_nl p = true -> closed_line s = true -> absent p s ->
  i < length s -> occurs_at p (s ++ rest) i = false.
Proof.
  intros Hp Hc Ha Hi.
  destruct (occurs_at p (s ++ rest) i) eqn:E; [exfalso|reflexivity].
  destruct (Nat.le_gt_cases (i + length p) (length s)) as [Hfit|Hout].
  - rewrite occurs_at_within in E by assumption. rewrite Ha in E. discriminate.
  - apply closed_line_spec in Hc as [->|[s' ->]]; [simpl in Hi; lia|].
    rewrite length_app in Hi, Hout. simpl in Hi, Hout.
    unfold occurs_at in E. rewrite <- app_assoc in E.
    rewrite skipn_app_lt in E by lia.
    apply starts_with_In in E; [|rewrite length_skipn; lia].
    rewrite forallb_forall in Hp. specialize (Hp nl E). discriminate.
Qed.

Lemma absent_app_closed (p s r : str) :
  p <> [] -> forallb not_nl p = true -> closed_line s = true ->
  absent p s -> absent p r -> absent p (s ++ r).
Proof.
  intros Hne Hp Hc Hs Hr i.
  destruct (Nat.lt_ge_cases i (length s)) as [Hi|Hi].
  - now apply line_pattern_before.
  - replace i with (length s + (i - length s)) by lia.
    rewrite occurs_at_shift. apply Hr.
Qed.

Lemma occurs_at_extend (p s r : str) (i : nat) :
  p <> [] -> occurs_at p s i = true -> occurs_at p (s ++ r) i = true.
Proof.
  intros Hp H. unfold occurs_at in *.
  destruct (Nat.le_gt_cases i (length s)) as [Hi|Hi].
  - rewrite skipn_app_lt by assumption.
    apply starts_with_iff in H as [q ->]. rewrite <- app_assoc.
    apply starts_with_app.
  - rewrite skipn_all2 in H by lia. destruct p; [contradiction|discriminate].
Qed.

Definition if_cont : cont (str * str * str) :=
  pmap (fun '(var, (value, (block, _))) => (var, value, block))
       (lit "@if " (greedy_plus is_word
          (lit "=" (lazy_plus any_char
             (lit [nl] (lazy_star any_char (lit "@endif" done))))))).

Lemma if_cont_none (s : str) : starts_with "@if " s = false -> if_cont s = None.
Proof. intro H. unfold if_cont, pmap. now rewrite lit_none. Qed.

(** What the check of a block gives. *)
Record block_facts (s var value body : str) : Prop := {
  before_plain : absent "@if " s;
  before_closed : closed_line s = true;
  var_word : var <> [] /\ forallb is_word var = true;
  value_line : value <> [] /\ forallb not_nl value = true;
  body_open : forall i, i < length body ->
                occurs_at "@endif" (body ++ "@endif") i = false;
  body_closed : closed_line body = true;
  at_start_only : forall i, i <> 0 ->
                    occurs_at "@if " (if_directive var value body) i = false
}.

Lemma well_formed_facts s var value body :
  well_formed (s, (var, value, body)) = true -> block_facts s var value body.
Proof.
  unfold well_formed. rewrite !andb_true_iff, !negb_true_iff.
  intros ((((((((H1 & H2) & H3) & H4) & H5) & H6) & H7) & H8) & H9).
  constructor; auto.
  - apply absent_below_all; [discriminate|assumption].
  - split; [|assumption]. intros ->. discriminate.
  - split; [|assumption]. intros ->. discriminate.
  - now apply absent_below_spec.
  - apply only_at_spec; [discriminate|assumption].
Qed.

Section OneBlock.
Variables (s var value body : str).
Hypothesis facts : block_facts s var value body.

Let D := if_directive var value body.

Lemma directive_matches (rest : str) :
  if_cont (D ++ rest) = Some ((var, value, body), length D).
Proof.
  destruct facts. now apply K_directive.
Qed.

Lemma body_plain : absent "@if " body.
Proof.
  intro i. destruct (occurs_at "@if " body i) eqn:E; [exfalso|reflexivity].
  destruct facts as [_ _ _ _ _ _ Hat].
  set (H := "@if " ++ var ++ "=" ++ value ++ [nl]).
  assert (ED : D = H ++ body ++ "@endif").
  { unfold D, if_directive, H. now rewrite <- !app_assoc. }
  specialize (Hat (length H + i)). fold D in Hat. rewrite ED in Hat.
  rewrite occurs_at_shift in Hat.
  rewrite (occurs_at_extend "@if " body "@endif" i) in Hat;
    [|discriminate|assumption].
  assert (length H + i <> 0).
  { unfold H. rewrite length_app. simpl. discriminate. }
  specialize (Hat H0). discriminate.
Qed.

Lemma inside_directive (rest : str) (i : nat) :
  0 < i -> i < length D -> occurs_at "@if " (D ++ rest) i = false.
Proof.
  intros H0 Hi. destruct facts as [_ _ _ _ _ _ Hat].
  destruct (Nat.le_gt_cases (i + 4) (length D)) as [Hfit|Hout].
  - rewrite occurs_at_within by exact Hfit. apply Hat. lia.
  - set (D0 := "@if " ++ var ++ "=" ++ value ++ [nl] ++ body).
    assert (ED : D = D0 ++ "@endif").
    { unfold D, if_directive, D0. now rewrite <- !app_assoc. }
    clearbody D0. rewrite ED in *. rewrite length_app in Hi, Hout.
    simpl in Hi, Hout. rewrite <- app_assoc.
    replace i with (length D0 + (i - length D0)) by lia.
    rewrite occurs_at_shift.
    assert (J : i - length D0 = 3 \/ i - length D0 = 4 \/ i - length D0 = 5) by lia.
    destruct J as [-> | [-> | ->]]; reflexivity.
Qed.
End OneBlock.

(** Two directives that start at the same place are the same block. *)
Lemma same_directive s var value body s' var' value' body' rest :
  block_facts s var value body -> block_facts s' var' value' body' ->
  starts_with (if_directive var value body)
              (if_directive var' value' body' ++ rest) = true ->
  (var, value, body) = (var', value', body').
Proof.
  intros F F' H. apply starts_with_iff in H as [r Hr].
  pose proof (directive_matches s var value body F r) as M.
  pose proof (directive_matches s' var' value' body' F' rest) as M'.
  rewrite Hr, M in M'. injection M' as E1 E2 E3 _. congruence.
Qed.

Definition block_eqb (c c' : str * str * str) : bool :=
  let '(v, x, b) := c in
  let '(v', x', b') := c' in
  str_eqb v v' && str_eqb x x' && str_eqb b b'.

Lemma block_eqb_eq c c' : block_eqb c c' = true <-> c = c'.
Proof.
  destruct c as [[v x] b], c' as [[v' x'] b']. unfold block_eqb.
  rewrite !andb_true_iff, !str_eqb_eq. split.
  - intros [[-> ->] ->]. reflexivity.
  - intro H. injection H as -> -> ->. auto.
Qed.

Definition outcome_of (platform : option str) (c : str * str * str) : str :=
  let '(var, value, body) := c in
  if truthy platform && str_eqb var "PLATFORM" && opt_eqb platform value
  then body else [].

Definition directive_of (c : str * str * str) : str :=
  let '(var, value, body) := c in if_directive var value body.

Lemma eval_cond_replace platform t c :
  eval_cond platform t c = replace (directive_of c) (outcome_of platform c) t.
Proof.
  destruct c as [[var value] body]. unfold eval_cond, outcome_of, directive_of.
  now destruct (truthy platform && str_eqb var "PLATFORM" && opt_eqb platform value).
Qed.

(** The document when the blocks of [seen] have had their turn. *)
Definition partly (platform : option str) (seen : list (str * str * str))
  (blocks : list cond_block) (last : str) : str :=
  fold_right (fun '(s, c) rest =>
                s ++ (if existsb (block_eqb c) seen
                      then outcome_of platform c else directive_of c) ++ rest)
             last blocks.

Lemma partly_none platform blocks last :
  partly platform [] blocks last = document blocks last.
Proof.
  induction blocks as [|[s [[var value] body]] bs IH]; [reflexivity|].
  simpl. now rewrite IH.
Qed.

Section Document.
Variables (platform : option str) (last : str).
Hypothesis last_plain : absent "@if " last.

Lemma findall_document blocks :
  forallb well_formed blocks = true ->
  re_findall if_pattern (document blocks last) = map snd blocks.
Proof.
  change if_pattern with (anywhere if_cont).
  induction blocks as [|[s [[var value] body]] bs IH]; intro W.
  - simpl. apply re_findall_absent. intro i. apply if_cont_none. apply last_plain.
  - simpl in W. apply andb_true_iff in W as [W1 W2].
    apply well_formed_facts in W1.
    cbn [document fold_right]. fold (document bs last).
    rewrite re_findall_pass.
    + rewrite (re_findall_match if_cont (if_directive var value body) _
                 (var, value, body)).
      * cbn [map snd]. f_equal. now apply IH.
      * discriminate.
      * now apply (directive_matches s).
    + intros i Hi. apply if_cont_none.
      change (starts_with "@if " (skipn i (s ++ if_directive var value body ++ document bs last)))
        with (occurs_at "@if " (s ++ if_directive var value body ++ document bs last) i).
      destruct W1. now apply line_pattern_before.
Qed.

Lemma outcome_plain s var value body :
  block_facts s var value body ->
  absent "@if " (outcome_of platform (var, value, body))
  /\ closed_line (outcome_of platform (var, value, body)) = true.
Proof.
  intro F. unfold outcome_of.
  destruct (truthy platform && str_eqb var "PLATFORM" && opt_eqb platform value).
  - split; [now apply (body_plain s var value body)|now destruct F].
  - split; [intro i; now destruct i|reflexivity].
Qed.

(** One turn of the loop over the matches. *)
Lemma replace_partly seen s0 var value body blocks :
  block_facts s0 var value body ->
  forallb well_formed blocks = true ->
  replace (if_directive var value body) (outcome_of platform (var, value, body))
          (partly platform seen blocks last)
  = partly platform ((var, value, body) :: seen) blocks last.
Proof.
  intros F W.
  assert (Hne : if_directive var value body <> []) by discriminate.
  assert (Hat : forall t i, occurs_at "@if " t i = false ->
                  occurs_at (if_directive var value body) t i = false).
  { intros t i H. unfold if_directive. now apply occurs_at_prefix_false. }
  induction blocks as [|[s [[var' value'] body']] bs IH].
  - cbn [partly fold_right]. apply replace_absent; [assumption|].
    intros i _. apply Hat, last_plain.
  - simpl in W. apply andb_true_iff in W as [W1 W2].
    apply well_formed_facts in W1. specialize (IH W2).
    cbn [partly fold_right]. fold (partly platform seen bs last).
    fold (partly platform ((var, value, body) :: seen) bs last).
    rewrite replace_pass.
    2:{ intros i Hi. apply Hat. destruct W1. now apply line_pattern_before. }
    f_equal. cbn [existsb].
    destruct (existsb (block_eqb (var', value', body')) seen) eqn:S.
    + rewrite orb_true_r.
      destruct (outcome_plain s var' value' body' W1) as [P C].
      rewrite replace_pass.
      2:{ intros i Hi. apply Hat. now apply line_pattern_before. }
      now rewrite IH.
    + rewrite orb_false_r.
      destruct (block_eqb (var', value', body') (var, value, body)) eqn:E.
      * apply block_eqb_eq in E. injection E as -> -> ->.
        cbn [directive_of]. rewrite replace_here by assumption. now rewrite IH.
      * cbn [directive_of]. rewrite replace_pass; [now rewrite IH|].
        intros i Hi. destruct i as [|i].
        -- change (starts_with (if_directive var value body)
                     (if_directive var' value' body' ++ partly platform seen bs last)
                   = false).
           destruct (starts_with (if_directive var value body)
                       (if_directive var' value' body' ++ partly platform seen bs last)) eqn:P;
             [|reflexivity].
           apply (same_directive s0 var value body s var' value' body') in P; auto.
           rewrite <- P in E.
           assert (block_eqb (var, value, body) (var, value, body) = true)
             by now apply block_eqb_eq.
           congruence.
        -- apply Hat. apply (inside_directive s var' value' body' W1); [lia|exact Hi].
Qed.

Lemma fold_partly conds seen blocks :
  forallb well_formed blocks = true ->
  (forall c, In c conds -> exists s, In (s, c) blocks) ->
  fold_left (eval_cond platform) conds (partly platform seen blocks last)
  = partly platform (rev conds ++ seen) blocks last.
Proof.
  intros W. revert seen. induction conds as [|[[var value] body] conds IH];
    intros seen Hc; [reflexivity|].
  cbn [fold_left]. rewrite eval_cond_replace. cbn [directive_of].
  destruct (Hc (var, value, body) (or_introl eq_refl)) as [s Hs].
  assert (F : block_facts s var value body).
  { apply well_formed_facts. rewrite forallb_forall in W. now apply W. }
  rewrite (replace_partly seen s) by assumption.
  rewrite IH by (intros c Hin; apply Hc; now right).
  cbn [rev]. now rewrite <- app_assoc.
Qed.

Lemma chosen_outcome s var value body :
  block_facts s var value body ->
  outcome_of platform (var, value, body)
  = if chosen platform var value then body else [].
Proof.
  intros [_ _ _ [Hv _] _ _ _]. unfold outcome_of, chosen, opt_eqb, truthy.
  destruct platform as [[|c p]|]; try reflexivity.
  - rewrite (str_eqb_neq [] value) by congruence. reflexivity.
  - now rewrite andb_comm.
Qed.

Lemma partly_all seen blocks :
  forallb well_formed blocks = true ->
  (forall s c, In (s, c) blocks -> existsb (block_eqb c) seen = true) ->
  partly platform seen blocks last = evaluated platform blocks last.
Proof.
  induction blocks as [|[s [[var value] body]] bs IH]; intros W H; [reflexivity|].
  simpl in W. apply andb_true_iff in W as [W1 W2].
  apply well_formed_facts in W1.
  cbn [partly evaluated fold_right]. fold (partly platform seen bs last).
  fold (evaluated platform bs last).
  rewrite (H s (var, value, body)) by now left.
  rewrite (chosen_outcome s) by assumption.
  rewrite IH; auto. intros s' c Hin. apply (H s'). now right.
Qed.

Lemma eval_document blocks :
  forallb well_formed blocks = true ->
  eval_conditionals platform (document blocks last)
  = evaluated platform blocks last.
Proof.
  intro W. unfold eval_conditionals. rewrite findall_document by assumption.
  rewrite <- (partly_none platform blocks last).
  rewrite fold_partly; auto.
  - apply partly_all; auto. intros s c Hin.
    apply existsb_exists. exists c. split; [|now apply block_eqb_eq].
    apply in_or_app. left. apply -> in_rev.
    apply in_map_iff. exists (s, c). auto.
  - intros c Hin. apply in_map_iff in Hin as ([s c'] & <- & Hin). now exists s.
Qed.
End Document.


(** ** The class of an alert *)


(** ** The files that can be reached *)

Lemma same_node_eq (x y : option node) : same_node x y = true -> x = y.
Proof.
  destruct x as [[c|]|], y as [[c'|]|]; simpl; try discriminate; try reflexivity.
  intro H. apply str_eqb_eq in H. now subst.
Qed.

Lemma same_node_refl (x : option node) : same_node x x = true.
Proof. destruct x as [[c|]|]; simpl; auto. apply str_eqb_refl. Qed.

Lemma agrees_refl fs base_dir text : agrees fs fs base_dir text = true.
Proof. unfold agrees. apply forallb_forall. intros. apply same_node_refl. Qed.

Section Reach.
Variables (fs part : filesystem) (base_dir : option str) (text0 : str).
Hypothesis tidy : tidy_world part text0 = true.
Hypothesis same : agrees fs part base_dir text0 = true.

Let known := known_lines part text0.

Lemma target_reached d :
  In d known -> is_directive d = true ->
  In (target base_dir d) (reached part base_dir text0).
Proof.
  intros Hd Hdir. unfold reached.
  unfold known, known_lines in Hd. apply in_flat_map in Hd as (s & Hs & Hd').
  apply in_flat_map. exists s. split; [exact Hs|].
  rewrite includes_lines. apply in_flat_map. exists d. split; [exact Hd'|].
  rewrite (includes_directive part base_dir text0 tidy); [now left| |exact Hdir].
  apply in_flat_map. eauto.
Qed.

Lemma lookup_agrees d :
  In d known -> is_directive d = true ->
  fs_lookup fs (target base_dir d) = fs_lookup part (target base_dir d).
Proof.
  intros Hd Hdir. apply same_node_eq.
  unfold agrees in same. rewrite forallb_forall in same.
  apply same. now apply target_reached.
Qed.

Lemma step_agrees t :
  inv known t -> include_step fs base_dir t = include_step part base_dir t.
Proof.
  intro Hinv. unfold include_step.
  destruct (re_search include_pattern t) as [[d g]|] eqn:E; [|reflexivity].
  destruct (first_directive part text0 tidy t d g Hinv E) as (_ & Hdir & -> & Hk).
  fold (target base_dir d). now rewrite lookup_agrees.
Qed.

Lemma resolve_agrees fuel t :
  inv known t ->
  resolve_includes fuel fs base_dir t = resolve_includes fuel part base_dir t.
Proof.
  revert t. induction fuel as [|fuel IH]; intros t Hinv; [reflexivity|].
  simpl. rewrite step_agrees by assumption.
  destruct (step_spec part base_dir text0 tidy t Hinv)
    as [[Hs _]|(d & new & Hs & _ & Hd & Hdir & Hnew & _)]; rewrite Hs.
  - reflexivity.
  - apply IH. now apply (inv_after part text0 tidy).
Qed.
End Reach.

(** C3 (amended): when the loop returns, no [@include] directive is left
    in the buffer.  Let [part] hold the files that can be reached from the
    text: the file system answers as [part] does on every path that the
    text or a file of [part] includes, whatever else it holds.  When, in
    the text and in the files of [part], every [@include ] starts its
    line and no directive is a proper prefix of another line, and no
    included path is a directory: if these files can be ranked so that each
    includes files of lower rank only, the loop returns, given enough fuel;
    if the text includes a file of a set of files each of which includes a
    file of the set (a file that includes itself, or a cycle), the loop
    outlasts any fuel. *)
Theorem include_loop_ends_on_ranked_files
  (fs : filesystem) (base_dir : option str) (text : str) :
  (forall fuel text',
     resolve_includes fuel fs base_dir text = Returned text' ->
     re_search include_pattern text' = None)
  /\ (forall part : filesystem,
        tidy_world part text = true ->
        agrees fs part base_dir text = true ->
        (forall rank : str -> nat,
           ranked part base_dir rank = true ->
           exists fuel text',
             resolve_includes fuel fs base_dir text = Returned text'
             /\ re_search include_pattern text' = None)
        /\ (forall paths : list str,
              trapped part base_dir paths = true ->
              existsb (fun q => mem q paths) (includes base_dir text) = true ->
              forall fuel, resolve_includes fuel fs base_dir text = OutOfFuel)).
Proof.
  split; [intros; eapply resolve_returned_clean; eauto|].
  intros part tidy same. split.
  - intros rank Hr.
    destruct (loop_terminates part base_dir text tidy rank Hr
                (cost base_dir (full_weight part base_dir rank) text) text)
      as (fuel & t' & H & Hc).
    + now apply inv_start.
    + apply Nat.le_refl.
    + exists fuel, t'. split; [|exact Hc].
      rewrite (resolve_agrees fs part base_dir text tidy same); auto.
      now apply inv_start.
  - intros paths Ht Hin fuel.
    rewrite (resolve_agrees fs part base_dir text tidy same)
      by now apply inv_start.
    apply (loop_never_ends part base_dir text tidy paths Ht).
    + now apply inv_start.
    + apply existsb_exists in Hin as (q & Hq & Hm). exists q. auto.
Qed.

(** ** The loop when no included path exists *)

Lemma known_of_text (text : str) : known_lines [] text = lines_of text.
Proof. unfold known_lines. simpl. apply app_nil_r. Qed.

Lemma tidy_text (text : str) :
  forallb tidy_line (lines_of text) = true ->
  prefix_free (lines_of text) = true ->
  tidy_world [] text = true.
Proof.
  intros H1 H2. unfold tidy_world. rewrite known_of_text, H1, H2. reflexivity.
Qed.

Lemma marker_not_directive (u : str) : is_directive (missing_include u) = false.
Proof. reflexivity. Qed.

Lemma marked_directive (d : str) :
  is_directive d = true -> marked d = missing_include (strip (skipn 9 d)).
Proof. intro H. unfold marked. now rewrite H. Qed.

Lemma sum_of_ones {A} (l : list A) : list_sum (map (fun _ => 1) l) = length l.
Proof. induction l; simpl; auto. Qed.

Section Missing.
Variables (base_dir : option str) (text0 : str).
Hypothesis tidy : tidy_world [] text0 = true.

Let known := known_lines [] text0.

Lemma no_directive_left t :
  inv known t -> re_search include_pattern t = None ->
  map marked (lines_of t) = lines_of t.
Proof.
  intros Hinv H. rewrite re_search_include in H.
  rewrite (re_findall_lines _ include_pattern_local) in H.
  rewrite <- (map_id (lines_of t)) at 2. apply map_ext_in. intros l Hl.
  unfold inv in Hinv. rewrite Forall_forall in Hinv. specialize (Hinv l Hl).
  unfold marked. destruct (is_directive l) eqn:D; [exfalso|reflexivity].
  assert (F : re_findall include_pattern l = [(l, skipn 9 l)]).
  { rewrite findall_directive_line, D; [reflexivity| |].
    - eapply line_of_text; eauto.
    - eapply (line_ok_tidy [] text0 tidy); eauto. }
  destruct (flat_map (re_findall include_pattern) (lines_of t)) as [|x xs] eqn:E;
    [|discriminate].
  assert (In (l, skipn 9 l) (flat_map (re_findall include_pattern) (lines_of t))).
  { apply in_flat_map. exists l. split; [assumption|]. rewrite F. now left. }
  rewrite E in H0. contradiction.
Qed.

Lemma marker_step t :
  inv known t ->
  (include_step [] base_dir t = Stop /\ re_search include_pattern t = None)
  \/ exists d,
       include_step [] base_dir t
       = Next (replace d (missing_include (strip (skipn 9 d))) t)
       /\ In d (lines_of t) /\ In d known /\ is_directive d = true.
Proof.
  intro Hinv. unfold include_step.
  destruct (re_search include_pattern t) as [[d g]|] eqn:E; [|now left].
  right. destruct (first_directive [] text0 tidy t d g Hinv E) as (Hin & Hdir & -> & Hk).
  exists d. simpl. auto.
Qed.

Lemma marked_after t d :
  inv known t -> In d known -> is_directive d = true ->
  map marked (lines_of (replace d (missing_include (strip (skipn 9 d))) t))
  = map marked (lines_of t).
Proof.
  intros Hinv Hd Hdir.
  rewrite (lines_after [] text0 tidy) by assumption.
  destruct (marker_ok [] base_dir text0 tidy d Hd Hdir) as [_ _].
  assert (L : lines_of (missing_include (strip (skipn 9 d)))
              = [missing_include (strip (skipn 9 d))]).
  { apply lines_of_line. apply missing_include_line.
    assert (Hl : forallb not_nl d = true).
    { unfold known, known_lines in Hd. apply in_flat_map in Hd as (s & _ & Hs).
      eapply line_of_text; eauto. }
    apply is_directive_spec in Hdir as (g & -> & _).
    change (skipn 9 (inc ++ g)) with g.
    unfold inc in Hl. rewrite forallb_app in Hl. apply andb_true_iff in Hl as [_ Hl].
    destruct (strip_sub g) as (a & b & Eg). rewrite Eg in Hl.
    now apply forallb_sub in Hl. }
  rewrite L. clear Hinv. induction (lines_of t) as [|x xs IH]; [reflexivity|].
  cbn [flat_map map]. rewrite map_app, IH. destruct (str_eqb x d) eqn:E; simpl; [|reflexivity].
  apply str_eqb_eq in E. subst x. f_equal.
  rewrite (marked_directive d Hdir). unfold marked.
  now rewrite marker_not_directive.
Qed.

Lemma loop_marks fuel t :
  inv known t -> length (includes base_dir t) < fuel ->
  resolve_includes fuel [] base_dir t
  = Returned (join_lines (map marked (lines_of t))).
Proof.
  revert t. induction fuel as [|fuel IH]; intros t Hinv Hn; [lia|].
  simpl.
  destruct (marker_step t Hinv) as [[Hs Hnone]|(d & Hs & Hin & Hd & Hdir)];
    rewrite Hs.
  - rewrite no_directive_left by assumption. now rewrite join_lines_of.
  - rewrite IH.
    + now rewrite marked_after.
    + now apply (inv_after [] text0 tidy); [| | |apply (marker_ok [] base_dir text0 tidy)].
    + pose proof (cost_drops [] base_dir text0 tidy (fun _ => 0) t d
                    (missing_include (strip (skipn 9 d))) Hinv Hin Hd Hdir) as C.
      destruct (marker_ok [] base_dir text0 tidy d Hd Hdir) as [_ M].
      unfold cost in C. rewrite M in C. specialize (C (Nat.le_refl _)).
      rewrite !sum_of_ones in C. lia.
Qed.
End Missing.

(** ** The text the loop returns *)

Lemma join_lines_app (a b : list str) :
  a <> [] -> b <> [] -> join_lines (a ++ b) = join_lines a ++ nl :: join_lines b.
Proof.
  intros Ha Hb. induction a as [|x a IH]; [contradiction|].
  destruct a as [|y a].
  - simpl app. now rewrite join_lines_cons.
  - change ((x :: y :: a) ++ b) with (x :: (y :: a) ++ b).
    rewrite !join_lines_cons by discriminate.
    rewrite IH by discriminate. now rewrite <- app_assoc.
Qed.

Lemma flat_map_nonempty {A B} (g : A -> list B) (l : list A) :
  l <> [] -> (forall x, In x l -> g x <> []) -> flat_map g l <> [].
Proof.
  destruct l as [|x l]; [contradiction|]. intros _ H. simpl.
  specialize (H x (or_introl eq_refl)). destruct (g x); [contradiction|discriminate].
Qed.

(** Joining the lines of the parts is joining the parts. *)
Lemma join_lines_flat_map {A} (g : A -> list str) (l : list A) :
  (forall x, In x l -> g x <> []) ->
  join_lines (flat_map g l) = join_lines (map (fun x => join_lines (g x)) l).
Proof.
  induction l as [|x l IH]; intro H; [reflexivity|].
  assert (Hx : g x <> []) by (apply H; now left).
  assert (Hl : forall y, In y l -> g y <> []) by (intros; apply H; now right).
  cbn [flat_map map]. destruct l as [|y l].
  - simpl. now rewrite app_nil_r.
  - rewrite join_lines_app; [|assumption|now apply flat_map_nonempty].
    rewrite join_lines_cons by discriminate. now rewrite IH.
Qed.

Section Expansion.
Variables (part : filesystem) (base_dir : option str) (text0 : str).
Hypothesis tidy : tidy_world part text0 = true.
Variable rank : str -> nat.
Hypothesis acyclic : ranked part base_dir rank = true.
Variable depth : nat.
Hypothesis deep_enough :
  forallb (fun q => rank q <? depth) (reached part base_dir text0) = true.

Let known := known_lines part text0.

Lemma known_line_plain l : In l known -> forallb not_nl l = true.
Proof.
  intro H. unfold known, known_lines in H.
  apply in_flat_map in H as (s & _ & Hs). eapply line_of_text; eauto.
Qed.

Lemma target_included c l :
  (forall x, In x (lines_of c) -> In x known) ->
  In l (lines_of c) -> is_directive l = true ->
  In (target base_dir l) (includes base_dir c).
Proof.
  intros Hc Hl Hdir. rewrite includes_lines. apply in_flat_map.
  exists l. split; [assumption|].
  rewrite (includes_directive part base_dir text0 tidy); auto. now left.
Qed.

(** Below the rank of a file, the depth does not matter. *)
Lemma expanded_stable n m q c :
  fs_lookup part q = Some (File c) -> rank q < n -> rank q < m ->
  expanded n part base_dir c = expanded m part base_dir c.
Proof.
  revert m q c. induction n as [|n IH]; intros m q c L Hn Hm; [lia|].
  destruct m as [|m]; [lia|]. cbn [expanded]. f_equal.
  apply map_ext_in. intros l Hl. unfold expanded_line.
  destruct (is_directive l) eqn:D; [|reflexivity].
  destruct (fs_lookup part (target base_dir l)) as [[c'|]|] eqn:L'; try reflexivity.
  assert (R : rank (target base_dir l) < rank q).
  { apply (lower_rank part base_dir rank acyclic q c); [exact L|].
    apply target_included; auto.
    intros x Hx. apply (file_known part text0 q c); assumption. }
  apply (IH m (target base_dir l)); [assumption|lia|lia].
Qed.

Let E_line := expanded_line (expanded depth part base_dir) part base_dir.
Let E (t : str) : str := join_lines (map E_line (lines_of t)).

Lemma E_start : E text0 = expanded (S depth) part base_dir text0.
Proof. reflexivity. Qed.

Lemma target_deep d :
  In d known -> is_directive d = true -> rank (target base_dir d) < depth.
Proof.
  intros Hd Hdir. rewrite forallb_forall in deep_enough.
  apply Nat.ltb_lt. apply deep_enough.
  unfold reached. unfold known, known_lines in Hd.
  apply in_flat_map in Hd as (s & Hs & Hd').
  apply in_flat_map. exists s. split; [exact Hs|].
  rewrite includes_lines. apply in_flat_map. exists d. split; [exact Hd'|].
  rewrite (includes_directive part base_dir text0 tidy); [now left| |exact Hdir].
  apply in_flat_map. eauto.
Qed.

Lemma E_line_plain l : is_directive l = false -> E_line l = l.
Proof. intro H. unfold E_line, expanded_line. now rewrite H. Qed.

Lemma E_line_file d c :
  In d known -> is_directive d = true ->
  fs_lookup part (target base_dir d) = Some (File c) ->
  E_line d = join_lines (map E_line (lines_of c)).
Proof.
  intros Hd Hdir L. unfold E_line at 1, expanded_line. rewrite Hdir, L.
  rewrite (expanded_stable depth (S depth) (target base_dir d) c L);
    [reflexivity|now apply target_deep|].
  pose proof (target_deep d Hd Hdir). lia.
Qed.

Lemma E_line_missing d :
  is_directive d = true -> fs_lookup part (target base_dir d) = None ->
  E_line d = missing_include (strip (skipn 9 d)).
Proof. intros Hdir L. unfold E_line, expanded_line. now rewrite Hdir, L. Qed.

Lemma E_clean t :
  inv known t -> re_search include_pattern t = None -> E t = t.
Proof.
  intros Hinv H. unfold E.
  rewrite <- (join_lines_of t) at 2. f_equal.
  rewrite <- (map_id (lines_of t)) at 2. apply map_ext_in. intros l Hl.
  apply E_line_plain.
  destruct (is_directive l) eqn:D; [exfalso|reflexivity].
  rewrite re_search_include in H.
  rewrite (re_findall_lines _ include_pattern_local) in H.
  unfold inv in Hinv. rewrite Forall_forall in Hinv. specialize (Hinv l Hl).
  assert (F : re_findall include_pattern l = [(l, skipn 9 l)]).
  { rewrite findall_directive_line, D; [reflexivity| |].
    - eapply line_of_text; eauto.
    - eapply (line_ok_tidy part text0 tidy); eauto. }
  assert (I : In (l, skipn 9 l)
                 (flat_map (re_findall include_pattern) (lines_of t))).
  { apply in_flat_map. exists l. split; [assumption|]. rewrite F. now left. }
  destruct (flat_map (re_findall include_pattern) (lines_of t)); [destruct I|discriminate].
Qed.

(** One turn of the loop does not change what the text expands to. *)
Lemma E_after t d new :
  inv known t -> In d known -> is_directive d = true ->
  E_line d = join_lines (map E_line (lines_of new)) ->
  E (replace d new t) = E t.
Proof.
  intros Hinv Hd Hdir Hnew. unfold E.
  rewrite (lines_after part text0 tidy) by assumption.
  rewrite map_flat_map.
  rewrite join_lines_flat_map.
  - f_equal. apply map_ext. intro x.
    destruct (str_eqb x d) eqn:Ex; [|reflexivity].
    apply str_eqb_eq in Ex. subst x. now rewrite Hnew.
  - intros x _. destruct (str_eqb x d); [|discriminate].
    pose proof (lines_of_nonempty new). destruct (lines_of new); [contradiction|discriminate].
Qed.

Lemma turn_cases t :
  inv known t ->
  (include_step part base_dir t = Stop /\ re_search include_pattern t = None)
  \/ exists d new,
       include_step part base_dir t = Next (replace d new t)
       /\ In d (lines_of t) /\ In d known /\ is_directive d = true
       /\ Forall (line_ok known) (lines_of new)
       /\ E_line d = join_lines (map E_line (lines_of new))
       /\ cost base_dir (full_weight part base_dir rank) new
          <= full_weight part base_dir rank (target base_dir d).
Proof.
  intro Hinv. unfold include_step.
  destruct (re_search include_pattern t) as [[d g]|] eqn:S; [|now left].
  right. destruct (first_directive part text0 tidy t d g Hinv S) as (Hin & Hdir & -> & Hk).
  fold (target base_dir d).
  destruct (fs_lookup part (target base_dir d)) as [[c|]|] eqn:L.
  - exists d, c. repeat split; auto.
    + apply Forall_forall. intros l Hl. left. eapply file_known; eauto.
    + now apply E_line_file.
    + rewrite (full_weight_file part base_dir rank acyclic _ _ L). apply Nat.le_refl.
  - now apply (no_directory_here part text0 tidy) in L.
  - destruct (marker_ok part base_dir text0 tidy d Hk Hdir) as [M1 M2].
    exists d, (missing_include (strip (skipn 9 d))). repeat split; auto.
    + rewrite E_line_missing by assumption.
      assert (Ln : lines_of (missing_include (strip (skipn 9 d)))
                   = [missing_include (strip (skipn 9 d))]).
      { apply lines_of_line. apply missing_include_line.
        pose proof (known_line_plain d Hk) as Hl.
        apply is_directive_spec in Hdir as (g & -> & _).
        change (skipn 9 (inc ++ g)) with g.
        unfold inc in Hl. rewrite forallb_app in Hl.
        apply andb_true_iff in Hl as [_ Hl].
        destruct (strip_sub g) as (a & b & Eg). rewrite Eg in Hl.
        now apply forallb_sub in Hl. }
      rewrite Ln. cbn [map join_lines]. now rewrite E_line_plain.
    + unfold cost. rewrite M2. simpl. lia.
Qed.

Lemma loop_expands n t :
  inv known t -> cost base_dir (full_weight part base_dir rank) t <= n ->
  exists fuel, resolve_includes fuel part base_dir t = Returned (E t).
Proof.
  revert t. induction n as [|n IH]; intros t Hinv Hn;
    destruct (turn_cases t Hinv)
      as [[Hs Hnone]|(d & new & Hs & Hin & Hd & Hdir & Hnew & HE & Hc)].
  - exists 1. simpl. rewrite Hs. now rewrite E_clean.
  - exfalso.
    pose proof (cost_drops part base_dir text0 tidy _ t d new Hinv Hin Hd Hdir Hc).
    lia.
  - exists 1. simpl. rewrite Hs. now rewrite E_clean.
  - pose proof (cost_drops part base_dir text0 tidy _ t d new Hinv Hin Hd Hdir Hc).
    destruct (IH (replace d new t)) as [fuel Hr].
    + now apply (inv_after part text0 tidy).
    + lia.
    + exists (S fuel). simpl. rewrite Hs, Hr. f_equal. now apply E_after.
Qed.

Lemma text_expands :
  exists fuel,
    resolve_includes fuel part base_dir text0
    = Returned (expanded (S depth) part base_dir text0).
Proof.
  rewrite <- E_start.
  apply (loop_expands (cost base_dir (full_weight part base_dir rank) text0) text0
           (inv_start part text0)).
  apply Nat.le_refl.
Qed.
End Expansion.

(** C4 (amended): a directive whose path does not exist never makes the
    loop raise.  When it is the first directive of the buffer it is
    replaced where it stands by the marker
    [<div class='error'>Missing include: path</div>], the path being the
    stripped rest of the line; the same text is replaced wherever else it
    occurs, also at the start of a longer directive, and the loop goes on
    with the new buffer.  In a text where every [@include ] starts its
    line, no directive is a proper prefix of another line and no included
    path exists, the loop returns the text with every directive replaced
    by its own marker and every other line kept.  More generally, when
    these conditions hold in the text and in the files that can be reached
    from it, no included path is a directory and the files can be ranked
    so that each includes files of lower rank only, the loop returns the
    text expanded: every directive whose file exists has become the
    content of the file, expanded in the same way, every directive whose
    path does not exist, in the text or in a file, has become its own
    marker, and every other line is kept. *)
Theorem missing_include_is_marked :
  (forall (fs : filesystem) (base_dir : option str) (pre g post : str)
          (fuel : nat),
     g <> [] /\ forallb not_nl g = true ->
     stops not_nl post ->
     (forall i, i < length pre ->
        occurs_at "@include " (pre ++ ("@include " ++ g) ++ post) i = false) ->
     fs_lookup fs (path_join (or_empty base_dir) (strip g)) = None ->
     let text := pre ++ ("@include " ++ g) ++ post in
     let text' :=
       pre ++ ("<div class='error'>Missing include: " ++ strip g ++ "</div>")
       ++ replace ("@include " ++ g)
            ("<div class='error'>Missing include: " ++ strip g ++ "</div>") post in
     include_step fs base_dir text = Next text'
     /\ resolve_includes (S fuel) fs base_dir text
        = resolve_includes fuel fs base_dir text')
  /\ (forall (fs : filesystem) (base_dir : option str) (text : str)
             (fuel : nat),
        forallb tidy_line (lines_of text) = true ->
        prefix_free (lines_of text) = true ->
        (forall q, In q (includes base_dir text) -> fs_lookup fs q = None) ->
        length (includes base_dir text) < fuel ->
        resolve_includes fuel fs base_dir text
        = Returned
            (join_lines
               (map (fun l =>
                       if is_directive l
                       then "<div class='error'>Missing include: "
                            ++ strip (skipn 9 l) ++ "</div>"
                       else l)
                    (lines_of text))))
  /\ (forall (fs part : filesystem) (base_dir : option str) (text : str)
             (rank : str -> nat) (depth : nat),
        tidy_world part text = true ->
        agrees fs part base_dir text = true ->
        ranked part base_dir rank = true ->
        forallb (fun q => rank q <? depth) (reached part base_dir text) = true ->
        exists fuel,
          resolve_includes fuel fs base_dir text
          = Returned (expanded (S depth) part base_dir text)).
Proof.
  split; [|split].
  - intros fs base_dir pre g post fuel Hg Hpost Hpre Hfs text text'.
    assert (E : include_step fs base_dir text = Next text').
    { unfold include_step, text.
      rewrite (search_include pre g post Hg Hpost Hpre).
      rewrite Hfs. f_equal.
      apply (replace_directive pre g post Hpre). }
    split; [exact E|]. simpl. now rewrite E.
  - intros fs base_dir text fuel H1 H2 Hfs Hfuel.
    pose proof (tidy_text text H1 H2) as tidy.
    assert (same : agrees fs [] base_dir text = true).
    { unfold agrees, reached. simpl. rewrite app_nil_r.
      apply forallb_forall. intros q Hq. now rewrite (Hfs q Hq). }
    rewrite (resolve_agrees fs [] base_dir text tidy same)
      by now apply inv_start.
    apply (loop_marks base_dir text tidy); [now apply inv_start|assumption].
  - intros fs part base_dir text rank depth tidy same Hr Hd.
    destruct (text_expands part base_dir text tidy rank Hr depth Hd) as [fuel H].
    exists fuel.
    rewrite (resolve_agrees fs part base_dir text tidy same)
      by now apply inv_start.
    exact H.
Qed.

(** ** Title lines *)

Section TitleStripped.
Variables (pre ws t post : str).
Let text := pre ++ "@title:" ++ ws ++ t ++ post.

Hypothesis ws_space : forallb is_space ws = true.
Hypothesis t_text : t <> [] /\ forallb not_nl t = true /\ stops is_space t.
Hypothesis post_line : stops not_nl post.
Hypothesis first_title :
  forall i, i < length pre -> occurs_at "@title:" text i = false.

Lemma strip_titles_first : strip_titles text = pre ++ strip_titles post.
Proof.
  destruct t_text as (H1 & H2 & H3).
  unfold strip_titles, text. rewrite title_pattern_cont.
  rewrite re_sub_pass.
  - f_equal.
    replace ("@title:" ++ ws ++ t ++ post) with (("@title:" ++ ws ++ t) ++ post)
      by (now rewrite <- !app_assoc).
    rewrite (re_sub_match title_cont _ ("@title:" ++ ws ++ t) post t).
    + reflexivity.
    + discriminate.
    + rewrite <- !app_assoc.
      change (("@title:" ++ ws ++ t ++ post))
        with (list_ascii_of_string "@title:" ++ ws ++ t ++ post).
      rewrite title_cont_here by assumption.
      do 2 f_equal. rewrite !length_app. simpl. lia.
  - intros i Hi. unfold title_cont, pmap. rewrite lit_none; [reflexivity|].
    now apply first_title.
Qed.
End TitleStripped.

Lemma plain_keeps_titles (s : str) :
  forallb not_at s = true -> strip_titles s = s.
Proof.
  intro H. unfold strip_titles. rewrite title_pattern_cont.
  apply re_sub_absent. now apply no_at_no_title.
Qed.

Lemma title_not_before (pre rest : str) (i : nat) :
  forallb not_at pre = true -> i < length pre ->
  occurs_at "@title:" (pre ++ rest) i = false.
Proof.
  intros H Hi. unfold occurs_at. rewrite skipn_app_lt by lia.
  destruct (skipn_nonempty pre i Hi) as (c & r & E). rewrite E.
  pose proof (forallb_skipn not_at pre i H) as F. rewrite E in F.
  simpl in F. apply andb_true_iff in F as [F _].
  change (starts_with "@title:" ((c :: r) ++ rest))
    with (Ascii.eqb "@" c && starts_with "title:" (r ++ rest)).
  unfold not_at in F. apply negb_true_iff in F.
  rewrite Ascii.eqb_sym, F. reflexivity.
Qed.

(** Two title lines: the first gives the title, both are removed. *)
Lemma two_title_lines (pre t1 mid t2 post : str) :
  t1 <> [] /\ forallb not_nl t1 = true /\ stops is_space t1 ->
  t2 <> [] /\ forallb not_nl t2 = true /\ stops is_space t2 ->
  forallb not_at pre = true -> forallb not_at mid = true ->
  forallb not_at post = true ->
  let text := pre ++ "@title:" ++ " " ++ t1 ++ [nl] ++ mid
              ++ "@title:" ++ " " ++ t2 ++ [nl] ++ post in
  extract_title text = t1
  /\ strip_titles text = pre ++ [nl] ++ mid ++ [nl] ++ post.
Proof.
  intros H1 H2 Hpre Hmid Hpost text. unfold text. split.
  - apply (extract_title_first pre " " t1);
      [reflexivity|assumption|reflexivity|].
    intros i Hi. now apply title_not_before.
  - rewrite (strip_titles_first pre " " t1);
      [|reflexivity|assumption|reflexivity
       |intros i Hi; now apply title_not_before].
    f_equal.
    replace ([nl] ++ mid ++ "@title:" ++ " " ++ t2 ++ [nl] ++ post)
      with (([nl] ++ mid) ++ "@title:" ++ " " ++ t2 ++ [nl] ++ post)
      by (now rewrite <- app_assoc).
    rewrite (strip_titles_first ([nl] ++ mid) " " t2);
      [|reflexivity|assumption|reflexivity
       |intros i Hi; apply title_not_before; [exact Hmid|exact Hi]].
    rewrite (plain_keeps_titles ([nl] ++ post)) by exact Hpost.
    now rewrite <- app_assoc.
Qed.

(** C5 (amended): the title is the text captured by the first match of
    [@title:], white space (line feeds included) and the rest of a line:
    the text that follows the directive on its line or, when white space
    alone follows it there, the text of the next line that is not blank.
    That match is removed from the buffer, from [@title:] to the end of
    the captured text, the text before it stays, and the text after it is
    stripped in the same way, so that no match is left, whatever the number
    of title lines.  Without any match the title is [Documentation] and the
    buffer is unchanged.  With two title lines in a text that holds no
    other [@], the first gives the title and both are removed. *)
Theorem title_first_match_all_stripped :
  (forall pre ws t post : str,
     forallb is_space ws = true ->
     t <> [] /\ forallb not_nl t = true /\ stops is_space t ->
     stops not_nl post ->
     (forall i, i < length pre ->
        occurs_at "@title:" (pre ++ "@title:" ++ ws ++ t ++ post) i = false) ->
     extract_title (pre ++ "@title:" ++ ws ++ t ++ post) = t
     /\ strip_titles (pre ++ "@title:" ++ ws ++ t ++ post)
        = pre ++ strip_titles post)
  /\ (forall text : str, re_search title_pattern (strip_titles text) = None)
  /\ (forall text : str,
        re_search title_pattern text = None ->
        extract_title text = "Documentation" /\ strip_titles text = text)
  /\ (forall pre t1 mid t2 post : str,
        t1 <> [] /\ forallb not_nl t1 = true /\ stops is_space t1 ->
        t2 <> [] /\ forallb not_nl t2 = true /\ stops is_space t2 ->
        forallb not_at pre = true -> forallb not_at mid = true ->
        forallb not_at post = true ->
        let text := pre ++ "@title:" ++ " " ++ t1 ++ [nl] ++ mid
                    ++ "@title:" ++ " " ++ t2 ++ [nl] ++ post in
        extract_title text = t1
        /\ strip_titles text = pre ++ [nl] ++ mid ++ [nl] ++ post).
Proof.
  split; [|split; [|split]]; [| | |apply two_title_lines].
  - intros. split; [now apply extract_title_first|now apply strip_titles_first].
  - apply no_title_left.
  - intros text H. split.
    + unfold extract_title. now rewrite H.
    + unfold strip_titles. rewrite title_pattern_cont in *.
      apply re_sub_absent. now apply search_none_everywhere.
Qed.

(** ** The order of the table *)

Lemma substitute_app (d1 d2 : dict) (t : str) :
  substitute_vars (d1 ++ d2) t = substitute_vars d2 (substitute_vars d1 t).
Proof. apply fold_left_app. Qed.

Lemma substitute_idle (d : dict) (t : str) :
  (forall k v, In (k, v) d -> forall i, occurs_at ("@" ++ k) t i = false) ->
  substitute_vars d t = t.
Proof.
  induction d as [|[k v] d IH]; intro H; [reflexivity|].
  change (substitute_vars ((k, v) :: d) t)
    with (substitute_vars d (replace ("@" ++ k) v t)).
  rewrite replace_absent.
  - apply IH. intros k' v' Hin. apply (H k' v'). now right.
  - discriminate.
  - intros i _. apply (H k v). now left.
Qed.

Lemma not_at_before (p pre rest : str) (i : nat) :
  forallb not_at pre = true -> i < length pre ->
  occurs_at ("@" ++ p) (pre ++ rest) i = false.
Proof.
  intros H Hi. unfold occurs_at. rewrite skipn_app_lt by lia.
  destruct (skipn_nonempty pre i Hi) as (c & r & E). rewrite E.
  pose proof (forallb_skipn not_at pre i H) as F. rewrite E in F.
  simpl in F. apply andb_true_iff in F as [F _].
  change (starts_with ("@" ++ p) ((c :: r) ++ rest))
    with (Ascii.eqb "@" c && starts_with p (r ++ rest)).
  unfold not_at in F. apply negb_true_iff in F.
  rewrite Ascii.eqb_sym, F. reflexivity.
Qed.

Lemma reference_replaced (a v pre post : str) :
  forallb not_at pre = true -> forallb not_at post = true ->
  replace ("@" ++ a) v (pre ++ ("@" ++ a) ++ post) = pre ++ v ++ post.
Proof.
  intros Hpre Hpost. rewrite replace_pass.
  - rewrite replace_here by discriminate.
    rewrite replace_absent; auto; [discriminate|].
    intros i _. now apply forallb_not_at_absent.
  - intros i Hi. now apply not_at_before.
Qed.

Lemma other_reference_absent (k a pre post : str) :
  forallb not_at pre = true -> forallb not_at a = true ->
  forallb not_at post = true ->
  starts_with k (a ++ post) = false ->
  forall i, occurs_at ("@" ++ k) (pre ++ ("@" ++ a) ++ post) i = false.
Proof.
  intros Hpre Ha Hpost Hk i.
  destruct (Nat.lt_ge_cases i (length pre)) as [Hlt|Hge].
  - now apply not_at_before.
  - replace i with (length pre + (i - length pre)) by lia.
    rewrite occurs_at_shift. destruct (i - length pre) as [|j].
    + exact Hk.
    + change (occurs_at ("@" ++ k) (("@" ++ a) ++ post) (S j))
        with (occurs_at ("@" ++ k) (a ++ post) j).
      apply forallb_not_at_absent. rewrite forallb_app. now rewrite Ha.
Qed.

(** The value of a variable enters the buffer at the turn of the variable;
    the entries before it have passed, the entries after it run over it. *)
Lemma value_enters_at_its_turn (before after : dict) (a va pre post : str) :
  forallb not_at pre = true -> forallb not_at a = true ->
  forallb not_at post = true ->
  (forall k v, In (k, v) before -> starts_with k (a ++ post) = false) ->
  substitute_vars (before ++ (a, va) :: after) (pre ++ ("@" ++ a) ++ post)
  = substitute_vars after (pre ++ va ++ post).
Proof.
  intros Hpre Ha Hpost Hb. rewrite substitute_app.
  rewrite (substitute_idle before).
  - change (substitute_vars ((a, va) :: after) ?t)
      with (substitute_vars after (replace ("@" ++ a) va t)).
    now rewrite reference_replaced.
  - intros k v Hin. apply other_reference_absent; auto. now apply (Hb k v).
Qed.

Lemma mem_iff (q : str) (l : list str) : mem q l = true <-> In q l.
Proof.
  unfold mem. rewrite existsb_exists. split.
  - intros (x & Hx & E). apply str_eqb_eq in E. now subst.
  - intro H. exists q. split; [assumption|apply str_eqb_refl].
Qed.

Lemma dict_set_keys (k v : str) (d : dict) :
  map fst (dict_set k v d)
  = if mem k (map fst d) then map fst d else map fst d ++ [k].
Proof.
  induction d as [|[k' v'] d IH]; [reflexivity|]. simpl.
  destruct (str_eqb k k') eqn:E; simpl; [reflexivity|].
  rewrite IH. now destruct (mem k (map fst d)).
Qed.

Lemma record_vars_keys (decls : list (str * str)) (d : dict) :
  map fst (record_vars decls d)
  = map fst d ++ first_seen (map fst decls) (map fst d).
Proof.
  revert d; induction decls as [|[n v] decls IH]; intro d.
  - simpl. now rewrite app_nil_r.
  - change (record_vars ((n, v) :: decls) d)
      with (record_vars decls (dict_set n (strip v) d)).
    rewrite IH, dict_set_keys. simpl.
    destruct (mem n (map fst d)); [reflexivity|].
    now rewrite <- app_assoc.
Qed.

Lemma a_is_not_b (a b : str) :
  starts_with b a = false -> str_eqb a b = false /\ str_eqb b a = false.
Proof.
  intro not_prefix.
  assert (N : a <> b).
  { intros ->. rewrite <- (app_nil_r b) in not_prefix at 2.
    rewrite starts_with_app in not_prefix. discriminate. }
  split; apply str_eqb_neq; congruence.
Qed.

Section TwoVariables.
Variables (a b va vb pre post : str).

Hypothesis a_word : forallb is_word a = true.
Hypothesis b_word : forallb is_word b = true.
Hypothesis not_prefix : starts_with b a = false.
Hypothesis pre_plain : forallb not_at pre = true.
Hypothesis post_plain : forallb not_at post = true /\ stops is_word post.

Let text := pre ++ ("@" ++ a) ++ post.

Lemma b_before_a (x y : str) :
  substitute_vars [(b, x); (a, y)] text = pre ++ y ++ post.
Proof.
  destruct post_plain as [Hpost Hstop].
  apply (value_enters_at_its_turn [(b, x)] [] a y pre post); auto.
  - now apply word_not_at.
  - intros k v [E|[]]. injection E as <- _.
    destruct (starts_with b (a ++ post)) eqn:S; [|reflexivity].
    apply word_prefix in S; auto. congruence.
Qed.

Lemma a_before_b (x y : str) :
  substitute_vars [(a, y); (b, x)] text
  = replace ("@" ++ b) x (pre ++ y ++ post).
Proof.
  destruct post_plain as [Hpost Hstop].
  apply (value_enters_at_its_turn [] [(b, x)] a y pre post); auto.
  - now apply word_not_at.
  - intros k v [].
Qed.

End TwoVariables.

(** C6 (amended): the variables are substituted one after the other, in
    the order of the table, each pass rewriting the whole buffer: the value
    of a variable enters the buffer at the turn of the variable, the
    entries before it have passed and do not see it, the entries after it
    run over it.  The table keeps the caller's entries first and takes the
    names of the document in the order of their first declaration; a name
    declared again keeps its place.  For two variables A and B, B's name
    being no prefix of A's, and a reference [@A] in a text with no other
    [@]: when B stands before A in the table (B is declared first, also
    when it is declared again after A, or B is held by the caller's table),
    the value of A is inserted last and stays as it is, with any [@B] it
    holds; when A stands before B, the pass of B runs over the buffer that
    now holds the value of A and replaces the [@B] found there. *)
Theorem substitution_follows_declaration_order :
  (forall (before after : dict) (a va pre post : str),
     forallb not_at pre = true -> forallb not_at a = true ->
     forallb not_at post = true ->
     (forall k v, In (k, v) before -> starts_with k (a ++ post) = false) ->
     substitute_vars (before ++ (a, va) :: after) (pre ++ ("@" ++ a) ++ post)
     = substitute_vars after (pre ++ va ++ post))
  /\ (forall (decls : list (str * str)) (d : dict),
        map fst (record_vars decls d)
        = map fst d ++ first_seen (map fst decls) (map fst d))
  /\ (forall a b va vb pre post : str,
        forallb is_word a = true -> forallb is_word b = true ->
        starts_with b a = false ->
        forallb not_at pre = true ->
        forallb not_at post = true /\ stops is_word post ->
        let text := pre ++ ("@" ++ a) ++ post in
        substitute_vars (record_vars [(b, vb); (a, va)] []) text
        = pre ++ strip va ++ post
        /\ substitute_vars (record_vars [(a, va); (b, vb)] []) text
           = replace ("@" ++ b) (strip vb) (pre ++ strip va ++ post)
        /\ (forall vb', substitute_vars (record_vars [(b, vb'); (a, va); (b, vb)] []) text
                        = pre ++ strip va ++ post)
        /\ (forall vb0, substitute_vars (record_vars [(a, va); (b, vb)] [(b, vb0)]) text
                        = pre ++ strip va ++ post)).
Proof.
  split; [|split].
  - intros. now apply value_enters_at_its_turn.
  - apply record_vars_keys.
  - intros a b va vb pre post Ha Hb Hp Hpre Hpost text.
    destruct (a_is_not_b a b Hp) as [Nab Nba].
    repeat split.
    + rewrite record_two by assumption. now apply b_before_a.
    + rewrite record_two by assumption. now apply a_before_b.
    + intro vb'. unfold record_vars. cbn [fold_left dict_set].
      rewrite Nab. cbn [dict_set]. rewrite str_eqb_refl. now apply b_before_a.
    + intro vb0. unfold record_vars. cbn [fold_left dict_set].
      rewrite Nab. cbn [dict_set]. rewrite str_eqb_refl. now apply b_before_a.
Qed.

(** * The pipeline on given documents *)

(** C2 (code bug): two adjacent list items do not end up in one list
    container.  The wrap matches one [<li>] element at a time, so each
    generic item gets a container of its own, and a task-list item, whose
    tag carries a class, is not wrapped at all. *)
Theorem each_list_item_is_wrapped_alone :
  lists ("- a" ++ [nl] ++ "- b")
  = "<ul><li>a</li></ul>" ++ [nl] ++ "<ul><li>b</li></ul>"
  /\ lists ("- [x] a" ++ [nl] ++ "- b")
     = "<li class=" ++ quoted "task-item" ++ "><input type=" ++ quoted "checkbox"
       ++ " disabled checked> a</li>" ++ [nl] ++ "<ul><li>b</li></ul>"
  /\ parse_ldoc 1 [] [] ("- a" ++ [nl] ++ "- b") None None None
     = Returned ("<p><ul><li>a</li></ul>" ++ [nl] ++ "<ul><li>b</li></ul></p>",
                 default_title, [[]]).
Proof. repeat split; vm_compute; reflexivity. Qed.

(** * Counterexamples *)

(** C3: a file [a] that includes [b], which includes nothing, is an acyclic
    include graph, and yet the loop never ends on [@include a]: the content
    of [b] completes the characters left before it into a new directive.
    And a file may include itself while the loop ends: replacing the
    directive of file [a] also rewrites the longer directive of file [ab]. *)
Lemma include_loop_counterexample :
  let fs : filesystem :=
    [("a" : str, File "@inc@include b"); ("b" : str, File "lude a")] in
  let rank := fun p : str => if str_eqb p "a" then 1 else 0 in
  let fs' : filesystem :=
    [("ab" : str, File ("@include a" ++ [nl] ++ "@include ab"));
     ("a" : str, File [])] in
  ranked fs None rank = true
  /\ (forall fuel, resolve_includes fuel fs None "@include a" = OutOfFuel)
  /\ In ("ab" : str) (includes None ("@include a" ++ [nl] ++ "@include ab"))
  /\ resolve_includes 3 fs' None "@include ab" = Returned (nl :: "b").
Proof.
  cbv zeta. split; [reflexivity|]. split.
  - assert (E1 : include_step [("a" : str, File "@inc@include b"); ("b" : str, File "lude a")]
                   None "@include a" = Next "@inc@include b") by reflexivity.
    assert (E2 : include_step [("a" : str, File "@inc@include b"); ("b" : str, File "lude a")]
                   None "@inc@include b" = Next "@include a") by reflexivity.
    assert (H : forall fuel,
               resolve_includes fuel [("a" : str, File "@inc@include b"); ("b" : str, File "lude a")]
                 None "@include a" = OutOfFuel
               /\ resolve_includes fuel [("a" : str, File "@inc@include b"); ("b" : str, File "lude a")]
                    None "@inc@include b" = OutOfFuel).
    { induction fuel as [|fuel [IH1 IH2]]; [split; reflexivity|].
      cbn [resolve_includes]. rewrite E1, E2. auto. }
    intro fuel. apply H.
  - split; [vm_compute; auto|reflexivity].
Qed.

(** C6: with A declared before B, the [@B] that the value of A brings into
    the buffer is replaced by the value of B. *)
Lemma later_variable_rescans_value :
  parse_ldoc 1 [] [] ("@var A=x@B" ++ [nl] ++ "@var B=y" ++ [nl] ++ "@A")
             None None None
  = Returned ("<p></p><p>xy</p>" : str, default_title,
              [[("A" : str, "x@B" : str); ("B" : str, "y" : str)]]).
Proof. vm_compute. reflexivity. Qed.


(** C4: two directives to paths that do not exist, the first a prefix of
    the second.  The first turn of the loop replaces the text
    [@include a] in both lines, so the second directive never gets the
    marker of its own path [ab]: the marker of [a] and a stray [b] stand
    in its place. *)
Lemma prefix_directive_counterexample :
  let text : str := "@include a" ++ [nl] ++ "@include ab" in
  includes None text = ["a" : str; "ab" : str]
  /\ fs_lookup [] "ab" = None
  /\ resolve_includes 2 [] None text
     = Returned ("<div class='error'>Missing include: a</div>" ++ [nl]
                 ++ "<div class='error'>Missing include: a</div>b")
  /\ parse_ldoc 2 [] [] text None None None
     = Returned ("<p><div class='error'>Missing include: a</div>" ++ [nl]
                 ++ "<div class='error'>Missing include: a</div>b</p>",
                 default_title, [[]]).
Proof. cbv zeta. repeat split; vm_compute; reflexivity. Qed.

(** C5: a [@title:] with nothing after it on its line.  No line has the
    form [@title: text], and yet a title is returned: the white space of
    the pattern runs over the line feed, the next line is taken as the
    title and is removed from the buffer with the directive. *)
Lemma title_on_next_line_counterexample :
  let text : str := "@title:" ++ [nl] ++ "Intro" ++ [nl] ++ "body" in
  extract_title text = "Intro"
  /\ strip_titles text = [nl] ++ "body"
  /\ parse_ldoc 1 [] [] text None None None
     = Returned ("<p>" ++ [nl] ++ "body</p>", "Intro" : str, [[]]).
Proof. cbv zeta. repeat split; vm_compute; reflexivity. Qed.

(** * Instances *)


(** A caller's table with one entry, and a document that declares [A]. *)
Lemma caller_table_witness :
  exists resolved,
    resolve_includes 1 [] None ("@var A=5" ++ [nl] ++ "@A") = Returned resolved /\
    let decls := re_findall var_pattern (strip_titles resolved) in
    ([("X" : str, "1" : str)] <> [] ->
       heap_read [[("X" : str, "1" : str); ("A" : str, "5" : str)]] 0
       = record_vars decls [("X" : str, "1" : str)]
       /\ length [[("X" : str, "1" : str); ("A" : str, "5" : str)]]
          = length [[("X" : str, "1" : str)]]
       /\ forall before name value rest,
            decls = before ++ (name, value) :: rest ->
            (forall value', ~ In (name, value') rest) ->
            dict_get name (heap_read [[("X" : str, "1" : str); ("A" : str, "5" : str)]] 0)
            = Some (strip value))
    /\ ([("X" : str, "1" : str)] = [] ->
          heap_read [[("X" : str, "1" : str); ("A" : str, "5" : str)]] 0 = []
          /\ heap_read [[("X" : str, "1" : str); ("A" : str, "5" : str)]]
               (length [[("X" : str, "1" : str)]])
             = record_vars decls []).
Proof.
  eapply (caller_table_is_mutated_in_place 1 [] [[("X" : str, "1" : str)]]
            ("@var A=5" ++ [nl] ++ "@A") None 0 None _ _
            [[("X" : str, "1" : str); ("A" : str, "5" : str)]]
            [("X" : str, "1" : str)]).
  - reflexivity.
  - vm_compute. reflexivity.
Defined.

(** A title that holds emphasis marks, a reference and a tag. *)
Lemma raw_title_witness :
  exists fragment h',
    parse_ldoc 1 [] []
      ([] ++ "@title:" ++ " " ++ "*Hi* @X <b>" ++ ([nl] ++ "@var X=1"))
      None None None
    = Returned (fragment, "*Hi* @X <b>" : str, h').
Proof.
  apply (proj2 title_is_the_raw_capture 0 [] [] None None None
           [] " " "*Hi* @X <b>" ([nl] ++ "@var X=1")).
  - apply absent_check; [discriminate|reflexivity].
  - reflexivity.
  - split; [discriminate|split; reflexivity].
  - reflexivity.
  - apply absent_below_spec. reflexivity.
Defined.


(** A text that includes [a], which includes the leaf [b], in a file
    system that also holds a directory and a file that includes itself,
    neither of them reached; and a text that includes a file that includes
    itself. *)
Lemma include_loop_witness :
  (exists fuel text',
     resolve_includes fuel
       [("a" : str, File ("@include b" ++ [nl] ++ "x")); ("b" : str, File "leaf");
        ("img" : str, Directory); ("loop" : str, File "@include loop")]
       None ("intro" ++ [nl] ++ "@include a" ++ [nl] ++ "end")
     = Returned text'
     /\ re_search include_pattern text' = None)
  /\ (forall fuel,
        resolve_includes fuel
          [("a" : str, File "@include a"); ("img" : str, Directory)]
          None "@include a"
        = OutOfFuel).
Proof.
  split.
  - apply (fun T S R =>
             proj1 (proj2 (include_loop_ends_on_ranked_files
                             [("a" : str, File ("@include b" ++ [nl] ++ "x"));
                              ("b" : str, File "leaf");
                              ("img" : str, Directory);
                              ("loop" : str, File "@include loop")]
                             None ("intro" ++ [nl] ++ "@include a" ++ [nl] ++ "end"))
                      [("a" : str, File ("@include b" ++ [nl] ++ "x"));
                       ("b" : str, File "leaf")] T S)
                   (fun p : str => if str_eqb p "a" then 1 else 0) R).
    + reflexivity.
    + reflexivity.
    + reflexivity.
  - apply (fun T S R I =>
             proj2 (proj2 (include_loop_ends_on_ranked_files
                             [("a" : str, File "@include a"); ("img" : str, Directory)]
                             None "@include a")
                      [("a" : str, File "@include a")] T S)
                   ["a" : str] R I).
    + reflexivity.
    + reflexivity.
    + reflexivity.
    + reflexivity.
Defined.

(** A directive to a file that does not exist, in an empty file system;
    a text with three such directives, two of them equal; and a text that
    includes a file that exists, which holds a directive to a file that
    does not and a directive to a leaf. *)
Lemma missing_include_witness :
  (include_step [] None (("x" ++ [nl]) ++ ("@include " ++ "gone.ldoc") ++ ([nl] ++ "y"))
   = Next (("x" ++ [nl])
           ++ ("<div class='error'>Missing include: " ++ strip "gone.ldoc" ++ "</div>")
           ++ replace ("@include " ++ "gone.ldoc")
                ("<div class='error'>Missing include: " ++ strip "gone.ldoc" ++ "</div>")
                ([nl] ++ "y"))
   /\ resolve_includes 2 [] None
        (("x" ++ [nl]) ++ ("@include " ++ "gone.ldoc") ++ ([nl] ++ "y"))
      = resolve_includes 1 [] None
          (("x" ++ [nl])
           ++ ("<div class='error'>Missing include: " ++ strip "gone.ldoc" ++ "</div>")
           ++ replace ("@include " ++ "gone.ldoc")
                ("<div class='error'>Missing include: " ++ strip "gone.ldoc" ++ "</div>")
                ([nl] ++ "y")))
  /\ resolve_includes 4 [("kept" : str, File "@include kept")] (Some ("docs" : str))
       ("x" ++ [nl] ++ "@include gone.ldoc" ++ [nl] ++ "y" ++ [nl]
        ++ "@include  other " ++ [nl] ++ "@include gone.ldoc")
     = Returned
         ("x" ++ [nl] ++ "<div class='error'>Missing include: gone.ldoc</div>"
          ++ [nl] ++ "y" ++ [nl]
          ++ "<div class='error'>Missing include: other</div>" ++ [nl]
          ++ "<div class='error'>Missing include: gone.ldoc</div>")
  /\ (exists fuel,
        resolve_includes fuel
          [("a" : str, File ("top" ++ [nl] ++ "@include gone" ++ [nl] ++ "@include b"));
           ("b" : str, File "leaf"); ("img" : str, Directory)]
          None ("x" ++ [nl] ++ "@include a" ++ [nl] ++ "@include nope" ++ [nl] ++ "y")
        = Returned
            ("x" ++ [nl] ++ "top" ++ [nl]
             ++ "<div class='error'>Missing include: gone</div>" ++ [nl]
             ++ "leaf" ++ [nl]
             ++ "<div class='error'>Missing include: nope</div>" ++ [nl] ++ "y")).
Proof.
  split; [|split].
  - apply (proj1 missing_include_is_marked [] None ("x" ++ [nl]) "gone.ldoc"
             ([nl] ++ "y") 1).
    + split; [discriminate|reflexivity].
    + reflexivity.
    + apply absent_below_spec. reflexivity.
    + reflexivity.
  - apply (proj1 (proj2 missing_include_is_marked)
             [("kept" : str, File "@include kept")] (Some ("docs" : str))
             ("x" ++ [nl] ++ "@include gone.ldoc" ++ [nl] ++ "y" ++ [nl]
              ++ "@include  other " ++ [nl] ++ "@include gone.ldoc") 4).
    + reflexivity.
    + reflexivity.
    + intros q Hq. vm_compute in Hq. intuition (subst; reflexivity).
    + vm_compute. lia.
  - apply (proj2 (proj2 missing_include_is_marked)
             [("a" : str, File ("top" ++ [nl] ++ "@include gone" ++ [nl] ++ "@include b"));
              ("b" : str, File "leaf"); ("img" : str, Directory)]
             [("a" : str, File ("top" ++ [nl] ++ "@include gone" ++ [nl] ++ "@include b"));
              ("b" : str, File "leaf")]
             None ("x" ++ [nl] ++ "@include a" ++ [nl] ++ "@include nope" ++ [nl] ++ "y")
             (fun p : str => if str_eqb p "a" then 1 else 0) 2).
    + reflexivity.
    + reflexivity.
    + reflexivity.
    + reflexivity.
Defined.

(** A title on the second line, a second title further down; and a title
    line at the start and another in the middle. *)
Lemma title_witness :
  (extract_title (("x" ++ [nl]) ++ "@title:" ++ " " ++ "My Title"
                  ++ ([nl] ++ "@title: Two" ++ [nl] ++ "rest"))
   = "My Title"
   /\ strip_titles (("x" ++ [nl]) ++ "@title:" ++ " " ++ "My Title"
                    ++ ([nl] ++ "@title: Two" ++ [nl] ++ "rest"))
      = ("x" ++ [nl]) ++ strip_titles ([nl] ++ "@title: Two" ++ [nl] ++ "rest"))
  /\ (extract_title ([] ++ "@title:" ++ " " ++ "One" ++ [nl] ++ "mid" ++ [nl]
                     ++ "@title:" ++ " " ++ "Two" ++ [nl] ++ "end")
      = "One"
      /\ strip_titles ([] ++ "@title:" ++ " " ++ "One" ++ [nl] ++ "mid" ++ [nl]
                       ++ "@title:" ++ " " ++ "Two" ++ [nl] ++ "end")
         = [] ++ [nl] ++ ("mid" ++ [nl]) ++ [nl] ++ "end").
Proof.
  split.
  - apply (proj1 title_first_match_all_stripped
             ("x" ++ [nl]) " " "My Title" ([nl] ++ "@title: Two" ++ [nl] ++ "rest")).
    + reflexivity.
    + split; [discriminate|split; reflexivity].
    + reflexivity.
    + apply absent_below_spec. reflexivity.
  - apply (proj2 (proj2 (proj2 title_first_match_all_stripped))
             [] "One" ("mid" ++ [nl]) "Two" "end").
    + split; [discriminate|split; reflexivity].
    + split; [discriminate|split; reflexivity].
    + reflexivity.
    + reflexivity.
    + reflexivity.
Defined.

(** The value of [A] holds [@B]: a table in which [A] stands between two
    other entries; and the two orders of declaration, a second declaration
    of [B], and a caller's table that holds [B]. *)
Lemma substitution_order_witness :
  substitute_vars ([("X" : str, "1" : str)] ++ ("A" : str, "x@B" : str)
                   :: [("B" : str, "y" : str)])
                  ("see " ++ ("@" ++ "A") ++ ".")
  = substitute_vars [("B" : str, "y" : str)] ("see " ++ "x@B" ++ ".")
  /\ (let text := "see " ++ ("@" ++ "A") ++ "." in
      substitute_vars (record_vars [("B" : str, "y" : str); ("A" : str, "x@B" : str)] [])
                      text
      = "see " ++ strip "x@B" ++ "."
      /\ substitute_vars (record_vars [("A" : str, "x@B" : str); ("B" : str, "y" : str)] [])
                         text
         = replace ("@" ++ "B") (strip "y") ("see " ++ strip "x@B" ++ ".")
      /\ substitute_vars
           (record_vars [("B" : str, "old" : str); ("A" : str, "x@B" : str);
                         ("B" : str, "y" : str)] []) text
         = "see " ++ strip "x@B" ++ "."
      /\ substitute_vars
           (record_vars [("A" : str, "x@B" : str); ("B" : str, "y" : str)]
                        [("B" : str, "held" : str)]) text
         = "see " ++ strip "x@B" ++ ".").
Proof.
  split.
  - apply (proj1 substitution_follows_declaration_order
             [("X" : str, "1" : str)] [("B" : str, "y" : str)] "A" "x@B" "see " ".").
    + reflexivity.
    + reflexivity.
    + reflexivity.
    + intros k v [E|[]]. injection E as <- _. reflexivity.
  - assert (H := fun H1 H2 H3 H4 H5 =>
                   proj2 (proj2 substitution_follows_declaration_order)
                     "A" "B" "x@B" "y" "see " "." H1 H2 H3 H4 H5).
    cbv zeta in H |- *.
    destruct H as (H1 & H2 & H3 & H4); try reflexivity.
    + split; reflexivity.
    + auto.
Defined.


(** * Further properties *)

(** ** Documents without markup *)

Lemma forallb_weaken {A} (f g : A -> bool) (l : list A) :
  (forall x, f x = true -> g x = true) -> forallb f l = true -> forallb g l = true.
Proof.
  intros H. induction l as [|x l IH]; simpl; [reflexivity|].
  intros E. apply andb_true_iff in E as [E1 E2].
  rewrite (H _ E1), (IH E2). reflexivity.
Qed.

Lemma lit_lacking {A} (c : ascii) (p : str) (k : cont A) (s : str) (i : nat) :
  forallb (differs c) s = true -> lit (c :: p) k (skipn i s) = None.
Proof.
  intros H. apply lit_none.
  apply (forallb_skipn _ _ i) in H.
  destruct (skipn i s) as [|x r]; [reflexivity|].
  simpl in H. apply andb_true_iff in H as [H _].
  unfold differs in H. apply negb_true_iff in H.
  cbn [starts_with]. rewrite H. reflexivity.
Qed.

Lemma pattern_lacking {A B} (f : A -> B) (c : ascii) (p : str) (k : cont A)
  (s : str) (i : nat) :
  forallb (differs c) s = true -> pmap f (lit (c :: p) k) (skipn i s) = None.
Proof. intros H. unfold pmap. rewrite (lit_lacking c p k s i H). reflexivity. Qed.

Lemma sub_from_never {A} (m : matcher A) (f : A -> str) (s : str) :
  (forall b i, m b (skipn i s) = None) -> re_sub m f s = s.
Proof.
  intros H. unfold re_sub.
  rewrite <- (app_nil_r s) at 1. rewrite sub_from_pass.
  - simpl. apply app_nil_r.
  - intros i _. rewrite app_nil_r. apply H.
Qed.

Lemma at_bol_lacking {A B} (f : A -> B) (c : ascii) (p : str) (k : cont A)
  (s : str) b i :
  forallb (differs c) s = true ->
  at_bol (pmap f (lit (c :: p) k)) b (skipn i s) = None.
Proof.
  intros H. unfold at_bol. destruct b; [|reflexivity].
  now apply pattern_lacking.
Qed.

Lemma heap_write_read (h : heap) (r : nat) :
  heap_write h r (heap_read h r) = h.
Proof.
  unfold heap_read. revert r. induction h as [|d h IH]; intros [|r]; simpl;
    try reflexivity.
  now rewrite IH.
Qed.

Lemma rule_pattern_local : line_local rule_pattern.
Proof.
  apply at_bol_local.
  - apply lit_local; [reflexivity|].
    intros l r Hl. split.
    + destruct l as [|c l]; simpl.
      * reflexivity.
      * simpl in Hl. apply andb_true_iff in Hl as [Hc _].
        unfold not_nl in Hc. apply negb_true_iff in Hc. now rewrite Hc.
    + intros a n E. destruct l as [|c l]; simpl in E.
      * injection E as _ <-. simpl. lia.
      * destruct (is_nl c); inversion E. lia.
  - apply lit_positive. discriminate.
Qed.

Lemma tasklist_pattern_local : line_local tasklist_pattern.
Proof.
  apply at_bol_local.
  - apply pmap_local, lit_local; [reflexivity|].
    apply one_local; [reflexivity|].
    apply lit_local; [reflexivity|]. apply rest_of_line_local.
  - apply pmap_positive, lit_positive. discriminate.
Qed.

Lemma item_pattern_local : line_local item_pattern.
Proof.
  apply at_bol_local.
  - apply pmap_local, lit_local; [reflexivity|]. apply rest_of_line_local.
  - apply pmap_positive, lit_positive. discriminate.
Qed.

Lemma re_sub_by_line {A} (k : cont A) (f : A -> str) (s : str) :
  line_local (at_bol k) ->
  (forall l, In l (lines_of s) -> k l = None) ->
  re_sub (at_bol k) f s = s.
Proof.
  intros Hloc H. rewrite (re_sub_lines _ Hloc).
  rewrite <- (join_lines_of s) at 2. f_equal.
  rewrite <- (map_id (lines_of s)) at 2.
  apply map_ext_in. intros l Hl.
  apply re_sub_line_none.
  - pose proof (lines_of_not_nl s) as F. rewrite Forall_forall in F. now apply F.
  - now apply H.
Qed.

Lemma fold_left_fixed {A B} (f : A -> B -> A) (l : list B) (a : A) :
  (forall b, f a b = a) -> fold_left f l a = a.
Proof.
  intros H. induction l as [|b l IH]; simpl; [reflexivity|].
  now rewrite H.
Qed.

Lemma first_char_none {A} (c : ascii) (p : str) (k : cont A) (l : str) :
  starts_with [c] l = false -> lit (c :: p) k l = None.
Proof.
  intros H. apply lit_none. destruct l as [|x l]; [reflexivity|].
  cbn [starts_with] in *. rewrite andb_true_r in H. now rewrite H.
Qed.

Section Plain.
Variable text : str.
Hypothesis plain : plain_text text.

Lemma lacks_at : forallb (differs "@") text = true.
Proof.
  destruct plain as [H _]. revert H. apply forallb_weaken.
  unfold inert_char. intros x E.
  now repeat (apply andb_true_iff in E as [E _]).
Qed.

Lemma lacks_backtick : forallb (differs "`") text = true.
Proof.
  destruct plain as [H _]. revert H. apply forallb_weaken.
  unfold inert_char. intros x E.
  apply andb_true_iff in E as [E _]. apply andb_true_iff in E as [E _].
  now apply andb_true_iff in E as [_ E].
Qed.

Lemma lacks_star : forallb (differs "*") text = true.
Proof.
  destruct plain as [H _]. revert H. apply forallb_weaken.
  unfold inert_char. intros x E.
  apply andb_true_iff in E as [E _]. now apply andb_true_iff in E as [_ E].
Qed.

Lemma lacks_bracket : forallb (differs "[") text = true.
Proof.
  destruct plain as [H _]. revert H. apply forallb_weaken.
  unfold inert_char. intros x E. now apply andb_true_iff in E as [_ E].
Qed.

Lemma line_starts (l : str) :
  In l (lines_of text) ->
  starts_with "#" l = false /\ starts_with "-" l = false.
Proof.
  destruct plain as (_ & H & _). rewrite forallb_forall in H.
  intros Hl. specialize (H l Hl). unfold inert_line in H.
  apply andb_true_iff in H as [H1 H2].
  now rewrite negb_true_iff in H1, H2.
Qed.

Lemma replace_at (key new : str) : replace ("@" ++ key) new text = text.
Proof.
  apply replace_absent; [discriminate|]. intros i _.
  unfold occurs_at. pose proof (lit_lacking "@" key done text i lacks_at) as E.
  unfold lit in E. change (("@" : str) ++ key) with ("@"%char :: key).
  destruct (starts_with ("@"%char :: key) (skipn i text)); [|reflexivity].
  destruct (done (skipn (length ("@"%char :: key)) (skipn i text)))
    as [[[] ?]|] eqn:D; simpl in E; [discriminate|].
  unfold done in D. discriminate.
Qed.

Lemma sub_at {A B} (f : A -> B) (p : str) (k : cont A) (r : B -> str) :
  re_sub (anywhere (pmap f (lit ("@"%char :: p) k))) r text = text.
Proof. apply re_sub_absent. intros i. apply pattern_lacking, lacks_at. Qed.

Lemma findall_at {A B} (f : A -> B) (p : str) (k : cont A) :
  re_findall (anywhere (pmap f (lit ("@"%char :: p) k))) text = [].
Proof. apply re_findall_absent. intros i. apply pattern_lacking, lacks_at. Qed.

Lemma search_at {A B} (f : A -> B) (p : str) (k : cont A) :
  re_search (anywhere (pmap f (lit ("@"%char :: p) k))) text = None.
Proof. apply re_search_absent. intros i. apply pattern_lacking, lacks_at. Qed.

Lemma resolve_plain fuel fs base_dir :
  resolve_includes (S fuel) fs base_dir text = Returned text.
Proof. apply resolve_absent. apply (forallb_not_at_absent "include "). 
  generalize lacks_at. apply forallb_weaken. intros x. unfold differs, not_at.
  now rewrite Ascii.eqb_sym.
Qed.

Lemma title_plain : extract_title text = default_title /\ strip_titles text = text.
Proof.
  unfold extract_title, strip_titles. split.
  - unfold title_pattern. now rewrite (search_at _ "title:").
  - apply (sub_at _ "title:").
Qed.

Lemma vars_plain (d : dict) :
  re_findall var_pattern text = [] /\ strip_vars text = text
  /\ substitute_vars d text = text.
Proof.
  split; [apply (findall_at _ "var ")|]. split; [apply (sub_at _ "var ")|].
  unfold substitute_vars. apply fold_left_fixed. intros [key val].
  apply replace_at.
Qed.

Lemma conditionals_plain platform : eval_conditionals platform text = text.
Proof.
  unfold eval_conditionals, if_pattern. now rewrite (findall_at _ "if ").
Qed.

Lemma codeblocks_plain :
  use_codeblocks (record_codeblocks (re_findall block_pattern text))
                 (re_sub block_pattern (fun _ => []) text) = text.
Proof.
  unfold block_pattern. rewrite (findall_at _ "codeblock ").
  rewrite (sub_at _ "codeblock "). reflexivity.
Qed.

Lemma toc_plain : insert_toc text = text.
Proof. unfold insert_toc. apply (replace_at "toc"). Qed.

Lemma hashes_plain (marks : str) (f : str -> str) :
  forallb not_nl marks = true ->
  re_sub (hashes_pattern ("#"%char :: marks)) f text = text.
Proof.
  intros Hm. apply re_sub_by_line.
  - apply (hashes_pattern_local ("#"%char :: marks)). exact Hm.
  - intros l Hl. unfold pmap.
    change ((("#"%char :: marks) : str) ++ " ") with ("#"%char :: (marks ++ " ")).
    rewrite first_char_none; [reflexivity|]. now apply line_starts.
Qed.

Lemma headings_plain : headings text = text.
Proof.
  unfold headings. rewrite (hashes_plain "##") by reflexivity.
  rewrite (hashes_plain "#") by reflexivity.
  apply (hashes_plain []). reflexivity.
Qed.

Lemma command_plain : re_sub command_pattern command_replacer text = text.
Proof.
  apply sub_from_never. intros b i. apply (at_bol_lacking _ "@" "command: ").
  apply lacks_at.
Qed.

Lemma code_plain :
  re_sub fence_pattern fence_html text = text
  /\ re_sub inline_code_pattern (tagged "code") text = text.
Proof.
  split; apply re_sub_absent; intros i.
  - apply (pattern_lacking _ "`" "``"), lacks_backtick.
  - apply (pattern_lacking _ "`" []), lacks_backtick.
Qed.

Lemma emphasis_plain (mark tag : str) :
  re_sub (emphasis_pattern ("*"%char :: mark)) (tagged tag) text = text.
Proof.
  apply re_sub_absent; intros i. apply (pattern_lacking _ "*" mark), lacks_star.
Qed.

Lemma rule_plain : re_sub rule_pattern (fun _ => "<hr>" : str) text = text.
Proof.
  apply re_sub_by_line; [apply rule_pattern_local|].
  intros l Hl. apply (first_char_none "-" "--"). now apply line_starts.
Qed.

Lemma lists_plain : lists text = text.
Proof.
  unfold lists.
  assert (E1 : re_sub tasklist_pattern tasklist_replacer text = text).
  { apply re_sub_by_line; [apply tasklist_pattern_local|].
    intros l Hl. unfold pmap. rewrite (first_char_none "-" " ["); [reflexivity|].
    now apply line_starts. }
  rewrite E1.
  assert (E2 : re_sub item_pattern (tagged "li") text = text).
  { apply re_sub_by_line; [apply item_pattern_local|].
    intros l Hl. unfold pmap. rewrite (first_char_none "-" " "); [reflexivity|].
    now apply line_starts. }
  rewrite E2.
  apply re_sub_absent. intros i. unfold pmap. rewrite lit_none; [reflexivity|].
  destruct plain as (_ & _ & H & _). apply H.
Qed.

Lemma links_plain : re_sub link_pattern link_html text = text.
Proof.
  apply re_sub_absent; intros i. apply (pattern_lacking _ "[" []), lacks_bracket.
Qed.

Lemma callouts_plain : callouts text = text.
Proof.
  unfold callouts, rest_of_line_pattern.
  rewrite (sub_at _ "note: "), (sub_at _ "warning: "), (sub_at _ "info: "),
    (sub_at _ "tip: ").
  apply (sub_at _ "todo: ").
Qed.

Lemma paragraphs_plain : paragraphs text = "<p>" ++ text ++ "</p>".
Proof.
  unfold paragraphs. do 2 f_equal.
  apply re_sub_absent. intros i. unfold pmap.
  destruct plain as (_ & _ & _ & H). specialize (H i). unfold occurs_at in H.
  destruct (skipn i text) as [|c [|d r]]; try reflexivity.
  - simpl. now destruct (is_nl c).
  - cbn [starts_with] in H. simpl.
    fold (is_nl c) in *.
    destruct (is_nl c) eqn:Ec; [|reflexivity].
    destruct (is_nl d) eqn:Ed; [|reflexivity].
    apply is_nl_true in Ec, Ed. subst. discriminate.
Qed.

Lemma render_plain (d : dict) platform :
  render d platform text = "<p>" ++ text ++ "</p>".
Proof.
  unfold render.
  destruct (vars_plain d) as (_ & _ & ->).
  rewrite conditionals_plain, codeblocks_plain, toc_plain, headings_plain,
    command_plain.
  destruct code_plain as [-> ->].
  assert (E1 : re_sub (emphasis_pattern "**") (tagged "strong") text = text)
    by apply (emphasis_plain "*" "strong").
  assert (E2 : re_sub (emphasis_pattern "*") (tagged "em") text = text)
    by apply (emphasis_plain [] "em").
  rewrite E1, E2.
  rewrite rule_plain, lists_plain, links_plain.
  unfold image_pattern, rest_of_line_pattern.
  rewrite (sub_at _ "image: "), (sub_at _ "video: ").
  rewrite callouts_plain.
  unfold alerts, alert_pattern. rewrite (sub_at _ "alert ").
  unfold badge_pattern, table_pattern.
  rewrite (sub_at _ "badge: "), (sub_at _ "table:").
  apply paragraphs_plain.
Qed.

End Plain.

(** X1: a document without markup comes out as one paragraph.  When
    the text holds none of the characters [@], a backtick, [*] and [[],
    no line that starts with [#] or [-], no [<li>] and no blank line,
    [parse_ldoc] returns the text as it is between [<p>] and [</p>], with
    the title [Documentation], whatever the files, the base directory, the
    variable table and the platform, with one turn of fuel; the store is the
    caller's, with the new empty table when the call made one. *)
Theorem plain_document_is_one_paragraph
  fuel fs (h : heap) (text : str) base_dir vars_dict platform :
  plain_text text ->
  parse_ldoc (S fuel) fs h text base_dir vars_dict platform
  = Returned ("<p>" ++ text ++ "</p>", default_title,
              snd (vars_or_fresh h vars_dict)).
Proof.
  intros plain. unfold parse_ldoc.
  destruct (vars_or_fresh h vars_dict) as [r h1].
  rewrite (resolve_plain text plain).
  destruct (title_plain text plain) as [-> ->].
  destruct (vars_plain text plain []) as (-> & -> & _).
  cbn [record_vars fold_left snd]. rewrite heap_write_read.
  now rewrite render_plain.
Qed.

(** ** The paragraph container *)

Lemma blank_cont_inv (s : str) u n :
  blank_cont s = Some (u, n) ->
  exists r, s = repeat nl n ++ r /\ 2 <= n /\ stops is_nl r.
Proof.
  unfold blank_cont, pmap, one. destruct s as [|c s]; [discriminate|].
  destruct (is_nl c) eqn:Ec; [|discriminate].
  destruct (greedy_plus is_nl done s) as [[[g []] m]|] eqn:E; [|discriminate].
  simpl. intros H. injection H as _ <-.
  apply greedy_plus_done_inv in E as (Hg & Hall & -> & r & -> & Hr).
  exists r. apply is_nl_true in Ec. subst c.
  assert (Eg : g = repeat nl (length g)).
  { clear Hg Hr. induction g as [|x g IH]; [reflexivity|].
    simpl in Hall. apply andb_true_iff in Hall as [Hx Hall].
    apply is_nl_true in Hx. subst x. simpl. f_equal. now apply IH. }
  split.
  - simpl. f_equal. now rewrite <- Eg.
  - split; [|exact Hr]. destruct g; [contradiction|simpl; lia].
Qed.

Lemma blank_cont_none (c : ascii) (s : str) :
  blank_cont (c :: s) = None -> is_nl c = true -> stops is_nl s.
Proof.
  unfold blank_cont, pmap, one. intros H Ec. rewrite Ec in H.
  destruct s as [|d s]; [exact I|]. simpl.
  destruct (is_nl d) eqn:Ed; [|reflexivity].
  exfalso. unfold greedy_plus in H. rewrite Ed in H.
  rewrite greedy_star_done in H. discriminate.
Qed.

Lemma no_blank_cons (c : ascii) (s : str) :
  (is_nl c = true -> stops is_nl s) -> no_blank s = true ->
  no_blank (c :: s) = true.
Proof.
  intros H E. destruct s as [|d s]; [reflexivity|].
  change (no_blank (c :: d :: s))
    with (negb (is_nl c && is_nl d) && no_blank (d :: s)).
  rewrite E, andb_true_r. destruct (is_nl c); [|reflexivity].
  simpl in H. now rewrite H.
Qed.

Lemma no_blank_app (u s : str) :
  forallb not_nl u = true -> no_blank s = true -> no_blank (u ++ s) = true.
Proof.
  intros Hu Hs. induction u as [|c u IH]; [exact Hs|].
  simpl in Hu. apply andb_true_iff in Hu as [Hc Hu].
  simpl app. apply no_blank_cons; [|now apply IH].
  intros E. unfold not_nl in Hc. rewrite E in Hc. discriminate.
Qed.

Lemma no_blank_end (s u : str) :
  forallb not_nl u = true -> u <> [] -> no_blank s = true ->
  no_blank (s ++ u) = true.
Proof.
  intros Hu Hne. induction s as [|c s IH]; intros Hs.
  - simpl. rewrite <- (app_nil_r u). now apply no_blank_app.
  - destruct s as [|d s].
    + simpl. apply no_blank_cons.
      * intros _. destruct u as [|x u]; [contradiction|].
        simpl in *. apply andb_true_iff in Hu as [Hx _].
        unfold not_nl in Hx. now apply negb_true_iff in Hx.
      * rewrite <- (app_nil_r u). now apply no_blank_app.
    + change (no_blank (c :: d :: s))
        with (negb (is_nl c && is_nl d) && no_blank (d :: s)) in Hs.
      apply andb_true_iff in Hs as [H1 H2].
      change ((c :: d :: s) ++ u) with (c :: d :: (s ++ u)).
      change (no_blank (c :: d :: (s ++ u)))
        with (negb (is_nl c && is_nl d) && no_blank ((d :: s) ++ u)).
      rewrite H1. simpl andb. now apply IH.
Qed.

Lemma no_blank_absent (s : str) :
  no_blank s = true -> absent [nl; nl] s.
Proof.
  intros H i. revert s H. induction i as [|i IH]; intros [|c [|d s]] H;
    try reflexivity.
  - unfold occurs_at. simpl skipn. cbn [starts_with]. now destruct (Ascii.eqb nl c).
  - change (no_blank (c :: d :: s))
      with (negb (is_nl c && is_nl d) && no_blank (d :: s)) in H.
    apply andb_true_iff in H as [H _]. unfold occurs_at. simpl skipn.
    cbn [starts_with]. rewrite andb_true_r.
    unfold is_nl in H. rewrite (Ascii.eqb_sym nl c), (Ascii.eqb_sym nl d).
    now apply negb_true_iff in H.
  - unfold occurs_at. simpl. now destruct i.
  - change (no_blank (c :: d :: s))
      with (negb (is_nl c && is_nl d) && no_blank (d :: s)) in H.
    apply andb_true_iff in H as [_ H].
    change (occurs_at [nl; nl] (c :: d :: s) (S i))
      with (occurs_at [nl; nl] (d :: s) i). now apply IH.
Qed.

Lemma blank_lines_closed (s : str) :
  no_blank (re_sub (anywhere blank_cont) (fun _ => "</p><p>" : str) s) = true
  /\ (stops is_nl s ->
      stops is_nl (re_sub (anywhere blank_cont) (fun _ => "</p><p>" : str) s)).
Proof.
  induction s as [s IH] using (induction_ltof1 _ (@length ascii)).
  unfold ltof in IH. destruct s as [|c s]; [split; [reflexivity|intros _; exact I]|].
  destruct (blank_cont (c :: s)) as [[u n]|] eqn:E.
  - destruct (blank_cont_inv _ _ _ E) as (r & Es & Hn & Hr).
    rewrite Es. rewrite Es in E.
    assert (Hu : repeat nl n <> []) by (destruct n; [lia|discriminate]).
    rewrite (re_sub_match blank_cont _ (repeat nl n) r u Hu)
      by (now rewrite repeat_length).
    destruct (IH r) as [IH1 IH2].
    { rewrite Es, length_app, repeat_length. lia. }
    split.
    + now apply no_blank_app.
    + intros _. reflexivity.
  - assert (P : re_sub (anywhere blank_cont) (fun _ => "</p><p>" : str) (c :: s)
                = c :: re_sub (anywhere blank_cont) (fun _ => "</p><p>" : str) s).
    { apply (re_sub_pass blank_cont _ [c] s). intros [|i] Hi; [exact E|].
      simpl in Hi. lia. }
    rewrite P. destruct (IH s) as [IH1 IH2]; [simpl; lia|]. split.
    + apply no_blank_cons; [|exact IH1]. intros Ec. apply IH2.
      now apply (blank_cont_none c).
    + simpl. auto.
Qed.

Lemma paragraphs_shape (text : str) :
  (exists body, paragraphs text = "<p>" ++ body ++ "</p>")
  /\ absent [nl; nl] (paragraphs text).
Proof.
  split; [now eexists|].
  apply no_blank_absent. unfold paragraphs.
  apply no_blank_app; [reflexivity|].
  apply no_blank_end; [reflexivity|discriminate|].
  apply (blank_lines_closed text).
Qed.

(** X2: whenever [parse_ldoc] returns, the fragment starts with
    [<p>], ends with [</p>] and holds no two line feeds in a row: every run
    of two line feeds or more has become a paragraph break. *)
Theorem fragment_is_closed_paragraphs
  fuel fs (h : heap) (text : str) base_dir vars_dict platform fragment title h' :
  parse_ldoc fuel fs h text base_dir vars_dict platform
  = Returned (fragment, title, h') ->
  (exists body, fragment = "<p>" ++ body ++ "</p>")
  /\ absent [nl; nl] fragment.
Proof.
  unfold parse_ldoc. destruct (vars_or_fresh h vars_dict) as [r h1].
  destruct (resolve_includes fuel fs base_dir text) as [resolved| |];
    try discriminate.
  intros E. injection E as <- _ _. unfold render. apply paragraphs_shape.
Qed.

(** ** Escaping and anchors *)

Lemma replace_char (c : ascii) (new s : str) :
  replace [c] new s = flat_map (fun x => if Ascii.eqb x c then new else [x]) s.
Proof.
  induction s as [|x s IH].
  - reflexivity.
  - cbn [flat_map]. destruct (Ascii.eqb x c) eqn:E.
    + apply Ascii.eqb_eq in E. subst x.
      change (c :: s) with ([c] ++ s).
      rewrite (replace_here [c] new s) by discriminate. now rewrite IH.
    + change (x :: s) with ([x] ++ s). rewrite (replace_pass [c] new [x] s).
      * now rewrite IH.
      * intros [|i] Hi; [|simpl in Hi; lia].
        unfold occurs_at. simpl skipn. cbn [starts_with app].
        rewrite Ascii.eqb_sym, E. reflexivity.
Qed.

Lemma escape_char_steps (x : ascii) :
  flat_map (fun y => if Ascii.eqb y ">" then "&gt;" : str else [y])
    (flat_map (fun y => if Ascii.eqb y "<" then "&lt;" : str else [y])
       (if Ascii.eqb x "&" then "&amp;" : str else [x]))
  = escape_char x.
Proof.
  unfold escape_char. destruct (Ascii.eqb x "&") eqn:E1; [reflexivity|].
  cbn [flat_map]. destruct (Ascii.eqb x "<") eqn:E2; [reflexivity|].
  cbn [flat_map app]. now destruct (Ascii.eqb x ">").
Qed.

Lemma escape_char_safe (x : ascii) :
  forallb (fun c => differs "<" c && differs ">" c) (escape_char x) = true.
Proof.
  unfold escape_char. destruct (Ascii.eqb x "&") eqn:E1; [reflexivity|].
  destruct (Ascii.eqb x "<") eqn:E2; [reflexivity|].
  destruct (Ascii.eqb x ">") eqn:E3; [reflexivity|].
  cbn [forallb]. unfold differs.
  rewrite (Ascii.eqb_sym "<" x), (Ascii.eqb_sym ">" x), E2, E3. reflexivity.
Qed.

Lemma forallb_flat_map {A B} (f : A -> list B) (P : B -> bool) (l : list A) :
  (forall x, forallb P (f x) = true) -> forallb P (flat_map f l) = true.
Proof.
  intros H. induction l as [|x l IH]; [reflexivity|].
  simpl. rewrite forallb_app, H, IH. reflexivity.
Qed.

(** X3: the three replacements of [command_replacer], made one
    after the other, escape each character of the command once: [&], [<]
    and [>] become [&amp;], [&lt;] and [&gt;], the ampersands of these are
    not escaped again, and the escaped command holds no [<] and no [>]. *)
Theorem command_is_escaped_once (cmd : str) :
  command_replacer cmd
  = "<pre><code class=" ++ quoted "command" ++ ">" ++ flat_map escape_char cmd
    ++ "</code></pre>"
  /\ forallb (fun c => differs "<" c && differs ">" c) (flat_map escape_char cmd)
     = true.
Proof.
  split.
  - unfold command_replacer. do 4 f_equal.
    change (">" : str) with [">"%char]. change ("<" : str) with ["<"%char].
    change ("&" : str) with ["&"%char].
    rewrite !replace_char, !flat_map_flat_map.
    apply flat_map_ext_in. intros x _. rewrite <- flat_map_flat_map.
    apply escape_char_steps.
  - apply forallb_flat_map, escape_char_safe.
Qed.

Lemma lower_char_twice (c : ascii) : lower_char (lower_char c) = lower_char c.
Proof. destruct c as [[] [] [] [] [] [] [] []]; reflexivity. Qed.

Lemma lower_char_space (c : ascii) :
  Ascii.eqb (lower_char c) " " = Ascii.eqb c " ".
Proof. destruct c as [[] [] [] [] [] [] [] []]; reflexivity. Qed.

Lemma slug_by_char (s : str) : slug s = map slug_char s.
Proof.
  unfold slug, lower. change (" " : str) with [" "%char].
  rewrite replace_char. induction s as [|c s IH]; [reflexivity|].
  cbn [map flat_map]. rewrite IH. unfold slug_char at 2.
  rewrite lower_char_space. now destruct (Ascii.eqb c " ").
Qed.

Lemma slug_char_twice (c : ascii) : slug_char (slug_char c) = slug_char c.
Proof.
  unfold slug_char. destruct (Ascii.eqb c " ") eqn:E; [reflexivity|].
  rewrite lower_char_space, E. apply lower_char_twice.
Qed.

(** X4: on a heading text whose characters lie below code point 256,
    the range of this model, where [str.lower] maps each character on its
    own, the anchor is made character by character: a space becomes a
    hyphen and any other character is lowered.  So, on such texts, the
    anchor of a concatenation is the concatenation of the anchors, an anchor
    holds no space, and the anchor of an anchor is the anchor itself.
    Nothing is said of texts with characters beyond that range, where
    [str.lower] looks at the context and may change the length. *)
Theorem anchor_is_made_char_by_char (s t : str) :
  slug s = map slug_char s
  /\ slug (s ++ t) = slug s ++ slug t
  /\ forallb (differs " ") (slug s) = true
  /\ slug (slug s) = slug s.
Proof.
  split; [apply slug_by_char|]. split; [|split].
  - rewrite !slug_by_char. apply map_app.
  - rewrite slug_by_char. induction s as [|c s IH]; [reflexivity|].
    cbn [map forallb]. rewrite IH, andb_true_r.
    unfold slug_char, differs. destruct (Ascii.eqb c " ") eqn:E; [reflexivity|].
    rewrite Ascii.eqb_sym, lower_char_space, E. reflexivity.
  - rewrite !slug_by_char, map_map. apply map_ext. apply slug_char_twice.
Qed.

(** ** The include loop when no file exists *)

Lemma starts_with_ext (p u v : str) :
  starts_with p u = true -> starts_with p (u ++ v) = true.
Proof.
  revert u. induction p as [|x p IH]; intros [|c u] H; try reflexivity.
  - discriminate.
  - simpl in *. apply andb_true_iff in H as [H1 H2]. now rewrite H1, IH.
Qed.

Lemma count_inc_cons (c : ascii) (s : str) :
  count_inc (c :: s) = (if starts_with inc (c :: s) then 1 else 0) + count_inc s.
Proof. reflexivity. Qed.

Lemma count_app_le (u v : str) : count_inc u + count_inc v <= count_inc (u ++ v).
Proof.
  induction u as [|c u IH]; [simpl; lia|].
  change ((c :: u) ++ v) with (c :: (u ++ v)). rewrite !count_inc_cons.
  destruct (starts_with inc (c :: u)) eqn:E.
  - change (c :: u ++ v) with ((c :: u) ++ v).
    rewrite (starts_with_ext inc (c :: u) v E). lia.
  - destruct (starts_with inc (c :: u ++ v)); lia.
Qed.

Lemma count_no_at (u v : str) :
  forallb not_at u = true -> count_inc (u ++ v) = count_inc v.
Proof.
  induction u as [|c u IH]; [reflexivity|]. intros H.
  simpl in H. apply andb_true_iff in H as [Hc Hu].
  change ((c :: u) ++ v) with (c :: (u ++ v)). rewrite count_inc_cons, IH by assumption.
  unfold not_at in Hc. apply negb_true_iff in Hc.
  change (starts_with inc (c :: u ++ v))
    with (Ascii.eqb "@" c && starts_with "include " (u ++ v)).
  now rewrite Ascii.eqb_sym, Hc.
Qed.

Lemma starts_with_short (p w : str) :
  length w < length p -> starts_with p w = false.
Proof.
  revert w. induction p as [|x p IH]; intros [|c w] H; simpl in *; try lia;
    try reflexivity.
  rewrite IH by lia. apply andb_false_r.
Qed.

Lemma count_sealed (u v : str) (c : ascii) :
  ~ In c inc -> count_inc (u ++ c :: v) = count_inc u + count_inc (c :: v).
Proof.
  intros Hc. induction u as [|x u IH]; [reflexivity|].
  change ((x :: u) ++ c :: v) with (x :: (u ++ c :: v)).
  rewrite (count_inc_cons x (u ++ c :: v)), (count_inc_cons x u), IH.
  assert (E : starts_with inc (x :: u ++ c :: v) = starts_with inc (x :: u)).
  { destruct (Nat.le_gt_cases (length inc) (length (x :: u))) as [L|L].
    - apply (starts_with_within inc (x :: u) (c :: v) L).
    - rewrite (starts_with_short inc (x :: u) L).
      destruct (starts_with inc (x :: u ++ c :: v)) eqn:S; [|reflexivity].
      exfalso. apply Hc.
      apply (starts_with_In inc (x :: u) v c); [exact S|exact L]. }
  rewrite E. lia.
Qed.

Lemma count_marker (sg rest : str) :
  count_inc (missing_include sg ++ rest) = count_inc sg + count_inc rest.
Proof.
  unfold missing_include. rewrite <- !app_assoc.
  rewrite count_no_at by reflexivity.
  change (sg ++ "</div>" ++ rest) with (sg ++ "<"%char :: ("/div>" ++ rest)).
  rewrite count_sealed.
  - reflexivity.
  - intros H. simpl in H. repeat (destruct H as [H|H]; [discriminate|]). exact H.
Qed.

Lemma count_strip (g : str) : count_inc (strip g) <= count_inc g.
Proof.
  destruct (strip_sub g) as (a & b & E). rewrite E at 2.
  pose proof (count_app_le a (strip g ++ b)).
  pose proof (count_app_le (strip g) b). lia.
Qed.

Lemma count_directive (g rest : str) :
  1 + count_inc g + count_inc rest <= count_inc ((inc ++ g) ++ rest).
Proof.
  rewrite <- app_assoc.
  change (inc ++ g ++ rest) with ("@"%char :: ("include " ++ g ++ rest)).
  rewrite count_inc_cons.
  change ("@"%char :: "include " ++ g ++ rest) with (inc ++ g ++ rest).
  rewrite starts_with_app.
  rewrite (count_no_at "include " (g ++ rest)) by reflexivity.
  pose proof (count_app_le g rest). lia.
Qed.

Section Marker.
Variable g : str.

Let d : str := inc ++ g.
Let marker : str := missing_include (strip g).

Lemma marker_agree (q : str) :
  forallb (differs "<") q = true ->
  forall s, starts_with q (replace d marker s) = true -> starts_with q s = true.
Proof.
  intros Hq s. revert q Hq.
  induction s as [s IH] using (induction_ltof1 _ (@length ascii)).
  unfold ltof in IH. intros q Hq. destruct q as [|x q]; [reflexivity|].
  destruct s as [|c s].
  - discriminate.
  - destruct (starts_with d (c :: s)) eqn:E.
    + apply starts_with_iff in E as [r E]. rewrite E.
      rewrite replace_here by discriminate.
      simpl in Hq. apply andb_true_iff in Hq as [Hx _].
      unfold differs in Hx. apply negb_true_iff in Hx.
      unfold marker, missing_include.
      change (starts_with (x :: q) _ = true -> _)
        with (Ascii.eqb x "<" && starts_with q
                (("div class='error'>Missing include: " ++ strip g ++ "</div>")
                 ++ replace d (missing_include (strip g)) r) = true
              -> starts_with (x :: q) (d ++ r) = true).
      rewrite Ascii.eqb_sym, Hx. discriminate.
    + change (c :: s) with ([c] ++ s) at 1. rewrite replace_pass.
      * simpl. intros H. apply andb_true_iff in H as [H1 H2]. rewrite H1.
        simpl in Hq. apply andb_true_iff in Hq as [_ Hq].
        apply IH; auto.
      * intros [|i] Hi; [exact E|simpl in Hi; lia].
Qed.

Lemma count_after (s : str) :
  count_inc (replace d marker s) <= count_inc s
  /\ ((exists i, occurs_at d s i = true) ->
      count_inc (replace d marker s) < count_inc s).
Proof.
  induction s as [s IH] using (induction_ltof1 _ (@length ascii)).
  unfold ltof in IH. destruct s as [|c s].
  - split; [reflexivity|]. intros [i H]. unfold occurs_at in H.
    rewrite skipn_nil in H. discriminate.
  - destruct (starts_with d (c :: s)) eqn:E.
    + apply starts_with_iff in E as [r E]. rewrite E.
      rewrite replace_here by discriminate.
      unfold marker. rewrite count_marker.
      destruct (IH r) as [IH1 _].
      { rewrite E. unfold d. rewrite !length_app. simpl. lia. }
      pose proof (count_strip g) as H1. pose proof (count_directive g r) as H2.
      fold d in H2. fold marker. split; [lia|intros _; lia].
    + assert (P : replace d marker (c :: s) = c :: replace d marker s).
      { change (c :: s) with ([c] ++ s). apply replace_pass.
        intros [|i] Hi; [exact E|simpl in Hi; lia]. }
      rewrite P, !count_inc_cons.
      destruct (IH s) as [IH1 IH2]; [simpl; lia|].
      assert (S : starts_with inc (c :: replace d marker s) = true ->
                  starts_with inc (c :: s) = true).
      { change (starts_with inc (c :: replace d marker s))
          with (Ascii.eqb "@" c && starts_with "include " (replace d marker s)).
        change (starts_with inc (c :: s))
          with (Ascii.eqb "@" c && starts_with "include " s).
        intros H. apply andb_true_iff in H as [H1 H2]. rewrite H1.
        apply (marker_agree "include "); [reflexivity|exact H2]. }
      split.
      * destruct (starts_with inc (c :: replace d marker s)).
        -- rewrite S by reflexivity. lia.
        -- destruct (starts_with inc (c :: s)); lia.
      * intros [[|i] Hi].
        -- unfold occurs_at in Hi. change (skipn 0 (c :: s)) with (c :: s) in Hi.
           rewrite E in Hi. discriminate.
        -- assert (L : count_inc (replace d marker s) < count_inc s).
           { apply IH2. now exists i. }
           destruct (starts_with inc (c :: replace d marker s)).
           ++ rewrite S by reflexivity. lia.
           ++ destruct (starts_with inc (c :: s)); lia.
Qed.

End Marker.

Lemma search_from_found {A} (m : matcher A) (s : str) (b : bool) (a : A) :
  search_from m b s = Some a ->
  exists i n, m (bol_after b (firstn i s)) (skipn i s) = Some (a, n).
Proof.
  revert b. induction s as [|c s IH]; intros b; simpl.
  - destruct (m b []) as [[a' n]|] eqn:E; [|discriminate].
    intros H. injection H as ->. now exists 0, n.
  - destruct (m b (c :: s)) as [[a' n]|] eqn:E.
    + intros H. injection H as ->. now exists 0, n.
    + intros H. apply IH in H as (i & n & H). now exists (S i), n.
Qed.

Lemma include_found (text d g : str) :
  re_search include_pattern text = Some (d, g) ->
  d = inc ++ g /\ g <> [] /\ exists i, occurs_at d text i = true.
Proof.
  intros H. apply search_from_found in H as (i & n & H).
  unfold include_pattern, anywhere, pmap in H.
  destruct (lit "@include " (greedy_plus not_nl done) (skipn i text))
    as [[[g' []] n']|] eqn:E; [|discriminate].
  simpl in H. injection H as Hd Hg _. subst d g'.
  apply lit_inv in E as (r & m & Es & E & _).
  apply greedy_plus_done_inv in E as (Hg & _ & _ & r' & -> & _).
  split; [reflexivity|]. split; [exact Hg|].
  exists i. unfold occurs_at. rewrite Es.
  change ("@include " ++ g ++ r') with (inc ++ g ++ r').
  rewrite app_assoc. apply starts_with_app.
Qed.

Lemma missing_step (base_dir : option str) (text : str) :
  include_step [] base_dir text = Stop
  \/ exists text', include_step [] base_dir text = Next text'
                   /\ count_inc text' < count_inc text.
Proof.
  unfold include_step. destruct (re_search include_pattern text) as [[d g]|] eqn:E.
  - right. eexists. split; [reflexivity|].
    apply include_found in E as (-> & Hg & Hi).
    now apply (count_after g text).
  - now left.
Qed.

Lemma missing_loop (base_dir : option str) (n : nat) :
  forall text, count_inc text <= n ->
  exists resolved, forall fuel, n < fuel ->
    resolve_includes fuel [] base_dir text = Returned resolved.
Proof.
  induction n as [|n IH]; intros text Hn.
  - destruct (missing_step base_dir text) as [E|(text' & E & L)]; [|lia].
    exists text. intros [|fuel] Hf; [lia|]. simpl. now rewrite E.
  - destruct (missing_step base_dir text) as [E|(text' & E & L)].
    + exists text. intros [|fuel] Hf; [lia|]. simpl. now rewrite E.
    + destruct (IH text') as [resolved H]; [lia|].
      exists resolved. intros [|fuel] Hf; [lia|]. simpl. rewrite E.
      apply H. lia.
Qed.

(** X5: when no file exists, the include loop ends on every text,
    whatever the directives and where they stand on their lines: each turn
    lowers the number of places where [@include ] occurs, so that number
    plus one is fuel enough, and the text returned holds no directive any
    more. *)
Theorem include_loop_ends_without_files (base_dir : option str) (text : str) :
  exists resolved,
    (forall fuel, count_inc text < fuel ->
       resolve_includes fuel [] base_dir text = Returned resolved)
    /\ re_search include_pattern resolved = None.
Proof.
  destruct (missing_loop base_dir (count_inc text) text (le_n _)) as [resolved H].
  exists resolved. split; [exact H|].
  apply (resolve_returned_clean (S (count_inc text)) [] base_dir text).
  apply H. lia.
Qed.

(** ** Includes of paths that exist *)

(** X6: the first include directive of a text, when its path
    exists.  If the path names a file, one turn of the loop puts the content
    of the file, as it is, in the place of the directive, and of every later
    occurrence of the same directive text; if it names a directory,
    [parse_ldoc] raises [IsADirectoryError]. *)
Theorem existing_include_is_spliced_or_raises
  (fs : filesystem) (base_dir : option str) (pre g post : str) (fuel : nat) :
  g <> [] /\ forallb not_nl g = true ->
  stops not_nl post ->
  (forall i, i < length pre ->
     occurs_at "@include " (pre ++ ("@include " ++ g) ++ post) i = false) ->
  let text := pre ++ ("@include " ++ g) ++ post in
  let full_path := path_join (or_empty base_dir) (strip g) in
  (forall content, fs_lookup fs full_path = Some (File content) ->
     include_step fs base_dir text
     = Next (pre ++ content ++ replace ("@include " ++ g) content post))
  /\ (fs_lookup fs full_path = Some Directory ->
      forall h vars_dict platform,
        parse_ldoc (S fuel) fs h text base_dir vars_dict platform
        = Raised IsADirectoryError).
Proof.
  intros Hg Hpost Hfirst text full_path.
  pose proof (search_include pre g post Hg Hpost Hfirst) as S.
  split.
  - intros content L. unfold include_step. fold text in S. rewrite S.
    fold full_path. rewrite L. f_equal.
    apply (replace_directive pre g post Hfirst).
  - intros L h vars_dict platform. unfold parse_ldoc.
    destruct (vars_or_fresh h vars_dict) as [r h1].
    cbn [resolve_includes]. unfold include_step. fold text in S. rewrite S.
    fold full_path. rewrite L. reflexivity.
Qed.

(** ** Patterns that run to the end of the line *)

Section Erase.
Context {A : Type} (k : cont A).

Hypothesis ends : forall s a n,
  k s = Some (a, n) -> 0 < n <= length s /\ stops not_nl (skipn n s).
Hypothesis keeps : forall s s',
  k s = None ->
  (forall q, forallb not_nl q = true ->
     starts_with q s' = true -> starts_with q s = true) ->
  k s' = None.

Let erase (s : str) : str := re_sub (anywhere k) (fun _ => []) s.

Lemma erase_pass c s : k (c :: s) = None -> erase (c :: s) = c :: erase s.
Proof.
  intro H. unfold erase. apply (re_sub_pass k _ [c] s).
  intros i Hi. simpl in Hi. assert (i = 0) by lia. subst. exact H.
Qed.

Lemma erase_match s a n :
  k s = Some (a, n) -> erase s = erase (skipn n s).
Proof.
  intro H. destruct (ends _ _ _ H) as [[Hn Hl] _].
  rewrite <- (firstn_skipn n s) at 1. unfold erase.
  rewrite (re_sub_match k _ (firstn n s) (skipn n s) a).
  - reflexivity.
  - intro E. apply (f_equal (@length ascii)) in E.
    rewrite length_firstn in E. simpl in E. lia.
  - rewrite firstn_skipn, length_firstn, Nat.min_l by lia. exact H.
Qed.

Lemma erase_agree (q : str) :
  forallb not_nl q = true ->
  forall s, starts_with q (erase s) = true -> starts_with q s = true.
Proof.
  intros Hq s. revert q Hq.
  induction s as [s IH] using (induction_ltof1 _ (@length ascii)).
  unfold ltof in IH. intros q Hq. destruct q as [|x q]; [reflexivity|].
  destruct s as [|c s]; [discriminate|].
  destruct (k (c :: s)) as [[a n]|] eqn:E.
  - rewrite (erase_match _ _ _ E).
    destruct (ends _ _ _ E) as [[Hn Hl] Hr].
    intros H. apply IH in H; [|rewrite length_skipn; lia|exact Hq].
    exfalso. destruct (skipn n (c :: s)) as [|y r]; [discriminate|].
    simpl in Hr, H, Hq. apply andb_true_iff in H as [H _].
    apply Ascii.eqb_eq in H. subst y.
    apply andb_true_iff in Hq as [Hx _]. rewrite Hx in Hr. discriminate.
  - rewrite erase_pass by exact E. simpl.
    intros H. apply andb_true_iff in H as [H1 H2]. rewrite H1.
    simpl in Hq. apply andb_true_iff in Hq as [_ Hq]. apply IH; auto.
Qed.

Lemma erase_clean (s : str) : re_search (anywhere k) (erase s) = None.
Proof.
  induction s as [s IH] using (induction_ltof1 _ (@length ascii)).
  unfold ltof in IH. destruct s as [|c s].
  - unfold re_search. simpl. unfold anywhere.
    destruct (k []) as [[a n]|] eqn:E; [|reflexivity].
    destruct (ends _ _ _ E) as [[Hn Hl] _]. simpl in Hl. lia.
  - destruct (k (c :: s)) as [[a n]|] eqn:E.
    + rewrite (erase_match _ _ _ E). apply IH.
      destruct (ends _ _ _ E) as [[Hn Hl] _]. rewrite length_skipn. lia.
    + rewrite erase_pass by exact E.
      assert (N : k (c :: erase s) = None).
      { apply (keeps (c :: s)); [exact E|].
        intros [|x q] Hq; [reflexivity|]. simpl.
        intros H. apply andb_true_iff in H as [H1 H2]. rewrite H1.
        simpl in Hq. apply andb_true_iff in Hq as [_ Hq].
        now apply erase_agree. }
      unfold re_search. simpl. unfold anywhere at 1. rewrite N.
      rewrite (search_from_anywhere k (is_nl c) true). apply IH. simpl. lia.
Qed.

End Erase.

(** ** Variable declarations *)

Lemma var_pattern_cont : var_pattern = anywhere var_cont.
Proof. reflexivity. Qed.

Lemma word_not_nl (s : str) : forallb is_word s = true -> forallb not_nl s = true.
Proof.
  apply forallb_weaken. intros c.
  destruct c as [[] [] [] [] [] [] [] []]; simpl; intros H;
    try reflexivity; discriminate.
Qed.

Lemma greedy_star_all {A} (f : ascii -> bool) (k : cont A) (s g : str) a n :
  greedy_star f k s = Some ((g, a), n) -> forallb f g = true.
Proof.
  revert g a n. induction s as [|x s IH]; intros g a n; simpl.
  - destruct (k []) as [[? ?]|]; [|discriminate].
    simpl. intros H. now injection H as <- _ _.
  - destruct (f x) eqn:Ex.
    + destruct (greedy_star f k s) as [[[g1 a1] n1]|] eqn:G1.
      * intros H. injection H as <- _ _. simpl. rewrite Ex.
        now apply (IH g1 a1 n1).
      * destruct (k (x :: s)) as [[? ?]|]; [|discriminate].
        simpl. intros H. now injection H as <- _ _.
    + destruct (k (x :: s)) as [[? ?]|]; [|discriminate].
      simpl. intros H. now injection H as <- _ _.
Qed.

Lemma greedy_plus_inv {A} (f : ascii -> bool) (k : cont A) (s g : str) a n :
  greedy_plus f k s = Some ((g, a), n) ->
  exists r m, s = g ++ r /\ g <> [] /\ forallb f g = true
              /\ k r = Some (a, m) /\ n = length g + m.
Proof.
  unfold greedy_plus. destruct s as [|c s]; [discriminate|].
  destruct (f c) eqn:Ec; [|discriminate].
  destruct (greedy_star f k s) as [[[g1 a1] n1]|] eqn:G; [|discriminate].
  simpl. intros H. injection H as <- <- <-.
  pose proof (greedy_star_all _ _ _ _ _ _ G) as Hall.
  apply greedy_star_inv in G as (r & m & -> & G & ->).
  exists r, m. split; [reflexivity|]. split; [discriminate|].
  split; [simpl; now rewrite Ec|]. split; [exact G|reflexivity].
Qed.

Lemma var_cont_inv (s name value : str) n :
  var_cont s = Some ((name, value), n) ->
  exists r, s = "@var " ++ name ++ "=" ++ value ++ r
            /\ n = 5 + length name + 1 + length value
            /\ name <> [] /\ forallb is_word name = true
            /\ value <> [] /\ forallb not_nl value = true /\ stops not_nl r.
Proof.
  unfold var_cont, pmap.
  destruct (lit "@var " _ s) as [[[nm [vl []]] m]|] eqn:E; [|discriminate].
  simpl. intros H. injection H as -> -> <-.
  apply lit_inv in E as (r1 & m1 & -> & E & ->).
  apply greedy_plus_inv in E as (r2 & m2 & -> & Hn & Hw & E & ->).
  apply lit_inv in E as (r3 & m3 & -> & E & ->).
  apply greedy_plus_done_inv in E as (Hv & Hall & -> & r & -> & Hr).
  exists r. split; [reflexivity|]. split; [simpl; lia|]. auto.
Qed.

Lemma var_cont_here (name value r : str) :
  name <> [] -> forallb is_word name = true ->
  value <> [] -> forallb not_nl value = true -> stops not_nl r ->
  var_cont ("@var " ++ name ++ "=" ++ value ++ r)
  = Some ((name, value), 5 + (length name + (1 + (length value + 0)))).
Proof.
  intros Hn Hw Hv Hall Hr. unfold var_cont, pmap.
  rewrite lit_app.
  rewrite (greedy_plus_run is_word _ name ("=" ++ value ++ r) (value, tt)
             (1 + (length value + 0))); auto.
  - reflexivity.
  - rewrite lit_app.
    rewrite (greedy_plus_run not_nl done value r tt 0); auto.
Qed.

Lemma var_cont_ends (s : str) a n :
  var_cont s = Some (a, n) -> 0 < n <= length s /\ stops not_nl (skipn n s).
Proof.
  destruct a as [name value]. intros H.
  apply var_cont_inv in H as (r & -> & -> & _ & _ & _ & _ & Hr).
  assert (E : "@var " ++ name ++ "=" ++ value ++ r
              = ("@var " ++ name ++ "=" ++ value) ++ r)
    by now rewrite <- !app_assoc.
  assert (L : length (("@var " : str) ++ name ++ "=" ++ value)
              = 5 + length name + 1 + length value)
    by (rewrite !length_app; simpl; lia).
  rewrite E. split.
  - rewrite length_app, L. lia.
  - rewrite <- L, skipn_app_length. exact Hr.
Qed.

Lemma var_cont_keeps (s s' : str) :
  var_cont s = None ->
  (forall q, forallb not_nl q = true ->
     starts_with q s' = true -> starts_with q s = true) ->
  var_cont s' = None.
Proof.
  intros N H. destruct (var_cont s') as [[[name value] n]|] eqn:E; [|reflexivity].
  exfalso.
  apply var_cont_inv in E as (r & -> & _ & Hn & Hw & Hv & Hall & _).
  destruct value as [|v value]; [contradiction|].
  simpl in Hall. apply andb_true_iff in Hall as [Hv0 _].
  assert (S : starts_with ("@var " ++ name ++ "=" ++ [v]) s = true).
  { apply H.
    - rewrite !forallb_app. rewrite (word_not_nl name Hw). simpl.
      now rewrite Hv0.
    - assert (E : "@var " ++ name ++ "=" ++ (v :: value) ++ r
                  = ("@var " ++ name ++ "=" ++ [v]) ++ value ++ r)
        by now rewrite <- !app_assoc.
      rewrite E. apply starts_with_app. }
  apply starts_with_iff in S as [r' ->].
  destruct (span not_nl r') as [g rest] eqn:Sp.
  pose proof (span_app not_nl r') as Ea. pose proof (span_all not_nl r') as Eb.
  pose proof (span_stops not_nl r') as Ec. rewrite Sp in Ea, Eb, Ec. cbn [fst snd] in Ea, Eb, Ec.
  assert (E : ("@var " ++ name ++ "=" ++ [v]) ++ r'
              = "@var " ++ name ++ "=" ++ (v :: g) ++ rest).
  { rewrite Ea, <- !app_assoc. reflexivity. }
  rewrite E in N. rewrite var_cont_here in N; auto; try discriminate.
  simpl. now rewrite Hv0.
Qed.

(** X7: after the declarations are stripped, the pattern of a
    declaration matches nowhere in the buffer, for every text: removing a
    declaration, which runs to the end of its line, never completes
    another one. *)
Theorem no_declaration_is_left (text : str) :
  re_search var_pattern (strip_vars text) = None.
Proof.
  unfold strip_vars. rewrite var_pattern_cont.
  apply (erase_clean var_cont var_cont_ends var_cont_keeps).
Qed.

Section Declaration.
Variables (pre name value post : str).

Hypothesis name_word : name <> [] /\ forallb is_word name = true.
Hypothesis value_line : value <> [] /\ forallb not_nl value = true.
Hypothesis post_line : stops not_nl post.
Hypothesis only_declaration :
  forall i, i <> length pre ->
    occurs_at "@var " (pre ++ ("@var " ++ name ++ "=" ++ value) ++ post) i = false.

Let decl : str := "@var " ++ name ++ "=" ++ value.
Let text : str := pre ++ decl ++ post.

Lemma decl_length : length decl = 5 + (length name + (1 + (length value + 0))).
Proof. unfold decl. rewrite !length_app. simpl. lia. Qed.

Lemma var_cont_decl : var_cont (decl ++ post) = Some ((name, value), length decl).
Proof.
  rewrite decl_length. unfold decl. rewrite <- !app_assoc.
  destruct name_word, value_line. now apply var_cont_here.
Qed.

Lemma var_cont_absent (s : str) (i : nat) :
  occurs_at "@var " s i = false -> var_cont (skipn i s) = None.
Proof.
  intros H. unfold var_cont, pmap. rewrite lit_none; [reflexivity|exact H].
Qed.

Lemma var_cont_pre i : i < length pre -> var_cont (skipn i text) = None.
Proof.
  intros Hi. apply var_cont_absent. apply only_declaration. lia.
Qed.

Lemma var_cont_post i : var_cont (skipn i post) = None.
Proof.
  apply var_cont_absent.
  destruct (Nat.lt_ge_cases i (length post)) as [Hi|Hi].
  - pose proof (only_declaration (length pre + (length decl + i))) as H.
    fold decl in H. rewrite occurs_at_shift, occurs_at_shift in H.
    apply H. pose proof decl_length. lia.
  - apply occurs_at_beyond; [discriminate|exact Hi].
Qed.

Lemma decl_nonempty : decl <> [].
Proof. discriminate. Qed.

Lemma findall_declaration : re_findall var_pattern text = [(name, value)].
Proof.
  rewrite var_pattern_cont. unfold text.
  rewrite (re_findall_pass var_cont pre (decl ++ post)) by apply var_cont_pre.
  rewrite (re_findall_match var_cont decl post (name, value) decl_nonempty var_cont_decl).
  f_equal. apply re_findall_absent, var_cont_post.
Qed.

Lemma strip_declaration : strip_vars text = pre ++ post.
Proof.
  unfold strip_vars. rewrite var_pattern_cont. unfold text.
  rewrite (re_sub_pass var_cont _ pre (decl ++ post)) by apply var_cont_pre.
  rewrite (re_sub_match var_cont _ decl post (name, value) decl_nonempty var_cont_decl).
  simpl. f_equal. apply re_sub_absent, var_cont_post.
Qed.

End Declaration.

(** X8: a text with one declaration [@var name=value]: the
    declaration is found with its raw value, it is removed up to the end of
    its line, and, starting from an empty table, every [@name] of what is
    left, also as the start of a longer word, is replaced by the value
    without the white space at its ends. *)
Theorem declaration_is_removed_and_applied (pre name value post : str) :
  name <> [] /\ forallb is_word name = true ->
  value <> [] /\ forallb not_nl value = true ->
  stops not_nl post ->
  (forall i, i <> length pre ->
     occurs_at "@var " (pre ++ ("@var " ++ name ++ "=" ++ value) ++ post) i
     = false) ->
  let text := pre ++ ("@var " ++ name ++ "=" ++ value) ++ post in
  re_findall var_pattern text = [(name, value)]
  /\ strip_vars text = pre ++ post
  /\ substitute_vars (record_vars (re_findall var_pattern text) [])
       (strip_vars text)
     = replace ("@" ++ name) (strip value) (pre ++ post).
Proof.
  intros Hn Hv Hp Ho text.
  pose proof (findall_declaration pre name value post Hn Hv Hp Ho) as F.
  pose proof (strip_declaration pre name value post Hn Hv Hp Ho) as S.
  fold text in F, S. rewrite F, S. repeat split.
Qed.

(** ** Reusable code blocks *)

Section Codeblock.
Variables (pre lang name code post : str).

Let block := codeblock_decl lang name code.
Let text := pre ++ block ++ post.

Hypothesis lang_word : lang <> [] /\ forallb is_word lang = true.
Hypothesis name_word : name <> [] /\ forallb is_word name = true.
Hypothesis code_open :
  forall i, i < length code ->
    occurs_at "@endcodeblock" (code ++ "@endcodeblock") i = false.
Hypothesis only_block :
  forall i, i <> length pre -> occurs_at "@codeblock " text i = false.

Lemma block_cont_here :
  block_cont (block ++ post) = Some ((lang, name, code), length block).
Proof.
  destruct lang_word as [Hl1 Hl2]. destruct name_word as [Hn1 Hn2].
  unfold block_cont, pmap, block, codeblock_decl.
  repeat rewrite <- app_assoc.
  rewrite lit_app.
  rewrite (greedy_plus_run is_word _ lang _ (name, (code, tt))
             (1 + (length name + (1 + (length code + (13 + 0)))))); auto.
  - simpl. repeat (rewrite length_app; simpl). do 2 f_equal; lia.
  - reflexivity.
  - rewrite (lit_app " ").
    rewrite (greedy_plus_run is_word _ name _ (code, tt)
               (1 + (length code + (13 + 0)))); auto.
    + reflexivity.
    + rewrite (lit_app [nl]).
      rewrite (lazy_star_first any_char _ code _ tt (13 + 0)); auto.
      * apply forallb_any_char.
      * intros i Hi. apply lit_none.
        specialize (code_open i Hi). unfold occurs_at in code_open.
        rewrite skipn_app_lt in code_open by lia.
        rewrite app_assoc. rewrite starts_with_within; auto.
        rewrite length_app, length_skipn. simpl. lia.
Qed.

Lemma block_length : 0 < length block.
Proof. unfold block, codeblock_decl. rewrite length_app. simpl. lia. Qed.

Lemma block_cont_pre i : i < length pre -> block_cont (skipn i text) = None.
Proof.
  intros Hi. unfold block_cont, pmap. rewrite lit_none; [reflexivity|].
  apply only_block. lia.
Qed.

Lemma block_cont_post i : block_cont (skipn i post) = None.
Proof.
  unfold block_cont, pmap. rewrite lit_none; [reflexivity|].
  destruct (Nat.lt_ge_cases i (length post)) as [Hi|Hi].
  - pose proof (only_block (length pre + (length block + i))) as H.
    unfold text in H. rewrite occurs_at_shift, occurs_at_shift in H.
    apply H. pose proof block_length. lia.
  - apply (occurs_at_beyond "@codeblock " post i); [discriminate|exact Hi].
Qed.

Lemma findall_codeblock : re_findall block_pattern text = [(lang, name, code)].
Proof.
  change block_pattern with (anywhere block_cont). unfold text.
  rewrite (re_findall_pass block_cont pre (block ++ post)) by apply block_cont_pre.
  rewrite (re_findall_match block_cont block post (lang, name, code)).
  - f_equal. apply re_findall_absent, block_cont_post.
  - discriminate.
  - apply block_cont_here.
Qed.

Lemma strip_codeblock : re_sub block_pattern (fun _ => []) text = pre ++ post.
Proof.
  change block_pattern with (anywhere block_cont). unfold text.
  rewrite (re_sub_pass block_cont _ pre (block ++ post)) by apply block_cont_pre.
  rewrite (re_sub_match block_cont _ block post (lang, name, code)).
  - simpl. f_equal. apply re_sub_absent, block_cont_post.
  - discriminate.
  - apply block_cont_here.
Qed.

End Codeblock.

(** X9: a text with one block [@codeblock lang name ... @endcodeblock]:
    the block is found and removed, and every [@usecode name] of what is
    left is replaced by [<pre><code class="lang">], the code without the
    white space at its ends, and [</code></pre>]. *)
Theorem codeblock_is_removed_and_reused (pre lang name code post : str) :
  lang <> [] /\ forallb is_word lang = true ->
  name <> [] /\ forallb is_word name = true ->
  (forall i, i < length code ->
     occurs_at "@endcodeblock" (code ++ "@endcodeblock") i = false) ->
  (forall i, i <> length pre ->
     occurs_at "@codeblock " (pre ++ codeblock_decl lang name code ++ post) i
     = false) ->
  let text := pre ++ codeblock_decl lang name code ++ post in
  re_findall block_pattern text = [(lang, name, code)]
  /\ re_sub block_pattern (fun _ => []) text = pre ++ post
  /\ use_codeblocks (record_codeblocks (re_findall block_pattern text))
       (re_sub block_pattern (fun _ => []) text)
     = replace ("@usecode " ++ name)
         ("<pre><code class=" ++ [dq] ++ lang ++ [dq] ++ ">" ++ strip code
          ++ "</code></pre>")
         (pre ++ post).
Proof.
  intros Hl Hn Hc Ho text.
  pose proof (findall_codeblock pre lang name code post Hl Hn Hc Ho) as F.
  pose proof (strip_codeblock pre lang name code post Hl Hn Hc Ho) as S.
  fold text in F, S. rewrite F, S. repeat split.
Qed.

(** ** Tables *)

Lemma lstrip_spaces (ws s : str) :
  forallb is_space ws = true -> lstrip (ws ++ s) = lstrip s.
Proof.
  unfold lstrip. induction ws as [|c ws IH]; [reflexivity|].
  simpl. intros H. apply andb_true_iff in H as [Hc H]. rewrite Hc.
  specialize (IH H). destruct (span is_space (ws ++ s)). exact IH.
Qed.

Lemma stops_app (f : ascii -> bool) (s t : str) :
  s <> [] -> stops f s -> stops f (s ++ t).
Proof. destruct s; [contradiction|auto]. Qed.

Lemma strip_core (t ws : str) :
  t <> [] -> stops is_space t -> stops is_space (rev t) ->
  forallb is_space ws = true -> strip (t ++ ws) = t.
Proof.
  intros Ht H1 H2 Hws. unfold strip.
  rewrite (lstrip_id (t ++ ws)) by now apply stops_app.
  rewrite rev_app_distr, lstrip_spaces by now apply forallb_rev.
  rewrite lstrip_id by exact H2. apply rev_involutive.
Qed.

Lemma splitlines_from_line (l cur rest : str) :
  forallb (fun c => negb (is_linebreak c)) l = true ->
  splitlines_from cur (l ++ rest) = splitlines_from (rev l ++ cur) rest.
Proof.
  revert cur. induction l as [|c l IH]; intros cur H; [reflexivity|].
  simpl in H. apply andb_true_iff in H as [Hc H]. apply negb_true_iff in Hc.
  simpl. rewrite Hc, IH by exact H. now rewrite <- app_assoc.
Qed.

Lemma splitlines_last (l : str) :
  l <> [] -> forallb (fun c => negb (is_linebreak c)) l = true ->
  splitlines l = [l].
Proof.
  intros Hl H. unfold splitlines. rewrite <- (app_nil_r l) at 1.
  rewrite splitlines_from_line by exact H. simpl. rewrite app_nil_r.
  destruct (rev l) eqn:E.
  - apply (f_equal (@rev ascii)) in E. rewrite rev_involutive in E. now subst.
  - now rewrite <- E, rev_involutive.
Qed.

Lemma splitlines_cons (l t : str) :
  t <> [] -> forallb (fun c => negb (is_linebreak c)) l = true ->
  splitlines (l ++ nl :: t) = l :: splitlines t.
Proof.
  intros Ht H. unfold splitlines.
  rewrite splitlines_from_line by exact H. rewrite app_nil_r.
  destruct t as [|d t]; [contradiction|].
  simpl. now rewrite rev_involutive.
Qed.

Lemma join_lines_rev_stops (l : str) (ls : list str) :
  join_lines ls <> [] ->
  stops is_space (rev (join_lines (l :: ls))) ->
  stops is_space (rev (join_lines ls)).
Proof.
  intros Hne. destruct ls as [|l2 ls]; [contradiction|].
  change (join_lines (l :: l2 :: ls)) with (l ++ nl :: join_lines (l2 :: ls)).
  rewrite rev_app_distr.
  change (rev (nl :: join_lines (l2 :: ls)))
    with (rev (join_lines (l2 :: ls)) ++ [nl]).
  destruct (rev (join_lines (l2 :: ls))) as [|x r] eqn:E.
  - apply (f_equal (@rev ascii)) in E. rewrite rev_involutive in E.
    now rewrite E in Hne.
  - simpl. auto.
Qed.

Lemma splitlines_join (rows : list str) :
  Forall (fun l => forallb (fun c => negb (is_linebreak c)) l = true) rows ->
  join_lines rows <> [] -> stops is_space (rev (join_lines rows)) ->
  splitlines (join_lines rows) = rows.
Proof.
  induction rows as [|l rows IH]; intros Hall Hne Hend; [contradiction|].
  apply Forall_cons_iff in Hall as [Hl Hall].
  destruct rows as [|l2 rows].
  - simpl in *. now apply splitlines_last.
  - change (join_lines (l :: l2 :: rows)) with (l ++ nl :: join_lines (l2 :: rows)).
    assert (N : join_lines (l2 :: rows) <> []).
    { intros E.
      change (join_lines (l :: l2 :: rows))
        with (l ++ nl :: join_lines (l2 :: rows)) in Hend.
      rewrite E, rev_app_distr in Hend. simpl in Hend. discriminate. }
    rewrite splitlines_cons by assumption. f_equal.
    apply IH; auto. now apply (join_lines_rev_stops l).
Qed.

Lemma split_from_cell (sep : ascii) (c cur rest : str) :
  forallb (differs sep) c = true ->
  split_from sep cur (c ++ rest) = split_from sep (rev c ++ cur) rest.
Proof.
  revert cur. induction c as [|x c IH]; intros cur H; [reflexivity|].
  simpl in H. apply andb_true_iff in H as [Hx H].
  unfold differs in Hx. apply negb_true_iff in Hx.
  simpl. rewrite Ascii.eqb_sym, Hx, IH by exact H. now rewrite <- app_assoc.
Qed.

Lemma split_join (cells : list str) :
  cells <> [] -> Forall (fun c => forallb (differs "|") c = true) cells ->
  split "|" (join_cells cells) = cells.
Proof.
  induction cells as [|c cells IH]; intros Hne Hall; [contradiction|].
  apply Forall_cons_iff in Hall as [Hc Hall]. unfold split.
  destruct cells as [|c2 cells].
  - simpl. rewrite <- (app_nil_r c) at 1. rewrite split_from_cell by exact Hc.
    simpl. now rewrite app_nil_r, rev_involutive.
  - change (join_cells (c :: c2 :: cells))
      with (c ++ "|"%char :: join_cells (c2 :: cells)).
    rewrite split_from_cell by exact Hc. simpl. rewrite app_nil_r, rev_involutive.
    f_equal. apply IH; [discriminate|exact Hall].
Qed.

Lemma row_ok_cells (cells : list str) :
  row_ok cells = true ->
  cells <> [] /\ Forall (fun c => forallb (differs "|") c = true) cells
  /\ forallb (fun c => negb (is_linebreak c)) (join_cells cells) = true.
Proof.
  unfold row_ok. intros H. apply andb_true_iff in H as [H1 H2].
  split; [now destruct cells|].
  clear H1. induction cells as [|c cells IH]; [split; [constructor|reflexivity]|].
  simpl in H2. apply andb_true_iff in H2 as [Hc H2].
  destruct (IH H2) as [I1 I2].
  assert (C1 : forallb (differs "|") c = true).
  { revert Hc. apply forallb_weaken. unfold cell_char. intros x E.
    now apply andb_true_iff in E as [E _]. }
  assert (C2 : forallb (fun c => negb (is_linebreak c)) c = true).
  { revert Hc. apply forallb_weaken. unfold cell_char. intros x E.
    now apply andb_true_iff in E as [_ E]. }
  split; [now constructor|].
  destruct cells as [|c2 cells]; [exact C2|].
  change (join_cells (c :: c2 :: cells))
    with (c ++ "|"%char :: join_cells (c2 :: cells)).
  rewrite forallb_app, C2. cbn [forallb]. rewrite I2. reflexivity.
Qed.

Lemma table_row_cells (tag : str) (cells : list str) :
  row_ok cells = true -> table_row tag (join_cells cells) = cells_row tag cells.
Proof.
  intros H. destruct (row_ok_cells cells H) as (H1 & H2 & _).
  unfold table_row, cells_row. now rewrite split_join.
Qed.

(** X10: a table written row by row, the cells of a row with [|]
    between them and the rows with a line feed between them, white space
    after the last one: [table_replacer] gives a header row with the cells
    of the first row, each trimmed, and a body row for each other row.  The
    cells hold no [|] and no line boundary, and the written table starts
    and ends with a character that is no white space. *)
Theorem table_rows_become_cells
  (header : list str) (body : list (list str)) (ws : str) :
  forallb row_ok (header :: body) = true ->
  let rows := join_lines (map join_cells (header :: body)) in
  rows <> [] /\ stops is_space rows /\ stops is_space (rev rows) ->
  forallb is_space ws = true ->
  table_replacer (rows ++ ws)
  = "<table>" ++ cells_row "th" header ++ flat_map (cells_row "td") body
    ++ "</table>".
Proof.
  intros Hrows rows (Hne & H1 & H2) Hws.
  unfold table_replacer. rewrite strip_core by assumption.
  unfold rows. rewrite splitlines_join.
  - cbn [map]. simpl in Hrows. apply andb_true_iff in Hrows as [Hh Hb].
    rewrite table_row_cells by exact Hh. do 3 f_equal.
    rewrite flat_map_map. apply flat_map_ext_in. intros cells Hin.
    apply table_row_cells. rewrite forallb_forall in Hb. now apply Hb.
  - rewrite Forall_map. rewrite forallb_forall in Hrows.
    apply Forall_forall. intros cells Hin. now apply row_ok_cells, Hrows.
  - exact Hne.
  - exact H2.
Qed.

(** ** Table blocks *)

Section TableBlock.
Variables (pre ws g post : str).

Let block := table_block ws g.
Let text := pre ++ block ++ post.

Hypothesis ws_space : forallb is_space ws = true.
Hypothesis g_start : stops is_space g.
Hypothesis g_open :
  forall i, i < length g -> occurs_at "@endtable" (g ++ "@endtable") i = false.
Hypothesis first_block :
  forall i, i < length pre -> occurs_at "@table:" text i = false.

Lemma table_cont_here : table_cont (block ++ post) = Some (g, length block).
Proof.
  unfold table_cont, pmap, block, table_block.
  repeat rewrite <- app_assoc. rewrite lit_app.
  rewrite (greedy_star_run is_space _ ws _ (g, tt) (length g + (9 + 0))); auto.
  - simpl. repeat (rewrite length_app; simpl). do 2 f_equal; lia.
  - destruct g; [reflexivity|exact g_start].
  - rewrite (lazy_star_first any_char _ g _ tt (9 + 0)); auto.
    + apply forallb_any_char.
    + intros i Hi. apply lit_none.
      specialize (g_open i Hi). unfold occurs_at in g_open.
      rewrite skipn_app_lt in g_open by lia.
      rewrite app_assoc. rewrite starts_with_within; auto.
      rewrite length_app, length_skipn. simpl. lia.
Qed.

Lemma table_block_replaced (f : str -> str) :
  re_sub table_pattern f text = pre ++ f g ++ re_sub table_pattern f post.
Proof.
  change table_pattern with (anywhere table_cont). unfold text.
  rewrite re_sub_pass.
  - rewrite (re_sub_match table_cont _ block post g); auto.
    + discriminate.
    + apply table_cont_here.
  - intros i Hi. unfold table_cont, pmap. rewrite lit_none; [reflexivity|].
    now apply first_block.
Qed.

End TableBlock.

(** X11: the first block [@table: ... @endtable] of a text is
    replaced by [table_replacer] of what stands between the white space
    after [@table:] and the first [@endtable]; the text before it is kept
    and the scan goes on after it.  A block with white space only gives
    [<table></table>]. *)
Theorem table_block_is_rendered (pre ws g post : str) :
  forallb is_space ws = true ->
  stops is_space g ->
  (forall i, i < length g -> occurs_at "@endtable" (g ++ "@endtable") i = false) ->
  (forall i, i < length pre ->
     occurs_at "@table:" (pre ++ table_block ws g ++ post) i = false) ->
  re_sub table_pattern table_replacer (pre ++ table_block ws g ++ post)
  = pre ++ table_replacer g ++ re_sub table_pattern table_replacer post
  /\ (g = [] ->
      re_sub table_pattern table_replacer (pre ++ table_block ws g ++ post)
      = pre ++ "<table></table>" ++ re_sub table_pattern table_replacer post).
Proof.
  intros H1 H2 H3 H4.
  pose proof (table_block_replaced pre ws g post H1 H2 H3 H4 table_replacer) as E.
  split; [exact E|]. intros Hg. rewrite E. now subst g.
Qed.

(** ** Directives that take the rest of the line *)

Section RestOfLine.
Variables (keyword pre g post : str).

Let text := pre ++ (keyword ++ " " ++ g) ++ post.

Hypothesis g_line : g <> [] /\ forallb not_nl g = true.
Hypothesis post_line : stops not_nl post.
Hypothesis first_directive :
  forall i, i < length pre -> occurs_at (keyword ++ " ") text i = false.

Lemma rest_of_line_cont_here :
  rest_of_line_cont keyword ((keyword ++ " " ++ g) ++ post)
  = Some (g, length (keyword ++ " " ++ g)).
Proof.
  destruct g_line as [Hg1 Hg2]. unfold rest_of_line_cont, pmap.
  replace ((keyword ++ " " ++ g) ++ post) with ((keyword ++ " ") ++ g ++ post)
    by now rewrite <- !app_assoc.
  rewrite lit_app.
  rewrite (greedy_plus_run not_nl done g post tt 0); auto.
  simpl. rewrite !length_app. simpl. do 2 f_equal. lia.
Qed.

Lemma rest_of_line_replaced (f : str -> str) :
  re_sub (rest_of_line_pattern keyword) f text
  = pre ++ f g ++ re_sub (rest_of_line_pattern keyword) f post.
Proof.
  change (rest_of_line_pattern keyword) with (anywhere (rest_of_line_cont keyword)).
  unfold text. rewrite re_sub_pass.
  - rewrite (re_sub_match (rest_of_line_cont keyword) _ (keyword ++ " " ++ g) post g);
      auto.
    + destruct keyword; discriminate.
    + apply rest_of_line_cont_here.
  - intros i Hi. unfold rest_of_line_cont, pmap. rewrite lit_none; [reflexivity|].
    now apply first_directive.
Qed.

End RestOfLine.

(** ** Documents without directives of a kind *)

(** X12: a document with no include directive does not depend on the
    file system: [parse_ldoc] returns, and returns the same, whatever the
    files, the base directory and the fuel, one turn at least. *)
Theorem no_include_no_file_access
  fuel fuel' fs fs' (h : heap) (text : str) base_dir base_dir' vars_dict platform :
  (forall i, occurs_at "@include " text i = false) ->
  parse_ldoc (S fuel) fs h text base_dir vars_dict platform
  = parse_ldoc (S fuel') fs' h text base_dir' vars_dict platform
  /\ exists fragment title h',
       parse_ldoc (S fuel) fs h text base_dir vars_dict platform
       = Returned (fragment, title, h').
Proof.
  intros H. unfold parse_ldoc. destruct (vars_or_fresh h vars_dict) as [r h1].
  rewrite !resolve_absent by exact H. split; [reflexivity|].
  now eexists _, _, _.
Qed.

Lemma re_findall_by_line {A} (k : cont A) (s : str) :
  line_local (at_bol k) ->
  (forall l, In l (lines_of s) -> k l = None) ->
  re_findall (at_bol k) s = [].
Proof.
  intros Hloc H. rewrite (re_findall_lines _ Hloc).
  pose proof (lines_of_not_nl s) as F.
  induction (lines_of s) as [|l ls IH]; [reflexivity|].
  apply Forall_cons_iff in F as [Fl F].
  simpl. rewrite IH; [|intros; apply H; now right|exact F].
  rewrite app_nil_r.
  assert (E : k l = None) by (apply H; now left).
  unfold re_findall. destruct l as [|c l]; [reflexivity|].
  cbn [findall_from]. unfold at_bol at 1. rewrite E.
  simpl in Fl. apply andb_true_iff in Fl as [Fc Fl].
  unfold not_nl in Fc. apply negb_true_iff in Fc. rewrite Fc.
  now apply findall_from_mid_line.
Qed.

(** X13: when no line starts with [#], the table of contents has no
    entry, every [@toc] is replaced by the empty navigation block, and the
    heading rules change nothing. *)
Theorem toc_without_headings_is_empty (text : str) :
  forallb (fun l => negb (starts_with "#" l)) (lines_of text) = true ->
  toc_entries text = []
  /\ insert_toc text = replace "@toc" empty_toc text
  /\ headings text = text.
Proof.
  intros H. rewrite forallb_forall in H.
  assert (L : forall l, In l (lines_of text) -> starts_with "#" l = false).
  { intros l Hl. apply negb_true_iff. now apply H. }
  assert (T : toc_entries text = []).
  { unfold toc_entries. unfold heading_pattern.
    rewrite re_findall_by_line; [reflexivity|apply heading_pattern_local|].
    intros l Hl. unfold pmap, one. specialize (L l Hl).
    destruct l as [|c l]; [reflexivity|].
    change (starts_with "#" (c :: l)) with (Ascii.eqb "#" c && true) in L.
    rewrite andb_true_r in L.
    unfold is_hash. rewrite Ascii.eqb_sym, L. reflexivity. }
  split; [exact T|]. split.
  - unfold insert_toc. now rewrite T.
  - assert (P : forall marks f, forallb not_nl marks = true ->
                 re_sub (hashes_pattern ("#"%char :: marks)) f text = text).
    { intros marks f Hm. apply re_sub_by_line.
      - apply (hashes_pattern_local ("#"%char :: marks)). exact Hm.
      - intros l Hl. unfold pmap.
        change ((("#"%char :: marks) : str) ++ " ") with ("#"%char :: (marks ++ " ")).
        rewrite first_char_none; [reflexivity|]. now apply L. }
    unfold headings. rewrite (P "##") by reflexivity.
    rewrite (P "#") by reflexivity. apply (P []). reflexivity.
Qed.

(** ** The page template *)

Lemma occurs_lacking (x : ascii) (p pre rest : str) (i : nat) :
  forallb (differs x) pre = true -> i < length pre ->
  occurs_at (x :: p) (pre ++ rest) i = false.
Proof.
  intros H Hi. unfold occurs_at. rewrite skipn_app_lt by lia.
  apply (forallb_skipn _ _ i) in H.
  destruct (skipn_nonempty pre i Hi) as (c & r & E). rewrite E in *.
  simpl in H. apply andb_true_iff in H as [H _].
  unfold differs in H. apply negb_true_iff in H.
  simpl app. cbn [starts_with]. now rewrite H.
Qed.

Lemma occurs_lacking_all (x : ascii) (p s : str) (i : nat) :
  forallb (differs x) s = true -> occurs_at (x :: p) s i = false.
Proof.
  intros H. destruct (Nat.lt_ge_cases i (length s)) as [Hi|Hi].
  - rewrite <- (app_nil_r s). now apply occurs_lacking.
  - apply occurs_at_beyond; [discriminate|exact Hi].
Qed.

Section Template.
Variables (a b c title content : str).

Hypothesis a_plain : forallb (differs "{") a = true.
Hypothesis b_plain : forallb (differs "{") b = true.
Hypothesis c_plain : forallb (differs "{") c = true.
Hypothesis title_plain : forallb (differs "{") title = true.

Lemma title_placed :
  replace "{title}" title (template_of a b c)
  = a ++ title ++ b ++ "{content}" ++ c.
Proof.
  unfold template_of. rewrite replace_pass.
  - rewrite replace_here by discriminate. do 2 f_equal.
    apply replace_absent; [discriminate|]. intros i _.
    destruct (Nat.lt_trichotomy i (length b)) as [Hi|[Hi|Hi]].
    + now apply (occurs_lacking "{" "title}").
    + subst i. rewrite <- (Nat.add_0_r (length b)), occurs_at_shift. reflexivity.
    + replace i with (length (b ++ "{") + (i - length b - 1))
        by (rewrite length_app; simpl; lia).
      replace (b ++ "{content}" ++ c) with ((b ++ "{") ++ "content}" ++ c)
        by now rewrite <- app_assoc.
      rewrite occurs_at_shift. apply (occurs_lacking_all "{" "title}").
      rewrite forallb_app. now rewrite c_plain.
  - intros i Hi. now apply (occurs_lacking "{" "title}").
Qed.

Lemma content_placed :
  replace "{content}" content (a ++ title ++ b ++ "{content}" ++ c)
  = a ++ title ++ b ++ content ++ c.
Proof.
  replace (a ++ title ++ b ++ "{content}" ++ c)
    with ((a ++ title ++ b) ++ "{content}" ++ c) by now rewrite <- !app_assoc.
  rewrite replace_pass.
  - rewrite replace_here by discriminate. rewrite <- !app_assoc. do 4 f_equal.
    apply replace_absent; [discriminate|]. intros i _.
    now apply (occurs_lacking_all "{" "content}").
  - intros i Hi. apply (occurs_lacking "{" "content}"); [|exact Hi].
    rewrite !forallb_app. now rewrite a_plain, title_plain, b_plain.
Qed.

Lemma template_filled :
  replace "{content}" content (replace "{title}" title (template_of a b c))
  = a ++ title ++ b ++ content ++ c.
Proof. rewrite title_placed. apply content_placed. Qed.

End Template.

(** X14: [build_html] on a template with one [{title}] and, after
    it, one [{content}], no other brace, and a title without brace: the
    title and the content take their places; the content is inserted as it
    is, also when it holds [{title}] or [{content}]. *)
Theorem template_places_title_and_content
  (fs : filesystem) (a b c title content : str) :
  forallb (differs "{") a = true -> forallb (differs "{") b = true ->
  forallb (differs "{") c = true -> forallb (differs "{") title = true ->
  fs_lookup fs TEMPLATE_PATH = Some (File (template_of a b c)) ->
  build_html fs content title = inl (a ++ title ++ b ++ content ++ c).
Proof.
  intros Ha Hb Hc Ht L. unfold build_html, read_file. rewrite L.
  now rewrite template_filled.
Qed.

Lemma rstrip_sep_id (p : str) : ends_with_sep p = false -> rstrip_sep p = p.
Proof.
  unfold ends_with_sep, rstrip_sep. intro H.
  rewrite <- (rev_involutive p) at 2.
  destruct (rev p) as [|c r]; [reflexivity|].
  simpl span. unfold is_sep at 1. now rewrite H.
Qed.

Lemma open_for_writing_ok (fs : filesystem) (path : str) :
  can_open fs path -> open_for_writing fs path = None.
Proof.
  intros (Hne & Hend & Hdir & Hparent). unfold open_for_writing.
  destruct path as [|c path]; [contradiction|].
  rewrite rstrip_sep_id by assumption. rewrite Hend.
  assert (P : (if forallb is_sep (dirname (c :: path)) then Some Directory
               else fs_lookup fs (dirname (c :: path))) = Some Directory).
  { destruct Hparent as [-> | ->]; [reflexivity|].
    now destruct (forallb is_sep (dirname (c :: path))). }
  rewrite P. destruct (fs_lookup fs (c :: path)) as [[x|]|]; auto.
  contradiction.
Qed.

Lemma open_for_writing_no_directory (fs : filesystem) (path : str) :
  path <> [] -> ends_with_sep path = false ->
  forallb is_sep (dirname path) = false ->
  fs_lookup fs (dirname path) = None ->
  open_for_writing fs path = Some FileNotFoundError.
Proof.
  intros Hne Hend Hsep Hparent. unfold open_for_writing.
  destruct path as [|c path]; [contradiction|].
  rewrite rstrip_sep_id by assumption. now rewrite Hsep, Hparent.
Qed.

Lemma open_for_writing_directory (fs : filesystem) (path : str) :
  path <> [] -> ends_with_sep path = false ->
  forallb is_sep (dirname path) = true
  \/ fs_lookup fs (dirname path) = Some Directory ->
  fs_lookup fs path = Some Directory ->
  open_for_writing fs path = Some OpenedDirectory.
Proof.
  intros Hne Hend Hparent Hdir. unfold open_for_writing.
  destruct path as [|c path]; [contradiction|].
  rewrite rstrip_sep_id by assumption. rewrite Hend, Hdir.
  destruct Hparent as [-> | ->]; [reflexivity|].
  now destruct (forallb is_sep (dirname (c :: path))).
Qed.


(** ** The directory of the input file *)

Lemma span_run (f : ascii -> bool) (g r : str) :
  forallb f g = true -> stops f r -> span f (g ++ r) = (g, r).
Proof.
  intros Hg Hr. induction g as [|x g IH].
  - destruct r as [|y r]; [reflexivity|]. simpl in *. now rewrite Hr.
  - simpl in *. apply andb_true_iff in Hg as [Hx Hg]. now rewrite Hx, IH.
Qed.

Lemma dirname_of_file (dir name : str) :
  forallb not_sep name = true -> dir <> [] -> stops is_sep (rev dir) ->
  dirname (dir ++ "/" ++ name) = dir.
Proof.
  intros Hn Hd Hlast. unfold dirname.
  rewrite !rev_app_distr.
  change (rev ("/" : str)) with ("/" : str). rewrite <- app_assoc.
  rewrite (span_run not_sep (rev name) ("/" ++ rev dir));
    [|now apply forallb_rev|reflexivity].
  cbn [snd]. change (rev ("/" ++ rev dir)) with (rev (rev dir) ++ "/").
  rewrite rev_involutive.
  destruct dir as [|d dir]; [contradiction|].
  change ((d :: dir) ++ "/") with (d :: (dir ++ "/")).
  assert (N : forallb is_sep (d :: dir ++ "/") = false).
  { change (d :: dir ++ "/") with ((d :: dir) ++ "/").
    rewrite <- (rev_involutive (d :: dir)).
    destruct (rev (d :: dir)) as [|y r] eqn:E.
    - apply (f_equal (@rev ascii)) in E. rewrite rev_involutive in E. discriminate.
    - simpl in Hlast. simpl rev. rewrite <- !app_assoc, !forallb_app.
      simpl forallb at 2. rewrite Hlast. simpl. apply andb_false_r. }
  rewrite N. unfold rstrip_sep.
  change (d :: dir ++ "/") with ((d :: dir) ++ "/").
  rewrite rev_app_distr. change (rev ("/" : str)) with ("/" : str).
  rewrite (span_run is_sep "/" (rev (d :: dir))); [|reflexivity|exact Hlast].
  cbn [snd]. apply rev_involutive.
Qed.

Lemma dirname_of_name (name : str) :
  forallb not_sep name = true -> dirname name = [].
Proof.
  intros Hn. unfold dirname.
  rewrite <- (app_nil_r (rev name)).
  rewrite (span_run not_sep (rev name) []); [reflexivity| |exact I].
  now apply forallb_rev.
Qed.

Lemma ends_with_sep_false (dir : str) :
  dir <> [] -> stops is_sep (rev dir) -> ends_with_sep dir = false.
Proof.
  intros Hd H. unfold ends_with_sep. destruct (rev dir) as [|y r]; [reflexivity|].
  exact H.
Qed.

(** X16: [build_file] passes the directory of the input path as
    base directory.  For an input [dir/name] a relative include path is
    looked up under [dir], for an input without directory it is looked up
    as it is, and an include path that starts with [/] is looked up as it
    is in both cases. *)
Theorem include_paths_start_at_the_input_directory (dir name p : str) :
  forallb not_sep name = true ->
  dir <> [] /\ stops is_sep (rev dir) ->
  (starts_with "/" p = false ->
     path_join (or_empty (Some (dirname (dir ++ "/" ++ name)))) p = dir ++ "/" ++ p
     /\ path_join (or_empty (Some (dirname name))) p = p)
  /\ (starts_with "/" p = true ->
        path_join (or_empty (Some (dirname (dir ++ "/" ++ name)))) p = p).
Proof.
  intros Hn [Hd Hlast]. cbn [or_empty].
  rewrite dirname_of_file, dirname_of_name by assumption.
  unfold path_join. split; intros ->; [|reflexivity].
  rewrite (ends_with_sep_false dir Hd Hlast).
  destruct dir; [contradiction|]. split; reflexivity.
Qed.

(** ** Callouts *)

Lemma at_only_there (pre tail p : str) (i : nat) :
  forallb (differs "@") pre = true -> forallb (differs "@") tail = true ->
  i <> length pre -> occurs_at ("@"%char :: p) (pre ++ "@"%char :: tail) i = false.
Proof.
  intros Hpre Htail Hi.
  destruct (Nat.lt_ge_cases i (length pre)) as [L|L].
  - now apply occurs_lacking.
  - replace i with (length (pre ++ "@") + (i - length pre - 1))
      by (rewrite length_app; simpl; lia).
    change (pre ++ "@"%char :: tail) with (pre ++ "@" ++ tail).
    rewrite app_assoc, occurs_at_shift. now apply occurs_lacking_all.
Qed.

Lemma rest_of_line_miss (kw : str) (f : str -> str) (text : str) :
  (forall i, occurs_at (kw ++ " ") text i = false) ->
  re_sub (rest_of_line_pattern kw) f text = text.
Proof.
  intros H. apply re_sub_absent. intros i. unfold pmap.
  rewrite lit_none; [reflexivity|apply H].
Qed.

Section Callout.
Variables (pre g post : str).

Hypothesis pre_plain : forallb (differs "@") pre = true.
Hypothesis g_plain : forallb (differs "@") g = true.
Hypothesis post_plain : forallb (differs "@") post = true.
Hypothesis g_line : g <> [] /\ forallb not_nl g = true.
Hypothesis post_line : stops not_nl post.

Lemma other_keyword (kw tail : str) (f : str -> str) :
  forallb (differs "@") tail = true ->
  starts_with ("@"%char :: kw ++ " ") ("@"%char :: tail) = false ->
  re_sub (rest_of_line_pattern ("@"%char :: kw)) f (pre ++ "@"%char :: tail)
  = pre ++ "@"%char :: tail.
Proof.
  intros Ht Hs. apply rest_of_line_miss. intros i.
  destruct (Nat.eq_dec i (length pre)) as [->|Hi].
  - rewrite <- (Nat.add_0_r (length pre)), occurs_at_shift. exact Hs.
  - now apply at_only_there.
Qed.

Lemma this_keyword (kw : str) (f : str -> str) :
  forallb (differs "@") kw = true ->
  re_sub (rest_of_line_pattern ("@"%char :: kw)) f
    (pre ++ (("@"%char :: kw) ++ " " ++ g) ++ post)
  = pre ++ f g ++ post.
Proof.
  intros Hk. rewrite rest_of_line_replaced; auto.
  - do 2 f_equal. apply rest_of_line_miss. intros i.
    now apply occurs_lacking_all.
  - intros i Hi. now apply occurs_lacking.
Qed.

Lemma plain_keyword (kw : str) (f : str -> str) (text : str) :
  starts_with "@" kw = true -> forallb (differs "@") text = true ->
  re_sub (rest_of_line_pattern kw) f text = text.
Proof.
  intros Hk H. apply starts_with_iff in Hk as [kw' ->].
  apply rest_of_line_miss. intros i. now apply occurs_lacking_all.
Qed.

Lemma callout_plain (class prefix : str) :
  forallb (differs "@") class = true -> forallb (differs "@") prefix = true ->
  forallb (differs "@") (pre ++ callout class prefix g ++ post) = true.
Proof.
  intros Hc Hp. unfold callout, quoted. rewrite !forallb_app.
  now rewrite pre_plain, post_plain, g_plain, Hc, Hp.
Qed.

Lemma tail_plain (s : str) :
  forallb (differs "@") s = true ->
  forallb (differs "@") (s ++ g ++ post) = true.
Proof. intros H. rewrite !forallb_app. now rewrite H, g_plain, post_plain. Qed.

Ltac settle_rest :=
  repeat (rewrite (plain_keyword _ _ (_ ++ callout _ _ _ ++ _))
            by first [reflexivity | now apply callout_plain]).

Lemma callouts_render (class prefix : str) :
  In (class, prefix) callout_kinds ->
  callouts (pre ++ ("@" ++ class ++ ": " ++ g) ++ post)
  = pre ++ callout class prefix g ++ post.
Proof.
  intros H. unfold callouts.
  repeat (destruct H as [H|H]; [injection H as <- <-|]); [| | | | | contradiction].
  - rewrite (this_keyword "note:") by reflexivity.
    now settle_rest.
  - rewrite (other_keyword "note:" ("warning: " ++ g ++ post));
      [|now apply (tail_plain "warning: ")|reflexivity].
    rewrite (this_keyword "warning:") by reflexivity.
    now settle_rest.
  - rewrite (other_keyword "note:" ("info: " ++ g ++ post));
      [|now apply (tail_plain "info: ")|reflexivity].
    rewrite (other_keyword "warning:" ("info: " ++ g ++ post));
      [|now apply (tail_plain "info: ")|reflexivity].
    rewrite (this_keyword "info:") by reflexivity.
    now settle_rest.
  - rewrite (other_keyword "note:" ("tip: " ++ g ++ post));
      [|now apply (tail_plain "tip: ")|reflexivity].
    rewrite (other_keyword "warning:" ("tip: " ++ g ++ post));
      [|now apply (tail_plain "tip: ")|reflexivity].
    rewrite (other_keyword "info:" ("tip: " ++ g ++ post));
      [|now apply (tail_plain "tip: ")|reflexivity].
    rewrite (this_keyword "tip:") by reflexivity.
    now settle_rest.
  - rewrite (other_keyword "note:" ("todo: " ++ g ++ post));
      [|now apply (tail_plain "todo: ")|reflexivity].
    rewrite (other_keyword "warning:" ("todo: " ++ g ++ post));
      [|now apply (tail_plain "todo: ")|reflexivity].
    rewrite (other_keyword "info:" ("todo: " ++ g ++ post));
      [|now apply (tail_plain "todo: ")|reflexivity].
    rewrite (other_keyword "tip:" ("todo: " ++ g ++ post));
      [|now apply (tail_plain "todo: ")|reflexivity].
    now rewrite (this_keyword "todo:") by reflexivity.
Qed.

End Callout.

(** X17: a callout [@note:], [@warning:], [@info:], [@tip:] or
    [@todo:] takes the rest of its line, wherever it starts on the line,
    and becomes a [div] of that class, with [TODO: ] before the text of a
    to-do; in a text with no other [@] nothing else changes. *)
Theorem callout_becomes_a_division (class prefix pre g post : str) :
  In (class, prefix) callout_kinds ->
  forallb (differs "@") pre = true /\ forallb (differs "@") g = true
  /\ forallb (differs "@") post = true ->
  g <> [] /\ forallb not_nl g = true ->
  stops not_nl post ->
  callouts (pre ++ ("@" ++ class ++ ": " ++ g) ++ post)
  = pre ++ ("<div class=" ++ quoted class ++ ">" ++ prefix ++ g ++ "</div>")
    ++ post.
Proof.
  intros Hk (H1 & H2 & H3) Hg Hp. now apply callouts_render.
Qed.

(** ** Lists *)

Lemma rest_of_line_whole (g : str) :
  g <> [] -> forallb not_nl g = true ->
  greedy_plus not_nl (eol done) g = Some ((g, tt), length g + 0).
Proof.
  intros Hg Hall. rewrite <- (app_nil_r g) at 1.
  now apply greedy_plus_run.
Qed.

Lemma is_mark_cases (m : ascii) :
  is_mark m = true -> m = " "%char \/ m = "x"%char \/ m = "X"%char.
Proof.
  unfold is_mark. intros H. apply orb_true_iff in H as [H|H].
  - apply orb_true_iff in H as [H|H]; apply Ascii.eqb_eq in H; auto.
  - apply Ascii.eqb_eq in H. auto.
Qed.

Lemma item_chars (item : str) :
  forallb item_char item = true ->
  forallb not_nl item = true /\ forallb (differs "<") item = true.
Proof.
  intros H. split; revert H; apply forallb_weaken; unfold item_char; intros x E;
    apply andb_true_iff in E; tauto.
Qed.

Lemma task_cont_item (item : str) :
  looks_like_task item = false -> task_cont ("- " ++ item) = None.
Proof.
  intros H. destruct (task_cont ("- " ++ item)) as [[[m g] n]|] eqn:E;
    [|reflexivity].
  exfalso. unfold task_cont, pmap in E.
  destruct (lit "- [" _ ("- " ++ item)) as [[[m' [g' []]] n']|] eqn:L;
    [|discriminate].
  apply lit_inv in L as (r1 & n1 & E1 & L & _).
  injection E1 as E1. subst item.
  unfold one in L. destruct r1 as [|c r1]; [discriminate|].
  destruct (is_mark c) eqn:Hc; [|discriminate].
  destruct (lit "] " (greedy_plus not_nl (eol done)) r1) as [[a k]|] eqn:L2;
    [|discriminate].
  apply lit_inv in L2 as (r2 & n2 & -> & _ & _).
  unfold looks_like_task in H.
  destruct (is_mark_cases c Hc) as [->|[->| ->]]; discriminate.
Qed.

Lemma task_cont_task (m : ascii) (item : str) :
  is_mark m = true -> item <> [] -> forallb not_nl item = true ->
  task_cont ("- [" ++ [m] ++ "] " ++ item)
  = Some ((m, item), length ("- [" ++ [m] ++ "] " ++ item)).
Proof.
  intros Hm Hi Hall. unfold task_cont, pmap. rewrite lit_app.
  change ([m] ++ "] " ++ item) with (m :: ("] " ++ item)). unfold one.
  rewrite Hm, lit_app, rest_of_line_whole by assumption.
  simpl. do 2 f_equal. lia.
Qed.

Lemma item_cont_item (item : str) :
  item <> [] -> forallb not_nl item = true ->
  item_cont ("- " ++ item) = Some (item, length ("- " ++ item)).
Proof.
  intros Hi Hall. unfold item_cont, pmap.
  rewrite lit_app, rest_of_line_whole by assumption.
  simpl. do 2 f_equal. lia.
Qed.

Lemma task_line (m : ascii) (item : str) :
  is_mark m = true ->
  tasklist_replacer (m, item) = rendered (Task m item).
Proof.
  intros Hm. unfold tasklist_replacer, rendered.
  destruct (is_mark_cases m Hm) as [->|[->| ->]]; cbn [Ascii.eqb lower_char];
    unfold quoted; rewrite <- ?app_assoc; reflexivity.
Qed.

Lemma rendered_not_nl (e : entry) :
  entry_ok e = true -> forallb not_nl (rendered e) = true.
Proof.
  destruct e as [item|m item]; intros H; simpl in H; unfold rendered.
  - apply andb_true_iff in H as [H _]. apply andb_true_iff in H as [_ H].
    apply item_chars in H as [H _]. rewrite !forallb_app, H. reflexivity.
  - apply andb_true_iff in H as [_ H]. apply item_chars in H as [H _].
    unfold quoted. rewrite !forallb_app, H.
    destruct (Ascii.eqb m " "); reflexivity.
Qed.

Lemma written_not_nl (e : entry) :
  entry_ok e = true -> forallb not_nl (written e) = true.
Proof.
  destruct e as [item|m item]; intros H; simpl in H; unfold written.
  - apply andb_true_iff in H as [H _]. apply andb_true_iff in H as [_ H].
    apply item_chars in H as [H _]. rewrite forallb_app, H. reflexivity.
  - apply andb_true_iff in H as [H1 H]. apply andb_true_iff in H1 as [Hm _].
    apply item_chars in H as [H _]. rewrite !forallb_app, H.
    destruct (is_mark_cases m Hm) as [->|[->| ->]]; reflexivity.
Qed.

Lemma lines_of_each {X} (f : X -> str) (xs : list X) :
  xs <> [] -> (forall x, In x xs -> forallb not_nl (f x) = true) ->
  lines_of (join_lines (map f xs)) = map f xs.
Proof.
  intros Hne H. rewrite lines_of_join by (destruct xs; [contradiction|discriminate]).
  clear Hne. induction xs as [|x xs IH]; [reflexivity|].
  simpl. rewrite lines_of_line by (apply H; now left).
  simpl. f_equal. apply IH. intros y Hy. apply H. now right.
Qed.

Lemma re_sub_each {A X} (k : cont A) (r : A -> str) (f g : X -> str) (xs : list X) :
  line_local (at_bol k) ->
  xs <> [] -> (forall x, In x xs -> forallb not_nl (f x) = true) ->
  (forall x, In x xs -> re_sub (at_bol k) r (f x) = g x) ->
  re_sub (at_bol k) r (join_lines (map f xs)) = join_lines (map g xs).
Proof.
  intros Hloc Hne Hnl H. rewrite (re_sub_lines _ Hloc).
  rewrite lines_of_each by assumption. rewrite map_map. f_equal.
  now apply map_ext_in.
Qed.

Lemma first_pass (e : entry) :
  entry_ok e = true ->
  re_sub tasklist_pattern tasklist_replacer (written e) = after_tasks e.
Proof.
  intros H. change tasklist_pattern with (at_bol task_cont).
  destruct e as [item|m item]; simpl in *.
  - apply andb_true_iff in H as [H1 H2]. apply andb_true_iff in H1 as [_ H1].
    apply item_chars in H1 as [H1 _]. apply negb_true_iff in H2.
    apply re_sub_line_none; [exact H1|now apply task_cont_item].
  - apply andb_true_iff in H as [H1 H2]. apply andb_true_iff in H1 as [Hm Hi].
    apply item_chars in H2 as [H2 _].
    rewrite (re_sub_line_all task_cont _ _ (m, item)).
    + now apply task_line.
    + discriminate.
    + apply task_cont_task; auto. now destruct item.
Qed.

Lemma second_pass (e : entry) :
  entry_ok e = true ->
  re_sub item_pattern (tagged "li") (after_tasks e) = after_items e.
Proof.
  intros H. change item_pattern with (at_bol item_cont).
  destruct e as [item|m item].
  - simpl in *. apply andb_true_iff in H as [H1 _].
    apply andb_true_iff in H1 as [Hi H1]. apply item_chars in H1 as [H1 _].
    rewrite (re_sub_line_all item_cont _ _ item).
    + reflexivity.
    + discriminate.
    + apply item_cont_item; auto. now destruct item.
  - apply re_sub_line_none.
    + now apply rendered_not_nl.
    + reflexivity.
Qed.

Lemma segment (x : ascii) (p u w : str) (n : nat) :
  forallb (differs x) u = true ->
  starts_with (x :: p) (x :: u ++ w) = false ->
  (forall j, j < n -> occurs_at (x :: p) w j = false) ->
  forall j, j < S (length u) + n -> occurs_at (x :: p) (x :: u ++ w) j = false.
Proof.
  intros Hu H0 Hw [|j] Hj; [exact H0|].
  change (occurs_at (x :: p) (x :: u ++ w) (S j)) with (occurs_at (x :: p) (u ++ w) j).
  destruct (Nat.lt_ge_cases j (length u)) as [L|L].
  - now apply occurs_lacking.
  - replace j with (length u + (j - length u)) by lia.
    rewrite occurs_at_shift. apply Hw. lia.
Qed.

Lemma li_cont_none (s : str) (j : nat) :
  occurs_at "<li>" s j = false -> li_cont (skipn j s) = None.
Proof.
  intros H. unfold li_cont, pmap. rewrite lit_none; [reflexivity|exact H].
Qed.

Lemma wrap_item (item r : str) :
  forallb (differs "<") item = true ->
  re_sub li_pattern (tagged "ul") (("<li>" ++ item ++ "</li>") ++ r)
  = ("<ul><li>" ++ item ++ "</li></ul>") ++ re_sub li_pattern (tagged "ul") r.
Proof.
  intros H. change li_pattern with (anywhere li_cont).
  rewrite (re_sub_match li_cont _ ("<li>" ++ item ++ "</li>") r
             ("<li>" ++ item ++ "</li>")).
  - unfold tagged. rewrite <- !app_assoc. reflexivity.
  - discriminate.
  - unfold li_cont, pmap. rewrite <- !app_assoc. rewrite lit_app.
    rewrite (lazy_star_first any_char _ item ("</li>" ++ r) tt (5 + 0)).
    + simpl. rewrite !length_app. simpl. do 2 f_equal; lia.
    + apply forallb_any_char.
    + intros i Hi. apply lit_none.
      apply (forallb_skipn _ _ i) in H.
      destruct (skipn_nonempty item i Hi) as (c & t & E). rewrite E in *.
      simpl in H. apply andb_true_iff in H as [H _].
      unfold differs in H. apply negb_true_iff in H.
      change (starts_with "</li>" ((c :: t) ++ "</li>" ++ r))
        with (Ascii.eqb "<" c && starts_with "/li>" (t ++ "</li>" ++ r)).
      now rewrite H.
    + reflexivity.
Qed.

Lemma task_line_segments (checked item r : str) :
  forallb (differs "<") checked = true ->
  forallb (differs "<") item = true ->
  forall j,
    j < S (length ("li class=" ++ [dq] ++ "task-item" ++ [dq] ++ ">"))
        + (S (length ("input type=" ++ [dq] ++ "checkbox" ++ [dq] ++ " disabled"
                      ++ checked ++ "> " ++ item))
           + (S (length ("/li>" : str)) + 0)) ->
    occurs_at "<li>"
      ("<"%char :: ("li class=" ++ [dq] ++ "task-item" ++ [dq] ++ ">")
       ++ ("<"%char :: ("input type=" ++ [dq] ++ "checkbox" ++ [dq] ++ " disabled"
                        ++ checked ++ "> " ++ item)
           ++ ("<"%char :: "/li>" ++ r))) j = false.
Proof.
  intros Hc Hi.
  apply segment; [reflexivity|reflexivity|].
  apply segment; [|reflexivity|].
  - rewrite !forallb_app, Hc, Hi. reflexivity.
  - apply segment; [reflexivity|reflexivity|]. intros j L. lia.
Qed.

Lemma task_line_shape (checked item r : str) :
  ("<li class=" ++ quoted "task-item" ++ "><input type=" ++ quoted "checkbox"
   ++ " disabled" ++ checked ++ "> " ++ item ++ "</li>") ++ r
  = "<"%char :: ("li class=" ++ [dq] ++ "task-item" ++ [dq] ++ ">")
    ++ ("<"%char :: ("input type=" ++ [dq] ++ "checkbox" ++ [dq] ++ " disabled"
                     ++ checked ++ "> " ++ item)
        ++ ("<"%char :: "/li>" ++ r)).
Proof. unfold quoted. rewrite <- !app_assoc. reflexivity. Qed.

Lemma keep_task (m : ascii) (item r : str) :
  forallb (differs "<") item = true ->
  re_sub li_pattern (tagged "ul") (rendered (Task m item) ++ r)
  = rendered (Task m item) ++ re_sub li_pattern (tagged "ul") r.
Proof.
  intros H. change li_pattern with (anywhere li_cont).
  apply re_sub_pass. intros j Hj. apply li_cont_none.
  unfold rendered in *.
  assert (Hc : forallb (differs "<")
                 (if Ascii.eqb m " " then [] else " checked" : str) = true)
    by (destruct (Ascii.eqb m " "); reflexivity).
  revert Hj Hc. generalize (if Ascii.eqb m " " then [] else " checked" : str).
  intros checked Hj Hc.
  pose proof (task_line_shape checked item []) as L.
  apply (f_equal (@length ascii)) in L. rewrite app_nil_r in L.
  rewrite task_line_shape. apply (task_line_segments checked item r Hc H).
  rewrite L in Hj. revert Hj. simpl. rewrite ?length_app. simpl.
  rewrite ?length_app. simpl. lia.
Qed.

Lemma wrap_nl (r : str) :
  re_sub li_pattern (tagged "ul") (nl :: r) = nl :: re_sub li_pattern (tagged "ul") r.
Proof.
  change li_pattern with (anywhere li_cont).
  apply (re_sub_pass li_cont _ [nl] r). intros [|j] Hj; [reflexivity|].
  simpl in Hj. lia.
Qed.

Lemma wrap_nil : re_sub li_pattern (tagged "ul") [] = [].
Proof. reflexivity. Qed.

Lemma wrap_entry (e : entry) (r : str) :
  entry_ok e = true ->
  re_sub li_pattern (tagged "ul") (after_items e ++ r)
  = rendered e ++ re_sub li_pattern (tagged "ul") r.
Proof.
  intros H. destruct e as [item|m item]; simpl in H.
  - apply andb_true_iff in H as [H _]. apply andb_true_iff in H as [_ H].
    apply item_chars in H as [_ H]. now apply wrap_item.
  - apply andb_true_iff in H as [_ H]. apply item_chars in H as [_ H].
    now apply keep_task.
Qed.

Lemma third_pass (es : list entry) :
  forallb entry_ok es = true ->
  re_sub li_pattern (tagged "ul") (join_lines (map after_items es))
  = join_lines (map rendered es).
Proof.
  induction es as [|e es IH]; [reflexivity|]. intros H.
  simpl in H. apply andb_true_iff in H as [He H].
  destruct es as [|e2 es].
  - simpl. rewrite <- (app_nil_r (after_items e)).
    rewrite wrap_entry by exact He. rewrite wrap_nil. apply app_nil_r.
  - change (map after_items (e :: e2 :: es))
      with (after_items e :: map after_items (e2 :: es)).
    change (map rendered (e :: e2 :: es))
      with (rendered e :: map rendered (e2 :: es)).
    rewrite !join_lines_cons by discriminate.
    rewrite wrap_entry by exact He. rewrite wrap_nl. now rewrite IH.
Qed.

Lemma after_tasks_not_nl (e : entry) :
  entry_ok e = true -> forallb not_nl (after_tasks e) = true.
Proof.
  intros H. destruct e as [item|m item].
  - now apply (written_not_nl (Item item)).
  - now apply rendered_not_nl.
Qed.

(** X18: a list written one entry a line.  Every item [- text]
    comes out in a list container of its own, every task [- [m] text] as
    a list element with a check box, checked unless the mark is a blank,
    and in no container; the lines stay apart.  The texts are not empty
    and hold no line feed and no [<]. *)
Theorem list_entries_are_rendered_one_by_one (es : list entry) :
  es <> [] -> forallb entry_ok es = true ->
  lists (join_lines (map written es)) = join_lines (map rendered es).
Proof.
  intros Hne H. unfold lists. rewrite forallb_forall in H.
  rewrite (re_sub_each task_cont tasklist_replacer written after_tasks);
    auto using tasklist_pattern_local, written_not_nl, first_pass.
  rewrite (re_sub_each item_cont (tagged "li") after_tasks after_items);
    auto using item_pattern_local, after_tasks_not_nl, second_pass.
  apply third_pass. now apply forallb_forall.
Qed.

(** ** Conditional blocks in a build *)

Lemma not_at_differs (s : str) :
  forallb not_at s = true -> forallb (differs "@") s = true.
Proof.
  apply forallb_weaken. intros x. unfold not_at, differs.
  now rewrite Ascii.eqb_sym.
Qed.

Lemma two_marks (x : ascii) (pre u v p : str) :
  forallb (differs x) pre = true -> forallb (differs x) u = true ->
  forallb (differs x) v = true ->
  starts_with (x :: p) (x :: v) = false ->
  forall i, i <> length pre ->
    occurs_at (x :: p) (pre ++ x :: u ++ x :: v) i = false.
Proof.
  intros Hpre Hu Hv H2 i Hi.
  destruct (Nat.lt_ge_cases i (length pre)) as [L|L].
  - now apply occurs_lacking.
  - replace i with (length pre + S (i - length pre - 1)) by lia.
    rewrite occurs_at_shift.
    change (occurs_at (x :: p) (x :: u ++ x :: v) (S (i - length pre - 1)))
      with (occurs_at (x :: p) (u ++ x :: v) (i - length pre - 1)).
    generalize (i - length pre - 1). intros k.
    destruct (Nat.lt_ge_cases k (length u)) as [K|K].
    + now apply occurs_lacking.
    + replace k with (length u + (k - length u)) by lia.
      rewrite occurs_at_shift. destruct (k - length u) as [|k'].
      * exact H2.
      * change (occurs_at (x :: p) (x :: v) (S k')) with (occurs_at (x :: p) v k').
        now apply occurs_lacking_all.
Qed.

Section Dropped.
Variables (pre var value body post : str).

Hypothesis var_word : var <> [] /\ forallb is_word var = true.
Hypothesis value_line :
  value <> [] /\ forallb not_nl value = true /\ forallb (differs "@") value = true.
Hypothesis body_plain : forallb (differs "@") body = true.
Hypothesis rest_plain : plain_text (pre ++ post).

Let text : str := pre ++ if_directive var value body ++ post.

Lemma pre_lacks_at : forallb (differs "@") pre = true.
Proof.
  pose proof (lacks_at (pre ++ post) rest_plain) as H.
  rewrite forallb_app in H. now apply andb_true_iff in H as [H _].
Qed.

Lemma post_lacks_at : forallb (differs "@") post = true.
Proof.
  pose proof (lacks_at (pre ++ post) rest_plain) as H.
  rewrite forallb_app in H. now apply andb_true_iff in H as [_ H].
Qed.

Lemma text_shape :
  text = pre ++ "@"%char :: ("if " ++ var ++ "=" ++ value ++ [nl] ++ body)
         ++ "@"%char :: ("endif" ++ post).
Proof.
  unfold text, if_directive. rewrite <- !app_assoc. reflexivity.
Qed.

Lemma head_lacks_at :
  forallb (differs "@") ("if " ++ var ++ "=" ++ value ++ [nl] ++ body) = true.
Proof.
  destruct var_word as [_ Hv]. destruct value_line as (_ & _ & Hval).
  rewrite !forallb_app, (not_at_differs var (word_not_at var Hv)), Hval, body_plain.
  reflexivity.
Qed.

Lemma tail_lacks_at : forallb (differs "@") ("endif" ++ post) = true.
Proof. rewrite forallb_app, post_lacks_at. reflexivity. Qed.

Lemma other_directive_absent (p : str) :
  starts_with ("@"%char :: p)
    ("@"%char :: ("if " ++ var ++ "=" ++ value ++ [nl] ++ body)
     ++ "@"%char :: ("endif" ++ post)) = false ->
  starts_with ("@"%char :: p) ("@"%char :: ("endif" ++ post)) = false ->
  forall i, occurs_at ("@"%char :: p) text i = false.
Proof.
  intros H1 H2 i. rewrite text_shape.
  destruct (Nat.eq_dec i (length pre)) as [->|Hi].
  - rewrite <- (Nat.add_0_r (length pre)), occurs_at_shift. exact H1.
  - apply two_marks; auto using pre_lacks_at, head_lacks_at, tail_lacks_at.
Qed.

Lemma only_this_block :
  forall i, i <> length pre -> occurs_at "@if " text i = false.
Proof.
  intros i Hi. rewrite text_shape.
  apply two_marks; auto using pre_lacks_at, head_lacks_at, tail_lacks_at.
Qed.

Lemma body_is_open :
  forall i, i < length body -> occurs_at "@endif" (body ++ "@endif") i = false.
Proof. intros i Hi. now apply occurs_lacking. Qed.

Lemma block_dropped : eval_conditionals None text = pre ++ post.
Proof.
  destruct value_line as (V1 & V2 & _).
  apply (eval_block pre var value body post var_word (conj V1 V2)
           body_is_open only_this_block None).
Qed.

Lemma resolve_block fuel fs base_dir :
  resolve_includes (S fuel) fs base_dir text = Returned text.
Proof.
  apply resolve_absent. apply (other_directive_absent "include "); reflexivity.
Qed.

Lemma title_block : extract_title text = default_title /\ strip_titles text = text.
Proof.
  assert (N : forall i, title_cont (skipn i text) = None).
  { intros i. unfold title_cont, pmap. rewrite lit_none; [reflexivity|].
    apply (other_directive_absent "title:"); reflexivity. }
  unfold extract_title, strip_titles. rewrite title_pattern_cont. split.
  - now rewrite re_search_absent.
  - now apply re_sub_absent.
Qed.

Lemma vars_block : re_findall var_pattern text = [] /\ strip_vars text = text.
Proof.
  assert (N : forall i, var_cont (skipn i text) = None).
  { intros i. apply var_cont_absent.
    apply (other_directive_absent "var "); reflexivity. }
  unfold strip_vars. rewrite var_pattern_cont. split.
  - now apply re_findall_absent.
  - now apply re_sub_absent.
Qed.

Lemma render_block : render [] None text = "<p>" ++ (pre ++ post) ++ "</p>".
Proof.
  pose proof (render_plain (pre ++ post) rest_plain [] None) as E.
  unfold render in *. cbn [substitute_vars fold_left] in *.
  rewrite (conditionals_plain (pre ++ post) rest_plain) in E.
  rewrite block_dropped. exact E.
Qed.

End Dropped.

(** X19: [build_file] passes no platform to [parse_ldoc], so a
    conditional block is dropped whatever its condition: for a file that
    holds one block [@if var=value ... @endif], with no [@] inside, in a
    text without markup, and an output path that can be opened for writing
    (it names no directory and lies in a directory that exists), the page
    written is the template filled with the text around the block. *)
Theorem build_drops_every_conditional_block
  (fuel : nat) (fs : filesystem) (input_path output_path : str)
  (pre var value body post a b c : str) :
  fs_lookup fs input_path = Some (File (pre ++ if_directive var value body ++ post)) ->
  fs_lookup fs TEMPLATE_PATH = Some (File (template_of a b c)) ->
  var <> [] /\ forallb is_word var = true ->
  value <> [] /\ forallb not_nl value = true /\ forallb (differs "@") value = true ->
  forallb (differs "@") body = true ->
  plain_text (pre ++ post) ->
  forallb (differs "{") a = true /\ forallb (differs "{") b = true
  /\ forallb (differs "{") c = true ->
  can_open fs output_path ->
  build_file (S fuel) fs input_path output_path
  = Writes output_path
      (a ++ "Documentation" ++ b ++ ("<p>" ++ (pre ++ post) ++ "</p>") ++ c).
Proof.
  intros Lin Ltpl Hvar Hval Hbody Hrest (Ha & Hb & Hc) Hopen.
  unfold build_file, read_file at 1.
  rewrite Lin. unfold parse_ldoc. cbn [vars_or_fresh].
  rewrite (resolve_block pre var value body post Hvar Hval Hbody Hrest).
  destruct (title_block pre var value body post Hvar Hval Hbody Hrest) as [-> ->].
  destruct (vars_block pre var value body post Hvar Hval Hbody Hrest) as [-> ->].
  cbn [record_vars fold_left heap_read nth app length].
  rewrite (render_block pre var value body post Hvar Hval Hbody Hrest).
  unfold build_html, read_file. rewrite Ltpl.
  rewrite template_filled; auto.
  now rewrite open_for_writing_ok.
Qed.

(** ** Rules that work line by line *)

Lemma line_rule_local (p : str) :
  p <> [] -> forallb not_nl p = true ->
  line_local (at_bol (pmap (fun '(g, _) => g)
                           (lit p (greedy_plus not_nl (eol done))))).
Proof.
  intros Hp Hnl. apply at_bol_local.
  - apply (pmap_local (fun '(g, _) => g)). apply lit_local; [exact Hnl|].
    apply rest_of_line_local.
  - apply pmap_positive, lit_positive. exact Hp.
Qed.

Lemma line_rule_line (p : str) (r : str -> str) (l : str) :
  p <> [] -> forallb not_nl l = true ->
  re_sub (at_bol (pmap (fun '(g, _) => g)
                       (lit p (greedy_plus not_nl (eol done))))) r l
  = line_rule p r l.
Proof.
  intros Hp Hl. unfold line_rule. destruct (starts_with p l) eqn:S.
  - apply starts_with_iff in S as [g ->]. rewrite skipn_app_length.
    rewrite forallb_app in Hl. apply andb_true_iff in Hl as [Hpl Hg].
    destruct g as [|c g].
    + apply re_sub_line_none.
      * rewrite app_nil_r. exact Hpl.
      * unfold pmap. rewrite lit_app. reflexivity.
    + rewrite (re_sub_line_all _ _ _ (c :: g)).
      * reflexivity.
      * destruct p; discriminate.
      * unfold pmap. rewrite lit_app, rest_of_line_whole by (auto; discriminate).
        simpl. rewrite length_app. simpl. do 2 f_equal. lia.
  - apply re_sub_line_none; [exact Hl|].
    unfold pmap. now rewrite lit_none.
Qed.

Lemma line_rule_pass (p : str) (r : str -> str) (text : str) :
  p <> [] -> forallb not_nl p = true ->
  re_sub (at_bol (pmap (fun '(g, _) => g)
                       (lit p (greedy_plus not_nl (eol done))))) r text
  = join_lines (map (line_rule p r) (lines_of text)).
Proof.
  intros Hp Hnl. rewrite (re_sub_lines _ (line_rule_local p Hp Hnl)).
  f_equal. apply map_ext_in. intros l Hl. apply line_rule_line; [exact Hp|].
  pose proof (lines_of_not_nl text) as F. rewrite Forall_forall in F. now apply F.
Qed.

Lemma line_rule_not_nl (p : str) (r : str -> str) (l : str) :
  (forall g, forallb not_nl g = true -> forallb not_nl (r g) = true) ->
  forallb not_nl l = true -> forallb not_nl (line_rule p r l) = true.
Proof.
  intros Hr Hl. unfold line_rule. destruct (starts_with p l); [|exact Hl].
  destruct (skipn (length p) l) eqn:E; [exact Hl|].
  rewrite <- E. apply Hr. now apply forallb_skipn.
Qed.

Lemma line_rule_lines (p : str) (r : str -> str) (xs : list str) :
  xs <> [] ->
  (forall g, forallb not_nl g = true -> forallb not_nl (r g) = true) ->
  Forall (fun l => forallb not_nl l = true) xs ->
  lines_of (join_lines (map (line_rule p r) xs)) = map (line_rule p r) xs
  /\ Forall (fun l => forallb not_nl l = true) (map (line_rule p r) xs).
Proof.
  intros Hne Hr F. rewrite Forall_forall in F. split.
  - apply lines_of_each; [exact Hne|]. intros l Hl.
    apply line_rule_not_nl; auto.
  - apply Forall_forall. intros l Hl. apply in_map_iff in Hl as (l0 & <- & Hl0).
    apply line_rule_not_nl; auto.
Qed.

Lemma rule_line_spec (l : str) :
  forallb not_nl l = true ->
  re_sub rule_pattern (fun _ => "<hr>" : str) l = rule_line l.
Proof.
  intros Hl. unfold rule_line, rule_pattern.
  destruct (str_eqb l "---") eqn:E.
  - apply str_eqb_eq in E. subst l. reflexivity.
  - apply re_sub_line_none; [exact Hl|].
    destruct (lit "---" (eol done) l) as [[[] n]|] eqn:L; [|reflexivity].
    exfalso. apply lit_inv in L as (r & m & -> & L & _).
    unfold eol in L. destruct r as [|c r].
    + discriminate.
    + apply (forallb_skipn _ _ 3) in Hl. simpl in Hl.
      apply andb_true_iff in Hl as [Hc _]. unfold not_nl in Hc.
      destruct (is_nl c); discriminate.
Qed.

(** X20: the heading rules, the command rule and the rule of the
    horizontal line work line by line, on every text: the result is the
    text with each line rewritten on its own.  A line [### text], [## text]
    or [# text] with some text becomes the heading of that level, a line
    [@command: text] the escaped command, a line that is [---] and nothing
    else the rule [<hr>]; every other line is kept, a line with four [#] or
    a line [--- ] too. *)
Theorem line_rules_work_line_by_line (text : str) :
  headings text = join_lines (map heading_line (lines_of text))
  /\ re_sub command_pattern command_replacer text
     = join_lines (map (line_rule "@command: " command_replacer) (lines_of text))
  /\ re_sub rule_pattern (fun _ => "<hr>" : str) text
     = join_lines (map rule_line (lines_of text)).
Proof.
  split; [|split].
  - unfold headings, hashes_pattern, heading_line.
    assert (T : forall n g, n <= 3 -> forallb not_nl g = true ->
                forallb not_nl (heading_tag n g) = true)
      by (intros; now apply heading_tag_not_nl).
    change (("###" : str) ++ " ") with ("### " : str).
    change (("##" : str) ++ " ") with ("## " : str).
    change (("#" : str) ++ " ") with ("# " : str).
    rewrite (line_rule_pass "### ") by (discriminate || reflexivity).
    destruct (line_rule_lines "### " (heading_tag 3) (lines_of text))
      as [L3 F3]; [apply lines_of_nonempty|intros; apply T; [lia|assumption]|apply lines_of_not_nl|].
    rewrite (line_rule_pass "## ") by (discriminate || reflexivity). rewrite L3.
    destruct (line_rule_lines "## " (heading_tag 2)
                (map (line_rule "### " (heading_tag 3)) (lines_of text)))
      as [L2 F2]; [|intros; apply T; [lia|assumption]|exact F3|].
    { pose proof (lines_of_nonempty text). destruct (lines_of text);
        [contradiction|discriminate]. }
    rewrite (line_rule_pass "# ") by (discriminate || reflexivity). rewrite L2.
    now rewrite !map_map.
  - unfold command_pattern.
    apply (line_rule_pass "@command: "); [discriminate|reflexivity].
  - rewrite (re_sub_lines _ rule_pattern_local). f_equal.
    apply map_ext_in. intros l Hl. apply rule_line_spec.
    pose proof (lines_of_not_nl text) as F. rewrite Forall_forall in F. now apply F.
Qed.

(** ** Emphasis *)

Section Emphasis.
Variables (pre g post : str).

Hypothesis pre_plain : forallb (differs "*") pre = true.
Hypothesis g_plain : forallb (differs "*") g = true.
Hypothesis post_plain : forallb (differs "*") post = true.
Hypothesis g_line : g <> [] /\ forallb not_nl g = true.

Lemma emphasis_cont_here (m r : str) :
  pmap (fun '(x, _) => x)
       (lit ("*"%char :: m) (lazy_plus not_nl (lit ("*"%char :: m) done)))
       ((("*"%char :: m) ++ g ++ ("*"%char :: m)) ++ r)
  = Some (g, length (("*"%char :: m) ++ g ++ ("*"%char :: m))).
Proof.
  destruct g_line as [Hg Hnl]. unfold pmap.
  rewrite <- !app_assoc. rewrite lit_app.
  rewrite (lazy_plus_first not_nl _ g (("*"%char :: m) ++ r) tt
             (length ("*"%char :: m) + 0)); auto.
  - simpl. rewrite !length_app. simpl. do 2 f_equal. lia.
  - intros i _ Hi. apply lit_none.
    pose proof (forallb_skipn _ _ i g_plain) as H.
    destruct (skipn_nonempty g i Hi) as (c & t & E). rewrite E in *.
    simpl in H. apply andb_true_iff in H as [H _].
    unfold differs in H. apply negb_true_iff in H.
    simpl app. cbn [starts_with]. now rewrite H.
  - rewrite lit_app. reflexivity.
Qed.

Lemma emphasis_plain_text (m tag t : str) :
  forallb (differs "*") t = true ->
  re_sub (emphasis_pattern ("*"%char :: m)) (tagged tag) t = t.
Proof.
  intros H. apply re_sub_absent. intros i. now apply (pattern_lacking _ "*" m).
Qed.

Lemma emphasis_pass (m tag : str) :
  re_sub (emphasis_pattern ("*"%char :: m)) (tagged tag)
    (pre ++ (("*"%char :: m) ++ g ++ ("*"%char :: m)) ++ post)
  = pre ++ tagged tag g ++ post.
Proof.
  unfold emphasis_pattern. rewrite re_sub_pass.
  - rewrite (re_sub_match _ _ (("*"%char :: m) ++ g ++ ("*"%char :: m)) post g).
    + do 2 f_equal. now apply (emphasis_plain_text m tag).
    + discriminate.
    + apply emphasis_cont_here.
  - intros i Hi. unfold pmap. rewrite lit_none; [reflexivity|].
    now apply occurs_lacking.
Qed.

Lemma tagged_plain (tag : str) :
  forallb (differs "*") tag = true ->
  forallb (differs "*") (pre ++ tagged tag g ++ post) = true.
Proof.
  intros H. unfold tagged. rewrite !forallb_app.
  now rewrite pre_plain, g_plain, post_plain, H.
Qed.

Lemma no_double_star :
  forall i, occurs_at "**" (pre ++ ("*" ++ g ++ "*") ++ post) i = false.
Proof.
  intros i. destruct g_line as [Hg _].
  replace (pre ++ ("*" ++ g ++ "*") ++ post)
    with (pre ++ "*"%char :: g ++ "*"%char :: post)
    by (simpl; now rewrite <- !app_assoc).
  destruct (Nat.eq_dec i (length pre)) as [->|Hi].
  - rewrite <- (Nat.add_0_r (length pre)), occurs_at_shift.
    destruct g as [|c t]; [contradiction|].
    pose proof g_plain as H. simpl in H. apply andb_true_iff in H as [H _].
    unfold differs in H. apply negb_true_iff in H.
    unfold occurs_at. simpl skipn.
    change (Ascii.eqb "*" "*" && (Ascii.eqb "*" c && true) = false).
    now rewrite H.
  - apply two_marks; auto.
    destruct post as [|d s]; [reflexivity|].
    pose proof post_plain as H. simpl in H. apply andb_true_iff in H as [H _].
    unfold differs in H. apply negb_true_iff in H.
    change (Ascii.eqb "*" "*" && (Ascii.eqb "*" d && true) = false).
    now rewrite H.
Qed.

Lemma strong_then_em :
  emphasis (pre ++ ("**" ++ g ++ "**") ++ post) = pre ++ tagged "strong" g ++ post.
Proof.
  unfold emphasis.
  assert (E : re_sub (emphasis_pattern "**") (tagged "strong")
                (pre ++ ("**" ++ g ++ "**") ++ post)
              = pre ++ tagged "strong" g ++ post)
    by apply (emphasis_pass "*" "strong").
  rewrite E.
  apply (emphasis_plain_text [] "em"). now apply tagged_plain.
Qed.

Lemma em_alone :
  emphasis (pre ++ ("*" ++ g ++ "*") ++ post) = pre ++ tagged "em" g ++ post.
Proof.
  unfold emphasis.
  assert (E : re_sub (emphasis_pattern "**") (tagged "strong")
                (pre ++ ("*" ++ g ++ "*") ++ post)
              = pre ++ ("*" ++ g ++ "*") ++ post).
  { apply re_sub_absent. intros i. unfold pmap.
    rewrite lit_none; [reflexivity|apply no_double_star]. }
  rewrite E. apply (emphasis_pass [] "em").
Qed.

End Emphasis.

(** X21: the rule of the double star runs before the rule of the
    single one, so [**text**] becomes a [strong] element and is left alone by
    the second pass, and [*text*] is passed by the first rule and becomes an
    [em] element; the text is one line with no star, and so is what stands
    around it. *)
Theorem strong_is_marked_before_emphasis (pre g post : str) :
  forallb (differs "*") pre = true /\ forallb (differs "*") g = true
  /\ forallb (differs "*") post = true ->
  g <> [] /\ forallb not_nl g = true ->
  emphasis (pre ++ ("**" ++ g ++ "**") ++ post)
  = pre ++ ("<strong>" ++ g ++ "</strong>") ++ post
  /\ emphasis (pre ++ ("*" ++ g ++ "*") ++ post)
     = pre ++ ("<em>" ++ g ++ "</em>") ++ post.
Proof.
  intros (H1 & H2 & H3) Hg. split.
  - now apply strong_then_em.
  - now apply em_alone.
Qed.

(** ** Links and fenced blocks *)

Section Link.
Variables (pre label url post : str).

Hypothesis pre_plain : forallb (differs "[") pre = true.
Hypothesis label_line : forallb not_nl label = true.
Hypothesis label_open :
  forall i, i < length label -> occurs_at "](" (label ++ "](") i = false.
Hypothesis url_line : forallb not_nl url = true.
Hypothesis url_open : forallb (differs ")") url = true.

Lemma link_cont_here :
  link_cont (link_text label url ++ post)
  = Some ((label, url), length (link_text label url)).
Proof.
  unfold link_cont, pmap, link_text. rewrite <- !app_assoc. rewrite lit_app.
  rewrite (lazy_star_first not_nl _ label _ (url, tt)
             (2 + (length url + (1 + 0)))); auto.
  - simpl. rewrite !length_app. simpl. rewrite !length_app. simpl.
    do 2 f_equal; lia.
  - intros i Hi. apply lit_none.
    specialize (label_open i Hi). unfold occurs_at in label_open.
    rewrite skipn_app_lt in label_open by lia.
    rewrite app_assoc. rewrite starts_with_within; auto.
    rewrite length_app, length_skipn. simpl. lia.
  - rewrite lit_app.
    rewrite (lazy_star_first not_nl _ url _ tt (1 + 0)); auto.
    + intros i Hi. apply lit_none.
      pose proof (forallb_skipn _ _ i url_open) as H.
      destruct (skipn_nonempty url i Hi) as (c & t & E). rewrite E in *.
      simpl in H. apply andb_true_iff in H as [H _].
      unfold differs in H. apply negb_true_iff in H.
      change (Ascii.eqb ")" c && true = false). now rewrite H.
Qed.

Lemma link_replaced :
  re_sub link_pattern link_html (pre ++ link_text label url ++ post)
  = pre ++ link_html (label, url) ++ re_sub link_pattern link_html post.
Proof.
  change link_pattern with (anywhere link_cont). rewrite re_sub_pass.
  - rewrite (re_sub_match link_cont _ (link_text label url) post (label, url)); auto.
    + discriminate.
    + apply link_cont_here.
  - intros i Hi. unfold link_cont, pmap. rewrite lit_none; [reflexivity|].
    now apply occurs_lacking.
Qed.

End Link.

Section Fence.
Variables (pre lang body post : str).

Hypothesis pre_plain : forallb (differs "`") pre = true.
Hypothesis lang_word : forallb is_word lang = true.
Hypothesis body_open :
  forall i, i < length body -> occurs_at "```" (body ++ "```") i = false.

Lemma fence_cont_here :
  fence_cont (fence_text lang body ++ post)
  = Some ((lang, body), length (fence_text lang body)).
Proof.
  unfold fence_cont, pmap, fence_text. rewrite <- !app_assoc. rewrite lit_app.
  rewrite (greedy_star_run is_word _ lang _ (body, tt)
             (1 + (length body + (3 + 0)))); auto.
  - simpl. rewrite !length_app. simpl. rewrite !length_app. simpl.
    do 2 f_equal; lia.
  - reflexivity.
  - rewrite (lit_app [nl]).
    rewrite (lazy_star_first any_char _ body _ tt (3 + 0)); auto.
    + apply forallb_any_char.
    + intros i Hi. apply lit_none.
      specialize (body_open i Hi). unfold occurs_at in body_open.
      rewrite skipn_app_lt in body_open by lia.
      rewrite app_assoc. rewrite starts_with_within; auto.
      rewrite length_app, length_skipn. simpl. lia.
Qed.

Lemma fence_replaced :
  re_sub fence_pattern fence_html (pre ++ fence_text lang body ++ post)
  = pre ++ fence_html (lang, body) ++ re_sub fence_pattern fence_html post.
Proof.
  change fence_pattern with (anywhere fence_cont). rewrite re_sub_pass.
  - rewrite (re_sub_match fence_cont _ (fence_text lang body) post (lang, body)); auto.
    + discriminate.
    + apply fence_cont_here.
  - intros i Hi. unfold fence_cont, pmap. rewrite lit_none; [reflexivity|].
    now apply occurs_lacking.
Qed.

End Fence.

(** X22: the first link [[label](url)] of a text becomes an anchor
    to [url] with the label as its text, both inserted as they are; the
    label ends at the first [](] and the address at the first [)], and
    either may be empty. *)
Theorem link_becomes_an_anchor (pre label url post : str) :
  forallb (differs "[") pre = true ->
  forallb not_nl label = true ->
  (forall i, i < length label -> occurs_at "](" (label ++ "](") i = false) ->
  forallb not_nl url = true /\ forallb (differs ")") url = true ->
  re_sub link_pattern link_html (pre ++ link_text label url ++ post)
  = pre ++ ("<a href=" ++ quoted url ++ ">" ++ label ++ "</a>")
    ++ re_sub link_pattern link_html post.
Proof.
  intros H1 H2 H3 [H4 H5]. now apply link_replaced.
Qed.

(** X23: the first fenced block of a text becomes a [pre] and
    [code] element whose class is the word after the opening fence, which
    may be empty; the body is inserted as it is, neither escaped nor
    trimmed. *)
Theorem fenced_block_keeps_its_body (pre lang body post : str) :
  forallb (differs "`") pre = true ->
  forallb is_word lang = true ->
  (forall i, i < length body -> occurs_at "```" (body ++ "```") i = false) ->
  re_sub fence_pattern fence_html (pre ++ fence_text lang body ++ post)
  = pre ++ ("<pre><code class=" ++ quoted lang ++ ">" ++ body ++ "</code></pre>")
    ++ re_sub fence_pattern fence_html post.
Proof.
  intros H1 H2 H3. now apply fence_replaced.
Qed.

(** ** Instances of the further properties *)

(** Two lines of prose. *)
Lemma plain_document_witness :
  parse_ldoc 1 [] [] ("Hello, world." ++ [nl] ++ "A second line.") None None None
  = Returned ("<p>" ++ ("Hello, world." ++ [nl] ++ "A second line.") ++ "</p>",
              default_title, snd (vars_or_fresh [] None)).
Proof.
  apply (plain_document_is_one_paragraph 0 [] []
           ("Hello, world." ++ [nl] ++ "A second line.") None None None).
  split; [reflexivity|]. split; [reflexivity|].
  split; unfold absent; apply absent_check; try discriminate; reflexivity.
Defined.

(** Two paragraphs with three line feeds between them. *)
Lemma closed_paragraphs_witness :
  (exists body, ("<p>a</p><p>b</p>" : str) = "<p>" ++ body ++ "</p>")
  /\ absent [nl; nl] "<p>a</p><p>b</p>".
Proof.
  apply (fragment_is_closed_paragraphs 1 [] [] ("a" ++ [nl; nl; nl] ++ "b")
           None None None "<p>a</p><p>b</p>" default_title [[]]).
  vm_compute. reflexivity.
Defined.

(** A directive to a file that exists, and one to a directory. *)
Lemma existing_include_witness :
  include_step [("part.ldoc" : str, File "inner")] None
    (("x" ++ [nl]) ++ ("@include " ++ "part.ldoc") ++ ([nl] ++ "y"))
  = Next (("x" ++ [nl]) ++ "inner"
          ++ replace ("@include " ++ "part.ldoc") "inner" ([nl] ++ "y"))
  /\ parse_ldoc 1 [("docs/img" : str, Directory)] []
       ([] ++ ("@include " ++ "img") ++ []) (Some ("docs" : str)) None None
     = Raised IsADirectoryError.
Proof.
  split.
  - apply (fun H1 H2 H3 =>
             proj1 (existing_include_is_spliced_or_raises
                      [("part.ldoc" : str, File "inner")] None
                      ("x" ++ [nl]) "part.ldoc" ([nl] ++ "y") 0 H1 H2 H3)
                   "inner").
    + split; [discriminate|reflexivity].
    + reflexivity.
    + apply absent_below_spec. reflexivity.
    + reflexivity.
  - apply (fun H1 H2 H3 H4 =>
             proj2 (existing_include_is_spliced_or_raises
                      [("docs/img" : str, Directory)] (Some ("docs" : str))
                      [] "img" [] 0 H1 H2 H3) H4 [] None None).
    + split; [discriminate|reflexivity].
    + exact I.
    + apply absent_below_spec. reflexivity.
    + reflexivity.
Defined.

(** A declaration between two lines, the second with a reference. *)
Lemma declaration_witness :
  let text : str :=
    ("a" ++ [nl]) ++ ("@var " ++ "X" ++ "=" ++ " 5 ") ++ ([nl] ++ "@X and @XY") in
  re_findall var_pattern text = [("X" : str, " 5 " : str)]
  /\ strip_vars text = ("a" ++ [nl]) ++ ([nl] ++ "@X and @XY")
  /\ substitute_vars (record_vars (re_findall var_pattern text) []) (strip_vars text)
     = replace ("@" ++ "X") (strip " 5 ") (("a" ++ [nl]) ++ ([nl] ++ "@X and @XY")).
Proof.
  apply (declaration_is_removed_and_applied ("a" ++ [nl]) "X" " 5 "
           ([nl] ++ "@X and @XY")).
  - split; [discriminate|reflexivity].
  - split; [discriminate|reflexivity].
  - reflexivity.
  - apply only_at_spec; [discriminate|reflexivity].
Defined.

(** A block of Python named [hello] and a line that uses it. *)
Lemma codeblock_witness :
  let text : str :=
    ("a" ++ [nl]) ++ codeblock_decl "python" "hello" ("print(1)" ++ [nl])
    ++ ([nl] ++ "@usecode hello") in
  re_findall block_pattern text
  = [("python" : str, "hello" : str, "print(1)" ++ [nl])]
  /\ re_sub block_pattern (fun _ => []) text = ("a" ++ [nl]) ++ ([nl] ++ "@usecode hello")
  /\ use_codeblocks (record_codeblocks (re_findall block_pattern text))
       (re_sub block_pattern (fun _ => []) text)
     = replace ("@usecode " ++ "hello")
         ("<pre><code class=" ++ [dq] ++ "python" ++ [dq] ++ ">"
          ++ strip ("print(1)" ++ [nl]) ++ "</code></pre>")
         (("a" ++ [nl]) ++ ([nl] ++ "@usecode hello")).
Proof.
  apply (codeblock_is_removed_and_reused ("a" ++ [nl]) "python" "hello"
           ("print(1)" ++ [nl]) ([nl] ++ "@usecode hello")).
  - split; [discriminate|reflexivity].
  - split; [discriminate|reflexivity].
  - apply absent_below_spec. reflexivity.
  - apply only_at_spec; [discriminate|reflexivity].
Defined.

(** A header and one row, closed by a line feed. *)
Lemma table_rows_witness :
  table_replacer
    (join_lines (map join_cells [["Name" : str; " Age" : str]; ["Ann " : str; "31" : str]])
     ++ [nl])
  = "<table>" ++ cells_row "th" ["Name" : str; " Age" : str]
    ++ flat_map (cells_row "td") [["Ann " : str; "31" : str]] ++ "</table>".
Proof.
  apply (table_rows_become_cells ["Name" : str; " Age" : str]
           [["Ann " : str; "31" : str]] [nl]).
  - reflexivity.
  - split; [discriminate|split; reflexivity].
  - reflexivity.
Defined.

(** A table of one row after a line of text, and an empty block. *)
Lemma table_block_witness :
  re_sub table_pattern table_replacer
    (("a" ++ [nl]) ++ table_block [nl] ("x|y" ++ [nl]) ++ ([nl] ++ "z"))
  = ("a" ++ [nl]) ++ table_replacer ("x|y" ++ [nl])
    ++ re_sub table_pattern table_replacer ([nl] ++ "z")
  /\ re_sub table_pattern table_replacer ([] ++ table_block " " [] ++ "z")
     = [] ++ "<table></table>" ++ re_sub table_pattern table_replacer "z".
Proof.
  split.
  - apply (fun H1 H2 H3 H4 =>
             proj1 (table_block_is_rendered ("a" ++ [nl]) [nl] ("x|y" ++ [nl])
                      ([nl] ++ "z") H1 H2 H3 H4)).
    + reflexivity.
    + reflexivity.
    + apply absent_below_spec. reflexivity.
    + apply absent_below_spec. reflexivity.
  - apply (fun H1 H2 H3 H4 =>
             proj2 (table_block_is_rendered [] " " [] "z" H1 H2 H3 H4)).
    + reflexivity.
    + exact I.
    + apply absent_below_spec. reflexivity.
    + apply absent_below_spec. reflexivity.
    + reflexivity.
Defined.

(** A to-do in the middle of a line. *)
Lemma callout_witness :
  callouts ("see " ++ ("@" ++ "todo" ++ ": " ++ "fix it") ++ ([nl] ++ "next"))
  = "see " ++ ("<div class=" ++ quoted "todo" ++ ">" ++ "TODO: " ++ "fix it" ++ "</div>")
    ++ ([nl] ++ "next").
Proof.
  apply (callout_becomes_a_division "todo" "TODO: " "see " "fix it" ([nl] ++ "next")).
  - simpl. tauto.
  - split; [reflexivity|split; reflexivity].
  - split; [discriminate|reflexivity].
  - reflexivity.
Defined.

(** A heading and a paragraph, with and without files around. *)
Lemma no_file_access_witness :
  parse_ldoc 1 [] [] ("# T" ++ [nl] ++ "text") None None None
  = parse_ldoc 4 [("T" : str, Directory)] [] ("# T" ++ [nl] ++ "text")
      (Some ("docs" : str)) None None
  /\ exists fragment title h',
       parse_ldoc 1 [] [] ("# T" ++ [nl] ++ "text") None None None
       = Returned (fragment, title, h').
Proof.
  apply (no_include_no_file_access 0 3 [] [("T" : str, Directory)] []
           ("# T" ++ [nl] ++ "text") None (Some ("docs" : str)) None None).
  apply absent_check; [discriminate|reflexivity].
Defined.

(** A text that asks for a table of contents and has no heading. *)
Lemma empty_toc_witness :
  toc_entries ("@toc" ++ [nl] ++ "a #1 issue") = []
  /\ insert_toc ("@toc" ++ [nl] ++ "a #1 issue")
     = replace "@toc" empty_toc ("@toc" ++ [nl] ++ "a #1 issue")
  /\ headings ("@toc" ++ [nl] ++ "a #1 issue") = "@toc" ++ [nl] ++ "a #1 issue".
Proof.
  apply (toc_without_headings_is_empty ("@toc" ++ [nl] ++ "a #1 issue")).
  reflexivity.
Defined.

(** A template of three lines. *)
Lemma template_witness :
  build_html
    [(TEMPLATE_PATH, File (template_of "<title>" ("</title>" ++ [nl] ++ "<body>") "</body>"))]
    "<p>{title}</p>" "Guide"
  = inl ("<title>" ++ "Guide" ++ ("</title>" ++ [nl] ++ "<body>") ++ "<p>{title}</p>"
         ++ "</body>").
Proof.
  apply (template_places_title_and_content
           [(TEMPLATE_PATH, File (template_of "<title>" ("</title>" ++ [nl] ++ "<body>")
                                     "</body>"))]
           "<title>" ("</title>" ++ [nl] ++ "<body>") "</body>" "Guide" "<p>{title}</p>");
    reflexivity.
Defined.


(** The input [docs/guide/a.ldoc] and the bare name [a.ldoc]. *)
Lemma input_directory_witness :
  (path_join (or_empty (Some (dirname ("docs/guide" ++ "/" ++ "a.ldoc")))) "part.ldoc"
   = "docs/guide" ++ "/" ++ "part.ldoc"
   /\ path_join (or_empty (Some (dirname "a.ldoc"))) "part.ldoc" = "part.ldoc")
  /\ path_join (or_empty (Some (dirname ("docs/guide" ++ "/" ++ "a.ldoc")))) "/etc/x"
     = "/etc/x".
Proof.
  split.
  - apply (fun H1 H2 =>
             proj1 (include_paths_start_at_the_input_directory "docs/guide" "a.ldoc"
                      "part.ldoc" H1 H2)).
    + reflexivity.
    + split; [discriminate|reflexivity].
    + reflexivity.
  - apply (fun H1 H2 =>
             proj2 (include_paths_start_at_the_input_directory "docs/guide" "a.ldoc"
                      "/etc/x" H1 H2)).
    + reflexivity.
    + split; [discriminate|reflexivity].
    + reflexivity.
Defined.

(** A task that is done, an item, and a task to do. *)
Lemma list_entries_witness :
  lists (join_lines (map written [Task "x" "write"; Item "read [me](x)"; Task " " "rest"]))
  = join_lines (map rendered [Task "x" "write"; Item "read [me](x)"; Task " " "rest"]).
Proof.
  apply (list_entries_are_rendered_one_by_one
           [Task "x" "write"; Item "read [me](x)"; Task " " "rest"]).
  - discriminate.
  - reflexivity.
Defined.

(** A block for [linux] after the first words of a file, built into the
    directory [build]. *)
Lemma dropped_block_witness :
  build_file 1
    [("a.ldoc" : str,
      File ("Intro. " ++ if_directive "PLATFORM" "linux" ("Only here." ++ [nl])
            ++ ([nl] ++ "End.")));
     (TEMPLATE_PATH, File (template_of "<h1>" "</h1>" []));
     ("build" : str, Directory)]
    "a.ldoc" "build/a.html"
  = Writes "build/a.html"
      ("<h1>" ++ "Documentation" ++ "</h1>"
       ++ ("<p>" ++ ("Intro. " ++ ([nl] ++ "End.")) ++ "</p>") ++ []).
Proof.
  apply (build_drops_every_conditional_block 0
           [("a.ldoc" : str,
             File ("Intro. " ++ if_directive "PLATFORM" "linux" ("Only here." ++ [nl])
                   ++ ([nl] ++ "End.")));
            (TEMPLATE_PATH, File (template_of "<h1>" "</h1>" []));
            ("build" : str, Directory)]
           "a.ldoc" "build/a.html"
           "Intro. " "PLATFORM" "linux" ("Only here." ++ [nl]) ([nl] ++ "End.")
           "<h1>" "</h1>" []).
  - reflexivity.
  - reflexivity.
  - split; [discriminate|reflexivity].
  - split; [discriminate|split; reflexivity].
  - reflexivity.
  - split; [reflexivity|]. split; [reflexivity|].
    split; unfold absent; apply absent_check; try discriminate; reflexivity.
  - split; [reflexivity|split; reflexivity].
  - split; [discriminate|]. split; [reflexivity|].
    split; [discriminate|right; reflexivity].
Defined.

(** Two words, one marked twice and one marked once. *)
Lemma emphasis_witness :
  emphasis ("a " ++ ("**" ++ "b c" ++ "**") ++ " d")
  = "a " ++ ("<strong>" ++ "b c" ++ "</strong>") ++ " d"
  /\ emphasis ("a " ++ ("*" ++ "b c" ++ "*") ++ " d")
     = "a " ++ ("<em>" ++ "b c" ++ "</em>") ++ " d".
Proof.
  apply (strong_is_marked_before_emphasis "a " "b c" " d").
  - split; [reflexivity|split; reflexivity].
  - split; [discriminate|reflexivity].
Defined.

(** A link whose label holds a bracket. *)
Lemma link_witness :
  re_sub link_pattern link_html ("see " ++ link_text "the [docs]" "http://x/y" ++ ".")
  = "see " ++ ("<a href=" ++ quoted "http://x/y" ++ ">" ++ "the [docs]" ++ "</a>")
    ++ re_sub link_pattern link_html ".".
Proof.
  apply (link_becomes_an_anchor "see " "the [docs]" "http://x/y" ".").
  - reflexivity.
  - reflexivity.
  - apply absent_below_spec. reflexivity.
  - split; reflexivity.
Defined.

(** A block of shell with a tag in its body. *)
Lemma fence_witness :
  re_sub fence_pattern fence_html
    (("x" ++ [nl]) ++ fence_text "sh" ("echo <b> & `date`" ++ [nl]) ++ ([nl] ++ "y"))
  = ("x" ++ [nl])
    ++ ("<pre><code class=" ++ quoted "sh" ++ ">" ++ ("echo <b> & `date`" ++ [nl])
        ++ "</code></pre>")
    ++ re_sub fence_pattern fence_html ([nl] ++ "y").
Proof.
  apply (fenced_block_keeps_its_body ("x" ++ [nl]) "sh" ("echo <b> & `date`" ++ [nl])
           ([nl] ++ "y")).
  - reflexivity.
  - reflexivity.
  - apply absent_below_spec. reflexivity.
Defined.
